(** * Bounded-buffer producer/consumer: a shallow embedding of
      [Code/main.cc] and [Code/helper.cc] and the properties of the
      circular queue, the start-up sequence and the worker threads.

    The model in short:
    - the queue functions, [produce] and [check_arg] are functions on
      the program's variables; what is undefined in C++ (an array access
      out of bounds, a remainder by zero) is [None];
    - [main] is a function on a [world]: the global variables, [errno],
      the semaphore set and the list of everything done so far; an
      [environment] says which system calls fail and with which error,
      and whether the stack has room for the arrays of thread handles;
    - [producer] and [consumer] run one statement per step, and the
      process is the interleaving of the steps of its threads over the
      shared [world]; a wait on a semaphore that is 0 has no step, and a
      timed wait may return -1 at any time.  The [SEM_UNDO] adjustments
      play no part while the process runs and are left out. *)

From Stdlib Require Import ZArith Lia String Ascii Bool.
From stdpp Require Import base option list.

Local Open Scope Z_scope.

(** ** Machine integers

    [int] is a 32-bit two's complement integer.  Values are kept in [Z];
    the result of an addition is brought back into range by [wrap_int].
    The remainder operator [%] truncates towards zero ([Z.rem]) and traps
    on a zero divisor, which the model reports as [None]. *)

Definition INT_MAX : Z := 2147483647.
Definition INT_MIN : Z := -2147483648.

Definition int_range (z : Z) : Prop := INT_MIN <= z <= INT_MAX.

Definition wrap_int (z : Z) : Z := (z + 2 ^ 31) mod 2 ^ 32 - 2 ^ 31.

Definition int_add (a b : Z) : Z := wrap_int (a + b).

Definition int_rem (a b : Z) : option Z :=
  if (b =? 0) || ((a =? INT_MIN) && (b =? -1)) then None
  else Some (Z.rem a b).

(** ** Arrays

    A C array is a list; an access outside [0 .. length-1] is a memory
    error and yields [None]. *)

Definition array_get {A : Type} (a : list A) (i : Z) : option A :=
  if i <? 0 then None else a !! Z.to_nat i.

Definition array_set {A : Type} (a : list A) (i : Z) (x : A) : option (list A) :=
  if (0 <=? i) && (i <? Z.of_nat (length a))
  then Some (<[Z.to_nat i := x]> a)
  else None.

(** [new T[n]]: the elements of the fresh array are indeterminate; [fresh]
    stands for whatever the allocator hands out.  A negative length makes
    the allocation fail. *)
Definition new_array {A : Type} (n : Z) (fresh : nat -> A) : option (list A) :=
  if n <? 0 then None else Some (map fresh (seq 0 (Z.to_nat n))).

(** ** Data model of [main.cc] *)

Record job : Type := mk_job {
  job_id : Z;
  duration : Z
}.

Record circular_queue : Type := mk_queue {
  head : Z;
  tail : Z;
  array_size : Z;
  data : list job
}.

(** The global variables of [main.cc].  The three semaphore numbers are
    never assigned after their initialisation and are constants here. *)
Definition item : Z := 0.
Definition space : Z := 1.
Definition mutex : Z := 2.

Record globals : Type := mk_globals {
  sem_id : Z;
  number_of_producers : Z;
  number_of_consumers : Z;
  jobs_per_producer : Z;
  buffer_size : Z;
  my_queue : circular_queue
}.

Definition set_my_queue (g : globals) (q : circular_queue) : globals :=
  mk_globals (sem_id g) (number_of_producers g) (number_of_consumers g)
             (jobs_per_producer g) (buffer_size g) q.

Definition set_sem_id (g : globals) (id : Z) : globals :=
  mk_globals id (number_of_producers g) (number_of_consumers g)
             (jobs_per_producer g) (buffer_size g) (my_queue g).

(** Static storage is zero-initialised. *)
Definition globals_at_startup : globals :=
  mk_globals 0 0 0 0 0 (mk_queue 0 0 0 []).

(** ** The circular queue *)

(** [initializeQueue] *)
Definition initializeQueue (fresh : nat -> job) (g : globals) : option globals :=
  d ← new_array (buffer_size g) fresh;
  Some (set_my_queue g (mk_queue 0 0 (buffer_size g) d)).

(** [deposit_item]: store at [tail], then advance [tail] modulo
    [buffer_size]. *)
Definition deposit_item (new_job : job) (g : globals) : option globals :=
  let q := my_queue g in
  d ← array_set (data q) (tail q) new_job;
  t ← int_rem (int_add (tail q) 1) (buffer_size g);
  Some (set_my_queue g (mk_queue (head q) t (array_size q) d)).

(** [fetch_item]: read at [head], then advance [head] modulo
    [buffer_size]. *)
Definition fetch_item (g : globals) : option (job * globals) :=
  let q := my_queue g in
  myJob ← array_get (data q) (head q);
  h ← int_rem (int_add (head q) 1) (buffer_size g);
  Some (myJob, set_my_queue g (mk_queue h (tail q) (array_size q) (data q))).

(** [produce]: [rand_val] is the value returned by the call of [rand()]. *)
Definition produce (min max : Z) (rand_val : Z) : option Z :=
  r ← int_rem rand_val max;
  Some (int_add min r).

(** ** Sequences of queue calls *)

Inductive queue_call : Type :=
| Deposit (j : job)
| Fetch.

(** What a call did to the backing array: the slot it touched and the job
    it stored there or took from there. *)
Inductive queue_event : Type :=
| Deposited (slot : Z) (j : job)
| Fetched (slot : Z) (j : job).

Definition do_call (c : queue_call) (g : globals) : option (queue_event * globals) :=
  match c with
  | Deposit j =>
      g' ← deposit_item j g;
      Some (Deposited (tail (my_queue g)) j, g')
  | Fetch =>
      '(j, g') ← fetch_item g;
      Some (Fetched (head (my_queue g)) j, g')
  end.

Fixpoint run_calls (cs : list queue_call) (g : globals)
  : option (list queue_event * globals) :=
  match cs with
  | [] => Some ([], g)
  | c :: cs' =>
      '(e, g1) ← do_call c g;
      '(es, g2) ← run_calls cs' g1;
      Some (e :: es, g2)
  end.

(** A queue of capacity [C] as [main] sets it up: [buffer_size] is [C]
    and [initializeQueue] has run. *)
Definition with_buffer_size (C : Z) : globals :=
  mk_globals 0 0 0 0 C (mk_queue 0 0 0 []).

Definition initialized_queue (C : Z) (fresh : nat -> job) : option globals :=
  initializeQueue fresh (with_buffer_size C).

(** The queue invariant: indices inside the array, array of [C] slots. *)
Record queue_ok (C : Z) (g : globals) : Prop := {
  ok_size : buffer_size g = C;
  ok_len : Z.of_nat (length (data (my_queue g))) = C;
  ok_head : 0 <= head (my_queue g) < C;
  ok_tail : 0 <= tail (my_queue g) < C
}.

(** The counter protocol on a sequence of calls: after every prefix the
    fetches do not outnumber the deposits, and the deposits do not
    outnumber the fetches by more than the capacity. *)
Fixpoint count_deposits (cs : list queue_call) : Z :=
  match cs with
  | [] => 0
  | Deposit _ :: cs' => 1 + count_deposits cs'
  | Fetch :: cs' => count_deposits cs'
  end.

Fixpoint count_fetches (cs : list queue_call) : Z :=
  match cs with
  | [] => 0
  | Deposit _ :: cs' => count_fetches cs'
  | Fetch :: cs' => 1 + count_fetches cs'
  end.

Definition counter_protocol (C : Z) (cs : list queue_call) : Prop :=
  forall k : nat,
    count_fetches (take k cs) <= count_deposits (take k cs)
    /\ count_deposits (take k cs) <= count_fetches (take k cs) + C.

(** The same protocol, read off call by call from [n] filled slots. *)
Fixpoint protocol_from (C n : Z) (cs : list queue_call) : Prop :=
  match cs with
  | [] => True
  | Deposit _ :: cs' => n < C /\ protocol_from C (n + 1) cs'
  | Fetch :: cs' => 0 < n /\ protocol_from C (n - 1) cs'
  end.

Definition slot_of (e : queue_event) : Z :=
  match e with
  | Deposited s _ => s
  | Fetched s _ => s
  end.

(** The most recent event of a history that touched slot [s]. *)
Definition last_at (s : Z) (es : list queue_event) : option queue_event :=
  last (filter (fun e => slot_of e = s) es).

(** No stale read: a fetch takes the job of the latest deposit into its
    slot, and nothing has touched the slot since. *)
Definition no_stale_read (es : list queue_event) : Prop :=
  forall es1 s j es2,
    es = es1 ++ Fetched s j :: es2 -> last_at s es1 = Some (Deposited s j).

(** No overwrite: when a deposit writes a slot, the latest event of that
    slot is not a deposit. *)
Definition no_overwrite (es : list queue_event) : Prop :=
  forall es1 s j es2,
    es = es1 ++ Deposited s j :: es2 ->
    forall s' j', last_at s es1 <> Some (Deposited s' j').

(** Event [e] is the effect of call [c]. *)
Definition event_of_call (c : queue_call) (e : queue_event) : Prop :=
  match c, e with
  | Deposit j, Deposited _ j' => j = j'
  | Fetch, Fetched _ _ => True
  | _, _ => False
  end.

(** The queue holds [n] jobs and [es] is the history that led to it: the
    [n] slots from [head] on hold the job of their latest deposit, the
    other slots are vacant. *)
Record queue_holds (C : Z) (g : globals) (es : list queue_event) (n : Z) : Prop := {
  holds_ok : queue_ok C g;
  holds_count : 0 <= n <= C;
  holds_tail : tail (my_queue g) = (head (my_queue g) + n) mod C;
  holds_full : forall s, 0 <= s < C -> (s - head (my_queue g)) mod C < n ->
    exists j, last_at s es = Some (Deposited s j)
              /\ data (my_queue g) !! Z.to_nat s = Some j;
  holds_vacant : forall s, 0 <= s < C -> n <= (s - head (my_queue g)) mod C ->
    forall s' j, last_at s es <> Some (Deposited s' j)
}.

(** ** The world around the program

    [helper.h] is not among the sources; the constants it defines are
    parameters of the model. *)
Record helper_h : Type := mk_helper_h {
  SEM_KEY : Z;
  NO_ERROR : Z;
  INCORRECT_NUMBER_OF_ARGUMENTS : Z;
  NON_POSITIVE_INTEGER : Z
}.

(** Text written by [printf]. *)
Inductive message : Type :=
| ProducerTimeout (producer_id : Z)
| ProducerJob (producer_id id dur : Z)
| ProducerNoMoreJobs (producer_id : Z)
| ConsumerExecuting (consumer_id id dur : Z)
| ConsumerCompleted (consumer_id id : Z)
| ConsumerNoMoreJobs (consumer_id : Z).

(** What a worker thread does in one statement. *)
Inductive action : Type :=
| ALocal
| ARand (duration_produced : Z)
| ASleep (seconds : Z)
| ASemTimedWait (num seconds ret : Z)
| ASemWait (num : Z)
| ASemSignal (num : Z)
| ASetJobId (id : Z)
| ADeposit (j : job)
| AFetch (j : job)
| APrintf (m : message)
| APthreadExit.

(** What the process does, in order. *)
Inductive event : Type :=
| ESrand
| ECerr (text : string)
| ECerrArgument (number : Z)
| EPrintSemgetError (code : Z)
| EPrintSemctlError (code : Z)
| ESemget (key nsems ret : Z)
| ESemctlSetval (id num value ret : Z)
| ESemctlRmid (id ret : Z)
| ENewJobArray (n : Z)
| EDeleteJobArray
| EPthreadCreate (is_producer : bool) (id : Z)
| EPthreadJoin (is_producer : bool) (index : Z)
| EThread (tid : nat) (a : action).

(** The operating system decides which system calls fail and with which
    (positive) error number, what fresh storage contains, and whether the
    stack of [main] has room for its two arrays of thread handles, of the
    given lengths. *)
Record environment : Type := mk_environment {
  env_semget : N + positive;
  env_seminit : nat -> Z;
  env_setval : Z -> Z -> option positive;
  env_rmid : option positive;
  env_fresh : nat -> job;
  env_stack : Z -> Z -> bool
}.

Record world : Type := mk_world {
  vars : globals;
  errno : Z;
  semaphores : option (Z * list Z);
  trace : list event
}.

Definition EINVAL : Z := 22.

Definition world_at_startup : world :=
  mk_world globals_at_startup 0 None [].

(** Code that reads and writes the world. *)
Definition state (A : Type) : Type := world -> A * world.

#[global] Instance state_ret : MRet state := fun A x w => (x, w).

#[global] Instance state_bind : MBind state :=
  fun A B f m w => let '(x, w') := m w in f x w'.

Definition get_vars : state globals := fun w => (vars w, w).

Definition put_vars (g : globals) : state unit :=
  fun w => (tt, mk_world g (errno w) (semaphores w) (trace w)).

Definition get_errno : state Z := fun w => (errno w, w).

Definition put_errno (e : Z) : state unit :=
  fun w => (tt, mk_world (vars w) e (semaphores w) (trace w)).

Definition put_semaphores (s : option (Z * list Z)) : state unit :=
  fun w => (tt, mk_world (vars w) (errno w) s (trace w)).

Definition log (e : event) : state unit :=
  fun w => (tt, mk_world (vars w) (errno w) (semaphores w) (trace w ++ [e])).

(** The value of semaphore [num] of set [id], when there is one. *)
Definition sem_value (id num : Z) (w : world) : option Z :=
  match semaphores w with
  | Some (id', vs) => if id' =? id then array_get vs num else None
  | None => None
  end.

Definition sem_store (id num v : Z) (w : world) : option world :=
  match semaphores w with
  | Some (id', vs) =>
      if id' =? id
      then vs' ← array_set vs num v;
           Some (mk_world (vars w) (errno w) (Some (id', vs')) (trace w))
      else None
  | None => None
  end.

Section Program.
Variable hdr : helper_h.
Variable env : environment.

(** *** System calls *)

(** [semget(key, nsems, 0666 | IPC_CREAT | IPC_EXCL)] *)
Definition semget (key nsems : Z) : state Z :=
  match env_semget env with
  | inl id =>
      _ ← put_semaphores
            (Some (Z.of_N id, map (env_seminit env) (seq 0 (Z.to_nat nsems))));
      _ ← log (ESemget key nsems (Z.of_N id));
      mret (Z.of_N id)
  | inr e =>
      _ ← put_errno (Z.pos e);
      _ ← log (ESemget key nsems (-1));
      mret (-1)
  end.

Definition fail_with (e : Z) (ev : event) : state Z :=
  _ ← put_errno e; _ ← log ev; mret (-1).

(** [semctl(id, num, SETVAL, value)] *)
Definition semctl_setval (id num value : Z) : state Z :=
  fun w =>
    match env_setval env num value with
    | Some e => fail_with (Z.pos e) (ESemctlSetval id num value (-1)) w
    | None =>
        match sem_store id num value w with
        | Some w' => (_ ← log (ESemctlSetval id num value 0); mret 0) w'
        | None => fail_with EINVAL (ESemctlSetval id num value (-1)) w
        end
    end.

(** [semctl(id, 0, IPC_RMID, 0)] *)
Definition semctl_rmid (id : Z) : state Z :=
  fun w =>
    match env_rmid env with
    | Some e => fail_with (Z.pos e) (ESemctlRmid id (-1)) w
    | None =>
        match semaphores w with
        | Some (id', _) =>
            if id' =? id
            then (_ ← put_semaphores None; _ ← log (ESemctlRmid id 0); mret 0) w
            else fail_with EINVAL (ESemctlRmid id (-1)) w
        | None => fail_with EINVAL (ESemctlRmid id (-1)) w
        end
    end.

(** *** [helper.cc] *)

(** A [char] is signed. *)
Definition char_to_int (c : ascii) : Z :=
  let n := Z.of_nat (nat_of_ascii c) in
  if 127 <? n then n - 256 else n.

(** Conversion of a [double] holding the integer [v] to [int]; outside
    the range of [int] the conversion instruction yields [INT_MIN]. *)
Definition double_to_int (v : Z) : Z :=
  if (INT_MIN <=? v) && (v <=? INT_MAX) then v else INT_MIN.

(** [num += pow (10, k) * d]: the sum is formed in [double] and
    converted back.  Every intermediate value that fits an [int] is
    exact in a [double]; [pow (10, k)] is infinite from [k = 309] on and
    the sum is then infinite or not a number. *)
Definition add_digit (num : Z) (k : nat) (d : Z) : Z :=
  if (308 <? k)%nat then INT_MIN
  else double_to_int (num + 10 ^ Z.of_nat k * d).

(** The loop of [check_arg] over the characters from position [i] on;
    [length rest'] is [strlen (buffer) - i - 1]. *)
Fixpoint check_arg_loop (rest : list ascii) (num : Z) : Z :=
  match rest with
  | [] => num
  | c :: rest' =>
      let temp := 0 + char_to_int c in
      if (57 <? temp) || (temp <? 48) then -1
      else check_arg_loop rest' (add_digit num (length rest') (char_to_int c - 48))
  end.

Definition check_arg (buffer : string) : Z :=
  if (String.length buffer =? 0)%nat then -1
  else check_arg_loop (list_ascii_of_string buffer) 0.

Definition sem_create (key num : Z) : state Z :=
  id ← semget key num;
  if id <? 0 then mret (-1) else mret id.

Definition sem_init (id num value : Z) : state Z :=
  r ← semctl_setval id num value;
  if r <? 0 then mret (-1) else mret 0.

Definition sem_close (id : Z) : state Z :=
  r ← semctl_rmid id;
  if r <? 0 then mret (-1) else mret 0.

(** *** [main.cc]: start-up and shut-down *)

Definition arg (argv : list string) (i : nat) : string :=
  nth i argv EmptyString.

Definition setup_variables (argv : list string) : state unit :=
  g ← get_vars;
  put_vars (mk_globals (sem_id g)
              (check_arg (arg argv 3)) (check_arg (arg argv 4))
              (check_arg (arg argv 2)) (check_arg (arg argv 1))
              (my_queue g)).

Definition initialize_required_semaphores : state Z :=
  g ← get_vars;
  r ← sem_init (sem_id g) item 0;
  if negb (r =? 0) then
    _ ← log (ECerr "Error found in semaphore 'item' initialization due to: ");
    get_errno
  else
    r ← sem_init (sem_id g) space (buffer_size g);
    if negb (r =? 0) then
      _ ← log (ECerr "Error found in semaphore 'space' initialization due to: ");
      get_errno
    else
      r ← sem_init (sem_id g) mutex 1;
      if negb (r =? 0) then
        _ ← log (ECerr "Error found in semaphore 'mutex' initialization due to: ");
        get_errno
      else mret (NO_ERROR hdr).

(** The verification loop of [main] over [argv[i]], [argv[i+1]], ...:
    the index of the first argument that [check_arg] refuses. *)
Fixpoint first_refused (args : list string) (i : Z) : option Z :=
  match args with
  | [] => None
  | a :: args' =>
      if check_arg a =? -1 then Some i else first_refused args' (i + 1)
  end.

(** [pthread_create] for ids [1 .. n] *)
Fixpoint create_threads (is_producer : bool) (n : nat) (id : Z) : state unit :=
  match n with
  | O => mret tt
  | S n' =>
      _ ← log (EPthreadCreate is_producer (id + 1));
      create_threads is_producer n' (id + 1)
  end.

(** The arrays [pthread_t producer_td[number_of_producers]] and
    [pthread_t consumer_td[number_of_consumers]] on the stack of [main].
    When the stack has no room for them the process is killed at the
    declaration.  A negative length has no defined behaviour (for a
    length such as [INT_MIN] the process is killed as well): the run of
    [main] is followed no further than the declaration. *)
Definition thread_arrays_fit (producers consumers : Z) : bool :=
  negb (producers <? 0) && negb (consumers <? 0)
  && env_stack env producers consumers.

(** How [main] leaves its first part: it returns a status, it is
    terminated (its arrays of thread handles do not fit, or the
    allocation of the queue fails), or the workers are running. *)
Inductive startup : Type :=
| Returned (status : Z)
| Terminated
| Running.

(** [main] up to and including the creation of the threads. *)
Definition main_startup (argv : list string) : state startup :=
  let argc := Z.of_nat (length argv) in
  _ ← log ESrand;
  if negb (argc =? 5) then
    _ ← log (ECerr "Incorrect number of arguments!");
    mret (Returned (INCORRECT_NUMBER_OF_ARGUMENTS hdr))
  else
    match first_refused (drop 1 argv) 1 with
    | Some i =>
        _ ← log (ECerrArgument i);
        _ ← log (ECerr "Command line arguments are supposed to be positive integers");
        mret (Returned (NON_POSITIVE_INTEGER hdr))
    | None =>
        id ← sem_create (SEM_KEY hdr) 3;
        g ← get_vars;
        _ ← put_vars (set_sem_id g id);
        if id =? -1 then
          e ← get_errno;
          _ ← log (EPrintSemgetError e);
          e ← get_errno;
          mret (Returned e)
        else
          _ ← setup_variables argv;
          g ← get_vars;
          if negb (thread_arrays_fit (number_of_producers g)
                                     (number_of_consumers g))
          then mret Terminated
          else
            r ← initialize_required_semaphores;
            if negb (r =? NO_ERROR hdr) then
              e ← get_errno;
              _ ← log (EPrintSemctlError e);
              g ← get_vars;
              _ ← sem_close (sem_id g);
              e ← get_errno;
              mret (Returned e)
            else
              g ← get_vars;
              match initializeQueue (env_fresh env) g with
              | None => mret Terminated
              | Some g' =>
                  _ ← log (ENewJobArray (buffer_size g));
                  _ ← put_vars g';
                  _ ← create_threads true (Z.to_nat (number_of_producers g')) 0;
                  _ ← create_threads false (Z.to_nat (number_of_consumers g')) 0;
                  mret Running
              end
    end.

(** [main] once every thread has been joined. *)
Definition main_shutdown : state Z :=
  g ← get_vars;
  _ ← sem_close (sem_id g);
  _ ← log EDeleteJobArray;
  g ← get_vars;
  _ ← put_vars (set_my_queue g (mk_queue (head (my_queue g)) (tail (my_queue g))
                                        (array_size (my_queue g)) []));
  mret (NO_ERROR hdr).

End Program.

(** ** The worker threads

    A thread executes one statement at a time; between two statements
    of a thread any other thread may run. *)

Inductive outcome (A : Type) : Type :=
| Blocked
| Halted
| Fault
| Step (a : A).
Arguments Blocked {A}.
Arguments Halted {A}.
Arguments Fault {A}.
Arguments Step {A} a.

(** What the surroundings contribute to a statement: the value of
    [rand()], and whether a timed wait gives up. *)
Record input : Type := mk_input {
  in_rand : N;
  in_expired : bool
}.

(** [semop (id, {num, -1, SEM_UNDO}, 1)]: waits while the semaphore is 0.
    [sem_wait] ignores the result of [semop]. *)
Definition sem_wait (id num : Z) (w : world) : outcome world :=
  match sem_value id num w with
  | Some v =>
      if 0 <? v
      then match sem_store id num (v - 1) w with
           | Some w' => Step w'
           | None => Step w
           end
      else Blocked
  | None => Step w
  end.

(** [semop (id, {num, 1, SEM_UNDO}, 1)] *)
Definition sem_signal (id num : Z) (w : world) : outcome world :=
  match sem_value id num w with
  | Some v =>
      match sem_store id num (v + 1) w with
      | Some w' => Step w'
      | None => Step w
      end
  | None => Step w
  end.

(** [semtimedop]: as [sem_wait], but the call may give up and return -1. *)
Definition sem_timed_wait (id num time_delay : Z) (expired : bool) (w : world)
  : outcome (Z * world) :=
  if expired then Step (-1, w)
  else
    match sem_value id num w with
    | Some v =>
        if 0 <? v
        then match sem_store id num (v - 1) w with
             | Some w' => Step (0, w')
             | None => Step (-1, w)
             end
        else Blocked
    | None => Step (-1, w)
    end.

(** The statements of [producer], by the line that executes next. *)
Inductive producer_pc : Type :=
| PFor              (* for (...; i < jobs_per_producer; ...) *)
| PProduce          (* int duration = produce(1, 10); *)
| PSleep            (* sleep(produce(1, 5)); *)
| PTimedWait        (* timeout = sem_timed_wait (sem_id, space, 20); *)
| PIfTimeout        (* if (timeout) *)
| PPrintTimeout     (* printf(... terminated due to a timeout); break; *)
| PWaitMutex        (* sem_wait (sem_id, mutex); *)
| PSetJobId         (* temp_job.job_id = (my_queue.tail + 1); *)
| PSetDuration      (* temp_job.duration = duration; *)
| PDeposit          (* deposit_item(temp_job); *)
| PSignalMutex      (* sem_signal (sem_id, mutex); *)
| PSignalItem       (* sem_signal (sem_id, item); *)
| PPrintJob         (* printf(... Job ID ... duration ...); *)
| PIncrement        (* i++ *)
| PIfNotTimeout     (* if(!timeout) *)
| PPrintNoMore      (* printf(... No more jobs to generate); *)
| PExit             (* pthread_exit(0); *)
| PDone.

(** The local variables of [producer]. *)
Record producer_frame : Type := mk_producer {
  p_pc : producer_pc;
  p_id : Z;            (* producer_id *)
  p_timeout : bool;    (* timeout *)
  p_temp_job : job;    (* temp_job *)
  p_i : Z;             (* i *)
  p_duration : Z       (* duration *)
}.

Definition p_goto (pc : producer_pc) (p : producer_frame) : producer_frame :=
  mk_producer pc (p_id p) (p_timeout p) (p_temp_job p) (p_i p) (p_duration p).

Definition producer_start (id : Z) : producer_frame :=
  mk_producer PFor id false (mk_job 0 0) 0 0.

Definition producer_step (inp : input) (w : world) (p : producer_frame)
  : outcome (action * world * producer_frame) :=
  let g := vars w in
  match p_pc p with
  | PFor =>
      if p_i p <? jobs_per_producer g
      then Step (ALocal, w, p_goto PProduce p)
      else Step (ALocal, w, p_goto PIfNotTimeout p)
  | PProduce =>
      match produce 1 10 (Z.of_N (in_rand inp)) with
      | Some d =>
          Step (ARand d, w,
                mk_producer PSleep (p_id p) (p_timeout p) (p_temp_job p) (p_i p) d)
      | None => Fault
      end
  | PSleep =>
      match produce 1 5 (Z.of_N (in_rand inp)) with
      | Some d => Step (ASleep d, w, p_goto PTimedWait p)
      | None => Fault
      end
  | PTimedWait =>
      match sem_timed_wait (sem_id g) space 20 (in_expired inp) w with
      | Step (r, w') =>
          Step (ASemTimedWait space 20 r, w',
                mk_producer PIfTimeout (p_id p) (negb (r =? 0)) (p_temp_job p)
                            (p_i p) (p_duration p))
      | Blocked => Blocked
      | Halted => Halted
      | Fault => Fault
      end
  | PIfTimeout =>
      if p_timeout p
      then Step (ALocal, w, p_goto PPrintTimeout p)
      else Step (ALocal, w, p_goto PWaitMutex p)
  | PPrintTimeout =>
      Step (APrintf (ProducerTimeout (p_id p)), w, p_goto PIfNotTimeout p)
  | PWaitMutex =>
      match sem_wait (sem_id g) mutex w with
      | Step w' => Step (ASemWait mutex, w', p_goto PSetJobId p)
      | Blocked => Blocked
      | Halted => Halted
      | Fault => Fault
      end
  | PSetJobId =>
      let id := int_add (tail (my_queue g)) 1 in
      Step (ASetJobId id, w,
            mk_producer PSetDuration (p_id p) (p_timeout p)
                        (mk_job id (duration (p_temp_job p))) (p_i p) (p_duration p))
  | PSetDuration =>
      Step (ALocal, w,
            mk_producer PDeposit (p_id p) (p_timeout p)
                        (mk_job (job_id (p_temp_job p)) (p_duration p))
                        (p_i p) (p_duration p))
  | PDeposit =>
      match deposit_item (p_temp_job p) g with
      | Some g' =>
          Step (ADeposit (p_temp_job p),
                mk_world g' (errno w) (semaphores w) (trace w),
                p_goto PSignalMutex p)
      | None => Fault
      end
  | PSignalMutex =>
      match sem_signal (sem_id g) mutex w with
      | Step w' => Step (ASemSignal mutex, w', p_goto PSignalItem p)
      | Blocked => Blocked
      | Halted => Halted
      | Fault => Fault
      end
  | PSignalItem =>
      match sem_signal (sem_id g) item w with
      | Step w' => Step (ASemSignal item, w', p_goto PPrintJob p)
      | Blocked => Blocked
      | Halted => Halted
      | Fault => Fault
      end
  | PPrintJob =>
      Step (APrintf (ProducerJob (p_id p) (job_id (p_temp_job p))
                                 (duration (p_temp_job p))),
            w, p_goto PIncrement p)
  | PIncrement =>
      Step (ALocal, w,
            mk_producer PFor (p_id p) (p_timeout p) (p_temp_job p)
                        (int_add (p_i p) 1) (p_duration p))
  | PIfNotTimeout =>
      if negb (p_timeout p)
      then Step (ALocal, w, p_goto PPrintNoMore p)
      else Step (ALocal, w, p_goto PExit p)
  | PPrintNoMore =>
      Step (APrintf (ProducerNoMoreJobs (p_id p)), w, p_goto PExit p)
  | PExit => Step (APthreadExit, w, p_goto PDone p)
  | PDone => Halted
  end.

(** The statements of [consumer]. *)
Inductive consumer_pc : Type :=
| CWhile            (* while(sem_timed_wait (sem_id, item, 20) == 0) *)
| CWaitMutex        (* sem_wait (sem_id, mutex); *)
| CFetch            (* temp_job = fetch_item(); *)
| CSignalMutex      (* sem_signal (sem_id, mutex); *)
| CSignalSpace      (* sem_signal (sem_id, space); *)
| CPrintExecuting   (* printf(... executing sleep duration ...); *)
| CSleep            (* sleep(temp_job.duration); *)
| CPrintCompleted   (* printf(... completed); *)
| CPrintNoMore      (* printf(... No more jobs left); *)
| CExit             (* pthread_exit (0); *)
| CDone.

Record consumer_frame : Type := mk_consumer {
  c_pc : consumer_pc;
  c_id : Z;            (* consumer_id *)
  c_temp_job : job     (* temp_job *)
}.

Definition c_goto (pc : consumer_pc) (c : consumer_frame) : consumer_frame :=
  mk_consumer pc (c_id c) (c_temp_job c).

Definition consumer_start (id : Z) : consumer_frame :=
  mk_consumer CWhile id (mk_job 0 0).

Definition consumer_step (inp : input) (w : world) (c : consumer_frame)
  : outcome (action * world * consumer_frame) :=
  let g := vars w in
  match c_pc c with
  | CWhile =>
      match sem_timed_wait (sem_id g) item 20 (in_expired inp) w with
      | Step (r, w') =>
          Step (ASemTimedWait item 20 r, w',
                if r =? 0 then c_goto CWaitMutex c else c_goto CPrintNoMore c)
      | Blocked => Blocked
      | Halted => Halted
      | Fault => Fault
      end
  | CWaitMutex =>
      match sem_wait (sem_id g) mutex w with
      | Step w' => Step (ASemWait mutex, w', c_goto CFetch c)
      | Blocked => Blocked
      | Halted => Halted
      | Fault => Fault
      end
  | CFetch =>
      match fetch_item g with
      | Some (j, g') =>
          Step (AFetch j, mk_world g' (errno w) (semaphores w) (trace w),
                mk_consumer CSignalMutex (c_id c) j)
      | None => Fault
      end
  | CSignalMutex =>
      match sem_signal (sem_id g) mutex w with
      | Step w' => Step (ASemSignal mutex, w', c_goto CSignalSpace c)
      | Blocked => Blocked
      | Halted => Halted
      | Fault => Fault
      end
  | CSignalSpace =>
      match sem_signal (sem_id g) space w with
      | Step w' => Step (ASemSignal space, w', c_goto CPrintExecuting c)
      | Blocked => Blocked
      | Halted => Halted
      | Fault => Fault
      end
  | CPrintExecuting =>
      Step (APrintf (ConsumerExecuting (c_id c) (job_id (c_temp_job c))
                                       (duration (c_temp_job c))),
            w, c_goto CSleep c)
  | CSleep => Step (ASleep (duration (c_temp_job c)), w, c_goto CPrintCompleted c)
  | CPrintCompleted =>
      Step (APrintf (ConsumerCompleted (c_id c) (job_id (c_temp_job c))),
            w, c_goto CWhile c)
  | CPrintNoMore =>
      Step (APrintf (ConsumerNoMoreJobs (c_id c)), w, c_goto CExit c)
  | CExit => Step (APthreadExit, w, c_goto CDone c)
  | CDone => Halted
  end.

(** ** The process: the shared world and its threads *)

Inductive thread : Type :=
| Producer (p : producer_frame)
| Consumer (c : consumer_frame).

Record system : Type := mk_system {
  shared : world;
  threads : list thread
}.

Definition thread_step (inp : input) (w : world) (th : thread)
  : outcome (action * world * thread) :=
  match th with
  | Producer p =>
      match producer_step inp w p with
      | Step (a, w', p') => Step (a, w', Producer p')
      | Blocked => Blocked
      | Halted => Halted
      | Fault => Fault
      end
  | Consumer c =>
      match consumer_step inp w c with
      | Step (a, w', c') => Step (a, w', Consumer c')
      | Blocked => Blocked
      | Halted => Halted
      | Fault => Fault
      end
  end.

(** Thread [tid] executes its next statement. *)
Inductive step (s : system) : nat -> action -> system -> Prop :=
| step_thread tid th inp a w' th' :
    threads s !! tid = Some th ->
    thread_step inp (shared s) th = Step (a, w', th') ->
    step s tid a
         (mk_system (snd (log (EThread tid a) w')) (<[tid := th']> (threads s))).

Inductive reachable (s0 : system) : system -> Prop :=
| reachable_start : reachable s0 s0
| reachable_step s tid a s' :
    reachable s0 s -> step s tid a s' -> reachable s0 s'.

(** The threads [main] creates: producers [1 .. number_of_producers],
    then consumers [1 .. number_of_consumers]. *)
Definition threads_of_main (g : globals) : list thread :=
  map (fun k => Producer (producer_start (Z.of_nat k + 1)))
      (seq 0 (Z.to_nat (number_of_producers g)))
  ++ map (fun k => Consumer (consumer_start (Z.of_nat k + 1)))
         (seq 0 (Z.to_nat (number_of_consumers g))).

(** The statements thread [tid] has executed so far. *)
Fixpoint actions_of (tid : nat) (es : list event) : list action :=
  match es with
  | [] => []
  | EThread t a :: es' =>
      if (t =? tid)%nat then a :: actions_of tid es' else actions_of tid es'
  | _ :: es' => actions_of tid es'
  end.

(** The characters [check_arg] lets through: ['0'] to ['9']. *)
Definition is_digit (c : ascii) : bool :=
  negb ((57 <? 0 + char_to_int c) || (0 + char_to_int c <? 48)).

(** The error number of the first of the three [semctl (SETVAL)] calls
    of [initialize_required_semaphores] that the system lets fail. *)
Definition first_setval_failure (env : environment) (capacity : Z) : option positive :=
  match env_setval env item 0 with
  | Some e => Some e
  | None =>
      match env_setval env space capacity with
      | Some e => Some e
      | None => env_setval env mutex 1
      end
  end.

(** The process as [main] leaves it when the threads have been created. *)
Definition system_of_main (w0 : world) : system :=
  mk_system w0 (threads_of_main (vars w0)).

(** A thread is in its critical section from the return of
    [sem_wait (sem_id, mutex)] to its [sem_signal (sem_id, mutex)]. *)
Definition in_critical_section (th : thread) : bool :=
  match th with
  | Producer p =>
      match p_pc p with
      | PSetJobId | PSetDuration | PDeposit | PSignalMutex => true
      | _ => false
      end
  | Consumer c =>
      match c_pc c with
      | CFetch | CSignalMutex => true
      | _ => false
      end
  end.

Definition holds_mutex (th : thread) : Z :=
  if in_critical_section th then 1 else 0.

(** The number of threads in their critical section. *)
Fixpoint holders (ths : list thread) : Z :=
  match ths with
  | [] => 0
  | th :: ths' => holds_mutex th + holders ths'
  end.

(** The number of [deposit_item] calls among the actions of a thread. *)
Fixpoint deposits_in (T : list action) : Z :=
  match T with
  | [] => 0
  | ADeposit _ :: T' => 1 + deposits_in T'
  | _ :: T' => deposits_in T'
  end.

(** A timed wait on [space] of the thread gave up. *)
Definition timed_out (T : list action) : Prop :=
  exists r, r <> 0 /\ In (ASemTimedWait space 20 r) T.

(** What a producer does after a successful timed wait on [space], up
    to the signal on [item]: the test of [timeout], the wait on the
    mutex, the job id, the duration, the deposit, the two signals. *)
Definition critical_sequence (id d : Z) : list action :=
  [ALocal; ASemWait mutex; ASetJobId id; ALocal; ADeposit (mk_job id d);
   ASemSignal mutex; ASemSignal item].

(** What a producer does after a timed wait that gave up: the test of
    [timeout], the message and [break], the test after the loop, the
    exit. *)
Definition timeout_sequence (producer_id : Z) : list action :=
  [ALocal; APrintf (ProducerTimeout producer_id); ALocal; APthreadExit].

(** The invariant of the running process: the queue is intact, the
    semaphore set is the one of [sem_id], the mutex semaphore counts the
    threads outside critical sections, and a producer about to deposit
    holds the id of the current [tail]. *)
Record system_ok (C J id : Z) (s : system) : Prop := {
  sys_queue : queue_ok C (vars (shared s));
  sys_jobs : jobs_per_producer (vars (shared s)) = J;
  sys_sem_id : sem_id (vars (shared s)) = id;
  sys_sems : exists vi vs vm,
    semaphores (shared s) = Some (id, [vi; vs; vm])
    /\ 0 <= vm /\ vm + holders (threads s) = 1;
  sys_job_id : forall tid p,
    threads s !! tid = Some (Producer p) ->
    p_pc p = PSetDuration \/ p_pc p = PDeposit ->
    job_id (p_temp_job p) = tail (my_queue (vars (shared s))) + 1
}.

(** ** What a producer has done, by the statement it is at

    [clean producer_id T]: so far no timed wait gave up and the
    exhaustion message has not been printed. *)
Definition clean (producer_id : Z) (T : list action) : Prop :=
  ~ timed_out T /\ ~ In (APrintf (ProducerNoMoreJobs producer_id)) T.

(** In the loop, or past it without a time-out: [extra] is 1 between
    the deposit and [i++]. *)
Definition running_at (J : Z) (pc : producer_pc) (i extra : Z) : Prop :=
  match pc with
  | PFor => extra = 0 /\ i <= Z.max 0 J
  | PProduce | PSleep | PTimedWait | PIfTimeout | PWaitMutex | PSetJobId
  | PSetDuration | PDeposit => extra = 0 /\ i < J
  | PSignalMutex | PSignalItem | PPrintJob | PIncrement => extra = 1 /\ i < J
  | PIfNotTimeout | PPrintNoMore => extra = 0 /\ i = Z.max 0 J
  | _ => False
  end.

(** After a timed wait that gave up: [k] statements later. *)
Definition gave_up_at (pc : producer_pc) (k : nat) : Prop :=
  match pc with
  | PIfTimeout => k = 0%nat
  | PPrintTimeout => k = 1%nat
  | PIfNotTimeout => k = 2%nat
  | PExit => k = 3%nat
  | PDone => k = 4%nat
  | _ => False
  end.

(** After the exhaustion message. *)
Definition finished_at (pc : producer_pc) (k : nat) : Prop :=
  match pc with
  | PExit => k = 1%nat
  | PDone => k = 2%nat
  | _ => False
  end.

Inductive producer_progress (J : Z) (p : producer_frame) (T : list action) : Prop :=
| progress_running extra :
    p_timeout p = false ->
    clean (p_id p) T ->
    deposits_in T = p_i p + extra ->
    0 <= p_i p ->
    running_at J (p_pc p) (p_i p) extra ->
    producer_progress J p T
| progress_gave_up k T0 r :
    p_timeout p = true ->
    r <> 0 ->
    clean (p_id p) T0 ->
    T = T0 ++ ASemTimedWait space 20 r :: take k (timeout_sequence (p_id p)) ->
    gave_up_at (p_pc p) k ->
    producer_progress J p T
| progress_finished k T0 :
    p_timeout p = false ->
    clean (p_id p) T0 ->
    deposits_in T0 = Z.max 0 J ->
    T = T0 ++ take k [APrintf (ProducerNoMoreJobs (p_id p)); APthreadExit] ->
    finished_at (p_pc p) k ->
    producer_progress J p T.




(** ** Running a schedule

    The step relation as a function: thread [tid] runs its next statement
    with input [inp], when it can. *)
Definition step_system (tid : nat) (inp : input) (s : system)
  : option (action * system) :=
  th ← threads s !! tid;
  match thread_step inp (shared s) th with
  | Step (a, w', th') =>
      Some (a, mk_system (snd (log (EThread tid a) w')) (<[tid := th']> (threads s)))
  | _ => None
  end.

Fixpoint run_schedule (sched : list (nat * input)) (s : system) : option system :=
  match sched with
  | [] => Some s
  | (tid, inp) :: sched' =>
      '(_, s') ← step_system tid inp s;
      run_schedule sched' s'
  end.

(** A run of one producer and one consumer on a buffer of two slots. *)
Definition example_hdr : helper_h := mk_helper_h 1234 0 1 2.

Definition example_env : environment :=
  mk_environment (inl 7%N) (fun _ => 0) (fun _ _ => None) None
                 (fun _ => mk_job 0 0) (fun _ _ => true).

Definition example_argv : list string := ["main"; "2"; "3"; "1"; "1"]%string.

Definition example_world : world :=
  Eval vm_compute in snd (main_startup example_hdr example_env example_argv world_at_startup).

Definition go : input := mk_input 12 false.
Definition let_expire : input := mk_input 12 true.

(** The producer (thread 0) runs for, produce, sleep, timed wait, if,
    wait on the mutex: its next statement computes the job id. *)
Definition schedule_to_job_id : list (nat * input) :=
  [(0, go); (0, go); (0, go); (0, go); (0, go); (0, go)]%nat.

Definition example_at_job_id : system :=
  Eval vm_compute in
    default (system_of_main example_world)
            (run_schedule schedule_to_job_id (system_of_main example_world)).

Definition example_at_deposit : system :=
  Eval vm_compute in
    default example_at_job_id
            (run_schedule [(0, go); (0, go)]%nat example_at_job_id).

Definition example_after_deposit : system :=
  Eval vm_compute in
    default example_at_deposit (run_schedule [(0, go)]%nat example_at_deposit).

(** The producer gives up on its first timed wait and runs to its end. *)
Definition example_gave_up : system :=
  Eval vm_compute in
    default (system_of_main example_world)
            (run_schedule
               [(0, go); (0, go); (0, go); (0, let_expire); (0, go); (0, go);
                (0, go); (0, go)]%nat
               (system_of_main example_world)).

(** ** The queue as a first-in first-out store *)

(** The jobs given to the deposits of a call sequence, in order. *)
Fixpoint deposited_jobs (cs : list queue_call) : list job :=
  match cs with
  | [] => []
  | Deposit j :: cs' => j :: deposited_jobs cs'
  | Fetch :: cs' => deposited_jobs cs'
  end.

(** The jobs the fetches of a run returned, in order. *)
Fixpoint fetched_jobs (es : list queue_event) : list job :=
  match es with
  | [] => []
  | Deposited _ _ :: es' => fetched_jobs es'
  | Fetched _ j :: es' => j :: fetched_jobs es'
  end.

(** The queue holds the jobs [pending], oldest first, in the slots from
    [head] on, and [tail] is the slot after the last of them. *)
Record holds_jobs (C : Z) (g : globals) (pending : list job) : Prop := {
  hj_ok : queue_ok C g;
  hj_count : Z.of_nat (length pending) <= C;
  hj_tail :
    tail (my_queue g) = (head (my_queue g) + Z.of_nat (length pending)) mod C;
  hj_slots : forall (k : nat) j,
    pending !! k = Some j ->
    data (my_queue g) !! Z.to_nat ((head (my_queue g) + Z.of_nat k) mod C) = Some j
}.

(** ** Decimal numerals *)

(** The number a string of decimal digits denotes, most significant digit
    first. *)
Definition decimal_value_from (n : Z) (digits : list ascii) : Z :=
  fold_left (fun n c => 10 * n + (char_to_int c - 48)) digits n.

Definition decimal_value (buffer : string) : Z :=
  decimal_value_from 0 (list_ascii_of_string buffer).

(** A command-line argument that [check_arg] reads exactly: a non-empty
    string of at most 309 decimal digits whose value fits an [int]. *)
Definition numeral (a : string) : Prop :=
  a <> EmptyString
  /\ Forall (fun c => is_digit c = true) (list_ascii_of_string a)
  /\ (String.length a <= 309)%nat
  /\ decimal_value a <= INT_MAX.

(** ** Counting the semaphores of the running process *)

(** A producer has taken a unit of [space] and not yet deposited. *)
Definition reserved_space (th : thread) : Z :=
  match th with
  | Producer p =>
      match p_pc p with
      | PIfTimeout => if p_timeout p then 0 else 1
      | PWaitMutex | PSetJobId | PSetDuration | PDeposit => 1
      | _ => 0
      end
  | Consumer _ => 0
  end.

(** A producer has deposited and not yet signalled [item]. *)
Definition unsignalled_item (th : thread) : Z :=
  match th with
  | Producer p =>
      match p_pc p with
      | PSignalMutex | PSignalItem => 1
      | _ => 0
      end
  | Consumer _ => 0
  end.

(** A consumer has taken a unit of [item] and not yet fetched. *)
Definition reserved_item (th : thread) : Z :=
  match th with
  | Producer _ => 0
  | Consumer c =>
      match c_pc c with
      | CWaitMutex | CFetch => 1
      | _ => 0
      end
  end.

(** A consumer has fetched and not yet signalled [space]. *)
Definition unsignalled_space (th : thread) : Z :=
  match th with
  | Producer _ => 0
  | Consumer c =>
      match c_pc c with
      | CSignalMutex | CSignalSpace => 1
      | _ => 0
      end
  end.

Fixpoint total (f : thread -> Z) (ths : list thread) : Z :=
  match ths with
  | [] => 0
  | th :: ths' => f th + total f ths'
  end.

(** The jobs deposited, and the jobs fetched, by the threads of the
    process so far, in the order of the steps. *)
Fixpoint deposits_of (es : list event) : list job :=
  match es with
  | [] => []
  | EThread _ (ADeposit j) :: es' => j :: deposits_of es'
  | _ :: es' => deposits_of es'
  end.

Fixpoint fetches_of (es : list event) : list job :=
  match es with
  | [] => []
  | EThread _ (AFetch j) :: es' => j :: fetches_of es'
  | _ :: es' => fetches_of es'
  end.

(** The accounting of the running process: the queue holds [pending],
    the jobs deposited and not yet fetched; [item] counts the jobs in the
    queue that no consumer has claimed and whose producer has signalled;
    [space] counts the free slots that no producer has claimed and whose
    consumer has signalled. *)
Record system_counts (C id : Z) (s : system) (pending : list job) : Prop := {
  cnt_holds : holds_jobs C (vars (shared s)) pending;
  cnt_sems : exists vi vs vm,
    semaphores (shared s) = Some (id, [vi; vs; vm])
    /\ 0 <= vi /\ 0 <= vs
    /\ vi + total reserved_item (threads s) + total unsignalled_item (threads s)
       = Z.of_nat (length pending)
    /\ vs + total reserved_space (threads s) + total unsignalled_space (threads s)
       + Z.of_nat (length pending) = C;
  cnt_fifo :
    deposits_of (trace (shared s)) = fetches_of (trace (shared s)) ++ pending
}.

(** A thread that has returned from [pthread_exit]. *)
Definition finished (th : thread) : bool :=
  match th with
  | Producer p => match p_pc p with PDone => true | _ => false end
  | Consumer c => match c_pc c with CDone => true | _ => false end
  end.

(** The example run continued: the producer signals [mutex] and [item],
    then the consumer (thread 1) waits for the item and for the mutex;
    its next statement fetches. *)
Definition example_at_fetch : system :=
  Eval vm_compute in
    default example_after_deposit
            (run_schedule [(0, go); (0, go); (1, go); (1, go)]%nat
                          example_after_deposit).

Definition example_after_fetch : system :=
  Eval vm_compute in
    default example_at_fetch (run_schedule [(1, go)]%nat example_at_fetch).

(** ** A buffer without slots

    Where a thread can be when no timed wait has succeeded. *)
Definition outside_the_queue (th : thread) : bool :=
  match th with
  | Producer p =>
      match p_pc p with
      | PFor | PProduce | PSleep | PTimedWait | PPrintTimeout | PIfNotTimeout
      | PPrintNoMore | PExit | PDone => true
      | PIfTimeout => p_timeout p
      | _ => false
      end
  | Consumer c =>
      match c_pc c with
      | CWhile | CPrintNoMore | CExit | CDone => true
      | _ => false
      end
  end.

(** The process with a buffer of 0 slots: [item] and [space] stay 0, the
    mutex stays free, and no timed wait has returned 0. *)
Record system_empty (id : Z) (s : system) : Prop := {
  emp_sem_id : sem_id (vars (shared s)) = id;
  emp_sems : semaphores (shared s) = Some (id, [0; 0; 1]);
  emp_threads : forall tid th,
    threads s !! tid = Some th -> outside_the_queue th = true;
  emp_waits : forall tid num seconds,
    ~ In (EThread tid (ASemTimedWait num seconds 0)) (trace (shared s));
  emp_deposits : deposits_of (trace (shared s)) = [];
  emp_fetches : fetches_of (trace (shared s)) = []
}.

(** The example with a buffer size of 0: the producer gets as far as its
    timed wait, which gives up. *)
Definition example_argv_zero : list string := ["main"; "0"; "3"; "1"; "1"]%string.

Definition example_world_zero : world :=
  Eval vm_compute in
    snd (main_startup example_hdr example_env example_argv_zero world_at_startup).

Definition example_zero_gave_up : system :=
  Eval vm_compute in
    default (system_of_main example_world_zero)
            (run_schedule [(0, go); (0, go); (0, go); (0, let_expire); (0, go)]%nat
                          (system_of_main example_world_zero)).

(** ** The jobs in flight

    A job as a producer makes it: an id in [[1, C]] and a duration in
    [[1, 10]]. *)
Definition job_ok (C : Z) (j : job) : Prop :=
  1 <= job_id j <= C /\ 1 <= duration j <= 10.

(** The duration a producer carries from [produce] to [deposit_item]. *)
Definition producer_durations (p : producer_frame) : Prop :=
  match p_pc p with
  | PSleep | PTimedWait | PIfTimeout | PWaitMutex | PSetJobId | PSetDuration =>
      1 <= p_duration p <= 10
  | PDeposit => 1 <= duration (p_temp_job p) <= 10
  | _ => True
  end.

(** The job a consumer holds from [fetch_item] to the end of its turn. *)
Definition consumer_durations (C : Z) (c : consumer_frame) : Prop :=
  match c_pc c with
  | CSignalMutex | CSignalSpace | CPrintExecuting | CSleep | CPrintCompleted =>
      job_ok C (c_temp_job c)
  | _ => True
  end.

Record system_durations (C : Z) (s : system) : Prop := {
  dur_producers : forall tid p,
    threads s !! tid = Some (Producer p) -> producer_durations p;
  dur_consumers : forall tid c,
    threads s !! tid = Some (Consumer c) -> consumer_durations C c;
  dur_deposits : Forall (job_ok C) (deposits_of (trace (shared s)));
  dur_sleeps : forall tid d,
    In (EThread tid (ASleep d)) (trace (shared s)) -> 1 <= d <= 10;
  dur_messages : forall tid cid id d,
    In (EThread tid (APrintf (ConsumerExecuting cid id d))) (trace (shared s)) ->
    1 <= id <= C /\ 1 <= d <= 10
}.

(** ** What a consumer has done, by the statement it is at

    One turn of the loop of [consumer], after the timed wait on [item]
    has returned 0: the wait on the mutex, [fetch_item], the two signals,
    the announcement, the sleep for the duration of the job, the second
    message. *)
Definition consumer_turn (consumer_id : Z) (j : job) : list action :=
  [ASemWait mutex; AFetch j; ASemSignal mutex; ASemSignal space;
   APrintf (ConsumerExecuting consumer_id (job_id j) (duration j));
   ASleep (duration j);
   APrintf (ConsumerCompleted consumer_id (job_id j))].

(** What a consumer does after a timed wait that gave up. *)
Definition consumer_exit_sequence (consumer_id : Z) : list action :=
  [APrintf (ConsumerNoMoreJobs consumer_id); APthreadExit].

(** Where a consumer stands [k] statements into a turn that fetches [j]. *)
Definition turn_at (c : consumer_frame) (k : nat) (j : job) : Prop :=
  match k with
  | 0%nat => c_pc c = CWaitMutex
  | 1%nat => c_pc c = CFetch
  | 2%nat => c_pc c = CSignalMutex /\ c_temp_job c = j
  | 3%nat => c_pc c = CSignalSpace /\ c_temp_job c = j
  | 4%nat => c_pc c = CPrintExecuting /\ c_temp_job c = j
  | 5%nat => c_pc c = CSleep /\ c_temp_job c = j
  | 6%nat => c_pc c = CPrintCompleted /\ c_temp_job c = j
  | _ => False
  end.

Definition consumer_order (c : consumer_frame) (T : list action) : Prop :=
  forall T1 T2,
    T = T1 ++ ASemTimedWait item 20 0 :: T2 ->
    exists j,
      consumer_turn (c_id c) j `prefix_of` T2
      \/ exists k, turn_at c k j /\ T2 = take k (consumer_turn (c_id c) j).

(** In the loop. *)
Definition serving (pc : consumer_pc) : bool :=
  match pc with
  | CPrintNoMore | CExit | CDone => false
  | _ => true
  end.

(** After the loop: [k] statements after the timed wait that gave up. *)
Definition leaving_at (pc : consumer_pc) (k : nat) : Prop :=
  match pc with
  | CPrintNoMore => k = 0%nat
  | CExit => k = 1%nat
  | CDone => k = 2%nat
  | _ => False
  end.

Inductive consumer_progress (c : consumer_frame) (T : list action) : Prop :=
| consumer_serving :
    (forall r, In (ASemTimedWait item 20 r) T -> r = 0) ->
    ~ In (APrintf (ConsumerNoMoreJobs (c_id c))) T ->
    serving (c_pc c) = true ->
    consumer_progress c T
| consumer_leaving k T0 r :
    r <> 0 ->
    (forall r0, In (ASemTimedWait item 20 r0) T0 -> r0 = 0) ->
    ~ In (APrintf (ConsumerNoMoreJobs (c_id c))) T0 ->
    T = T0 ++ ASemTimedWait item 20 r :: take k (consumer_exit_sequence (c_id c)) ->
    leaving_at (c_pc c) k ->
    consumer_progress c T.

(** The example run continued until the consumer has finished its turn
    and, no second job being there, has given up and left. *)
Definition example_consumer_done : system :=
  Eval vm_compute in
    default example_after_fetch
            (run_schedule
               [(1, go); (1, go); (1, go); (1, go); (1, go); (1, let_expire);
                (1, go); (1, go)]%nat
               example_after_fetch).

(** ** One iteration of the loop of a producer

    What a producer does in an iteration after [produce (1, 10)] has
    returned [d], when the timed wait on [space] returns 0: the sleep,
    the timed wait, the critical sequence, the message with the id and
    the duration of the job, [i++]. *)
Definition producer_iteration (producer_id s id d : Z) : list action :=
  [ASleep s; ASemTimedWait space 20 0] ++ critical_sequence id d
  ++ [APrintf (ProducerJob producer_id id d); ALocal].

(** Where a producer stands [k] statements after [produce (1, 10)]. *)
Definition iteration_at (p : producer_frame) (k : nat) (id d : Z) : Prop :=
  match k with
  | 0%nat => p_pc p = PSleep /\ p_duration p = d
  | 1%nat => p_pc p = PTimedWait /\ p_duration p = d
  | 2%nat => p_pc p = PIfTimeout /\ p_timeout p = false /\ p_duration p = d
  | 3%nat => p_pc p = PWaitMutex /\ p_duration p = d
  | 4%nat => p_pc p = PSetJobId /\ p_duration p = d
  | 5%nat => p_pc p = PSetDuration /\ job_id (p_temp_job p) = id /\ p_duration p = d
  | 6%nat => p_pc p = PDeposit /\ p_temp_job p = mk_job id d
  | 7%nat => p_pc p = PSignalMutex /\ p_temp_job p = mk_job id d
  | 8%nat => p_pc p = PSignalItem /\ p_temp_job p = mk_job id d
  | 9%nat => p_pc p = PPrintJob /\ p_temp_job p = mk_job id d
  | 10%nat => p_pc p = PIncrement
  | _ => False
  end.

Definition producer_iterations (p : producer_frame) (T : list action) : Prop :=
  forall T1 d T2,
    T = T1 ++ ARand d :: T2 ->
    1 <= d <= 10
    /\ exists s id,
         1 <= s <= 5
         /\ (producer_iteration (p_id p) s id d `prefix_of` T2
             \/ (exists r T3,
                   r <> 0 /\ T2 = ASleep s :: ASemTimedWait space 20 r :: T3)
             \/ exists k, iteration_at p k id d
                          /\ T2 = take k (producer_iteration (p_id p) s id d)).

(** The example run continued to the end of the first iteration of the
    producer. *)
Definition example_iteration_done : system :=
  Eval vm_compute in
    default example_after_deposit
            (run_schedule [(0, go); (0, go); (0, go); (0, go)]%nat
                          example_after_deposit).

(** ** Counting the deposits

    Between [deposit_item] and [i++] a producer has deposited once more
    than [i] says. *)
Definition after_deposit (pc : producer_pc) : Z :=
  match pc with
  | PSignalMutex | PSignalItem | PPrintJob | PIncrement => 1
  | _ => 0
  end.

(** The statements of the loop body, reached when [i < jobs_per_producer]. *)
Definition in_iteration (pc : producer_pc) : bool :=
  match pc with
  | PProduce | PSleep | PTimedWait | PIfTimeout | PWaitMutex | PSetJobId
  | PSetDuration | PDeposit | PSignalMutex | PSignalItem | PPrintJob
  | PIncrement => true
  | _ => false
  end.

Definition producer_count (J : Z) (p : producer_frame) (T : list action) : Prop :=
  0 <= p_i p
  /\ deposits_in T = p_i p + after_deposit (p_pc p)
  /\ (in_iteration (p_pc p) = true -> p_i p < J)
  /\ p_i p <= Z.max 0 J.

(** The number of jobs a thread has deposited. *)
Definition produced (th : thread) : Z :=
  match th with
  | Producer p => p_i p + after_deposit (p_pc p)
  | Consumer _ => 0
  end.

Definition is_producer (th : thread) : Z :=
  match th with
  | Producer _ => 1
  | Consumer _ => 0
  end.

(** ** How long the process can run

    An upper bound on the statements a producer has left, counting 8
    more for each signal on [item] it has yet to give: a turn of a
    consumer has 8 statements.  An iteration of the loop has 13
    statements. *)
Definition producer_potential (J : Z) (p : producer_frame) : Z :=
  let rest := (J - p_i p - 1) * 21 + 4 in
  match p_pc p with
  | PFor => Z.max 0 (J - p_i p) * 21 + 4
  | PProduce => rest + 20
  | PSleep => rest + 19
  | PTimedWait => rest + 18
  | PIfTimeout => if p_timeout p then 5 else rest + 17
  | PWaitMutex => rest + 16
  | PSetJobId => rest + 15
  | PSetDuration => rest + 14
  | PDeposit => rest + 13
  | PSignalMutex => rest + 12
  | PSignalItem => rest + 11
  | PPrintJob => rest + 2
  | PIncrement => rest + 1
  | PPrintTimeout => 4
  | PIfNotTimeout => 3
  | PPrintNoMore => 2
  | PExit => 1
  | PDone => 0
  end.

(** The statements a consumer has left when its next timed wait gives up. *)
Definition consumer_potential (c : consumer_frame) : Z :=
  match c_pc c with
  | CWhile => 3
  | CWaitMutex => 10
  | CFetch => 9
  | CSignalMutex => 8
  | CSignalSpace => 7
  | CPrintExecuting => 6
  | CSleep => 5
  | CPrintCompleted => 4
  | CPrintNoMore => 2
  | CExit => 1
  | CDone => 0
  end.

Definition thread_potential (J : Z) (th : thread) : Z :=
  match th with
  | Producer p => producer_potential J p
  | Consumer c => consumer_potential c
  end.

(** The value of the first semaphore of the set, [item]. *)
Definition item_value (w : world) : Z :=
  match semaphores w with
  | Some (_, vi :: _) => vi
  | _ => 0
  end.

Definition potential (J : Z) (s : system) : Z :=
  total (thread_potential J) (threads s) + 8 * item_value (shared s).

(** The number of statements the threads have executed. *)
Fixpoint steps_of (es : list event) : Z :=
  match es with
  | [] => 0
  | EThread _ _ :: es' => 1 + steps_of es'
  | _ :: es' => steps_of es'
  end.

(** The example run to its end: the producer prints its message, starts
    its second iteration, gives up on the timed wait and leaves. *)
Definition example_all_done : system :=
  Eval vm_compute in
    default example_consumer_done
            (run_schedule
               [(0, go); (0, go); (0, go); (0, go); (0, go); (0, let_expire);
                (0, go); (0, go); (0, go); (0, go)]%nat
               example_consumer_done).

(** ** The ids of the jobs in the queue

    Every job in the queue carries the number of its slot plus one. *)
Definition slots_numbered (C : Z) (g : globals) (pending : list job) : Prop :=
  forall (k : nat) j,
    pending !! k = Some j ->
    job_id j = (head (my_queue g) + Z.of_nat k) mod C + 1.

(** ** Who is who

    The role of a thread and the id [main] gave it. *)
Definition identity (th : thread) : bool * Z :=
  match th with
  | Producer p => (true, p_id p)
  | Consumer c => (false, c_id c)
  end.

(** The thread a printed line names. *)
Definition message_from (m : message) : bool * Z :=
  match m with
  | ProducerTimeout i | ProducerJob i _ _ | ProducerNoMoreJobs i => (true, i)
  | ConsumerExecuting i _ _ | ConsumerCompleted i _ | ConsumerNoMoreJobs i =>
      (false, i)
  end.

(** A run in which the producer exhausts its jobs: one job per producer;
    the producer (thread 0) runs its only iteration, leaves the loop,
    prints that no jobs are left to generate and exits. *)
Definition example_argv_one : list string := ["main"; "2"; "1"; "1"; "1"]%string.

Definition example_world_one : world :=
  Eval vm_compute in
    snd (main_startup example_hdr example_env example_argv_one world_at_startup).

Definition schedule_exhausted : list (nat * input) :=
  [(0, go); (0, go); (0, go); (0, go); (0, go); (0, go); (0, go); (0, go);
   (0, go); (0, go); (0, go); (0, go); (0, go); (0, go); (0, go); (0, go);
   (0, go)]%nat.

Definition example_exhausted : system :=
  Eval vm_compute in
    default (system_of_main example_world_one)
            (run_schedule schedule_exhausted (system_of_main example_world_one)).

(** * Proofs *)

Lemma wrap_int_id z : int_range z -> wrap_int z = z.
Proof.
  unfold int_range, INT_MIN, INT_MAX, wrap_int. intros H.
  rewrite Z.mod_small; lia.
Qed.

Lemma int_rem_pos a b :
  0 <= a -> 0 < b -> int_rem a b = Some (a mod b).
Proof.
  intros Ha Hb. unfold int_rem.
  replace (b =? 0) with false by (symmetry; apply Z.eqb_neq; lia).
  replace (a =? INT_MIN) with false
    by (symmetry; apply Z.eqb_neq; unfold INT_MIN; lia).
  simpl. by rewrite Z.rem_mod_nonneg by lia.
Qed.

Lemma next_index i C :
  0 <= i < C -> C <= INT_MAX ->
  int_rem (int_add i 1) C = Some ((i + 1) mod C).
Proof.
  intros Hi HC. unfold int_add.
  rewrite wrap_int_id by (unfold int_range, INT_MIN; lia).
  apply int_rem_pos; lia.
Qed.

Lemma array_set_in_range {A} (a : list A) i x :
  0 <= i < Z.of_nat (length a) ->
  array_set a i x = Some (<[Z.to_nat i := x]> a).
Proof.
  intros H. unfold array_set.
  replace (0 <=? i) with true by (symmetry; apply Z.leb_le; lia).
  replace (i <? Z.of_nat (length a)) with true by (symmetry; apply Z.ltb_lt; lia).
  done.
Qed.

Lemma array_get_in_range {A} (a : list A) i :
  0 <= i < Z.of_nat (length a) ->
  exists x, array_get a i = Some x /\ a !! Z.to_nat i = Some x.
Proof.
  intros H. unfold array_get.
  replace (i <? 0) with false by (symmetry; apply Z.ltb_ge; lia).
  destruct (lookup_lt_is_Some_2 a (Z.to_nat i)) as [x Hx]; [lia|].
  eauto.
Qed.

(** ** The queue operations under the invariant *)

Section QueueOk.
Variable C : Z.
Hypothesis C_pos : 0 < C.
Hypothesis C_int : C <= INT_MAX.

Lemma deposit_item_ok g j :
  queue_ok C g ->
  deposit_item j g =
    Some (set_my_queue g
            (mk_queue (head (my_queue g)) ((tail (my_queue g) + 1) mod C)
                      (array_size (my_queue g))
                      (<[Z.to_nat (tail (my_queue g)) := j]> (data (my_queue g))))).
Proof using C_pos C_int.
  intros [Hs Hl Hh Ht]. unfold deposit_item.
  rewrite array_set_in_range by lia. simpl.
  rewrite Hs, next_index by lia. done.
Qed.

Lemma fetch_item_ok g :
  queue_ok C g ->
  exists j,
    data (my_queue g) !! Z.to_nat (head (my_queue g)) = Some j /\
    fetch_item g =
      Some (j, set_my_queue g
                 (mk_queue ((head (my_queue g) + 1) mod C) (tail (my_queue g))
                           (array_size (my_queue g)) (data (my_queue g)))).
Proof using C_pos C_int.
  intros [Hs Hl Hh Ht]. unfold fetch_item.
  destruct (array_get_in_range (data (my_queue g)) (head (my_queue g)))
    as (j & Hj & Hj'); [lia|].
  exists j. split; [done|]. rewrite Hj. simpl.
  rewrite Hs, next_index by lia. done.
Qed.

Lemma deposit_item_preserves g j g' :
  queue_ok C g -> deposit_item j g = Some g' -> queue_ok C g'.
Proof using C_pos C_int.
  intros Hok. rewrite deposit_item_ok by done. intros [= <-].
  destruct Hok as [Hs Hl Hh Ht].
  split; simpl; try done.
  - by rewrite length_insert.
  - apply Z.mod_pos_bound; lia.
Qed.

Lemma fetch_item_preserves g j g' :
  queue_ok C g -> fetch_item g = Some (j, g') -> queue_ok C g'.
Proof using C_pos C_int.
  intros Hok. destruct (fetch_item_ok g Hok) as (j0 & _ & ->).
  intros [= <- <-]. destruct Hok as [Hs Hl Hh Ht].
  split; simpl; try done.
  apply Z.mod_pos_bound; lia.
Qed.

Lemma initialized_queue_ok fresh :
  exists g0, initialized_queue C fresh = Some g0
             /\ head (my_queue g0) = 0 /\ tail (my_queue g0) = 0
             /\ queue_ok C g0.
Proof using C_pos C_int.
  unfold initialized_queue, initializeQueue, new_array. simpl.
  replace (C <? 0) with false by (symmetry; apply Z.ltb_ge; lia).
  simpl. eexists. split; [done|]. split; [done|]. split; [done|].
  split; simpl; try lia.
  rewrite length_map, length_seq. lia.
Qed.

End QueueOk.

(** ** Runs of calls never leave the array *)

Lemma run_calls_ok C cs : forall g,
  0 < C -> C <= INT_MAX -> queue_ok C g ->
  exists es g', run_calls cs g = Some (es, g') /\ queue_ok C g'
                /\ Forall (fun e => 0 <= slot_of e < C) es.
Proof.
  induction cs as [|c cs IH]; intros g HC HC' Hok; simpl.
  - exists [], g. auto.
  - destruct c as [j|]; simpl.
    + rewrite (deposit_item_ok C HC HC' g j Hok). simpl.
      edestruct IH as (es & g' & -> & Hok' & Hes); [done|done| |].
      { eapply deposit_item_preserves; [done|done|done|].
        by apply deposit_item_ok. }
      simpl. eexists _, _. split; [done|]. split; [done|].
      constructor; [|done]. simpl. by destruct Hok.
    + destruct (fetch_item_ok C HC HC' g Hok) as (j & _ & Hf).
      rewrite Hf. simpl.
      edestruct IH as (es & g' & -> & Hok' & Hes); [done|done| |].
      { eapply fetch_item_preserves; [done|done|done|]. apply Hf. }
      simpl. eexists _, _. split; [done|]. split; [done|].
      constructor; [|done]. simpl. by destruct Hok.
Qed.

(** C6: after [initializeQueue] with a capacity [C > 0] (an [int]), [head]
    and [tail] are 0, and every sequence of [deposit_item] and
    [fetch_item] calls runs without an access outside the [C]-slot array
    and leaves [0 <= head < C] and [0 <= tail < C]. *)
Theorem indices_stay_in_bounds (C : Z) (fresh : nat -> job) (cs : list queue_call) :
  0 < C -> C <= INT_MAX ->
  exists g0 es g',
    initialized_queue C fresh = Some g0
    /\ head (my_queue g0) = 0 /\ tail (my_queue g0) = 0
    /\ run_calls cs g0 = Some (es, g')
    /\ 0 <= head (my_queue g') < C /\ 0 <= tail (my_queue g') < C
    /\ Z.of_nat (length (data (my_queue g'))) = C
    /\ Forall (fun e => 0 <= slot_of e < C) es.
Proof.
  intros HC HC'.
  destruct (initialized_queue_ok C HC HC' fresh) as (g0 & Hi & Hh & Ht & Hok).
  destruct (run_calls_ok C cs g0 HC HC' Hok) as (es & g' & Hr & [] & Hes).
  exists g0, es, g'. repeat split; try done; lia.
Qed.

Lemma indices_stay_in_bounds_witness :
  exists g0 es g',
    initialized_queue 2 (fun _ => mk_job 0 0) = Some g0
    /\ head (my_queue g0) = 0 /\ tail (my_queue g0) = 0
    /\ run_calls [Deposit (mk_job 1 4); Fetch; Fetch; Deposit (mk_job 2 9)] g0
       = Some (es, g')
    /\ 0 <= head (my_queue g') < 2 /\ 0 <= tail (my_queue g') < 2
    /\ Z.of_nat (length (data (my_queue g'))) = 2
    /\ Forall (fun e => 0 <= slot_of e < 2) es.
Proof.
  apply (indices_stay_in_bounds 2); [lia | unfold INT_MAX; lia].
Defined.

(** C4: in a queue of capacity [C > 0] whose [head] equals [tail],
    [deposit_item J] followed directly by [fetch_item] returns a job with
    the duration of [J]. *)
Theorem deposit_then_fetch_round_trip (C : Z) (g : globals) (J : job) :
  0 < C -> C <= INT_MAX -> queue_ok C g ->
  head (my_queue g) = tail (my_queue g) ->
  exists g1 J' g2,
    deposit_item J g = Some g1 /\ fetch_item g1 = Some (J', g2)
    /\ duration J' = duration J.
Proof.
  intros HC HC' Hok Heq.
  pose proof (deposit_item_ok C HC HC' g J Hok) as Hd.
  pose proof (deposit_item_preserves C HC HC' g J _ Hok Hd) as Hok1.
  destruct (fetch_item_ok C HC HC' _ Hok1) as (J' & Hl & Hf).
  eexists _, J', _. split; [exact Hd|]. split; [exact Hf|].
  simpl in Hl. rewrite Heq in Hl.
  rewrite list_lookup_insert_eq in Hl by (destruct Hok; lia).
  by injection Hl as <-.
Qed.

Lemma deposit_then_fetch_round_trip_witness :
  exists g1 J' g2,
    deposit_item (mk_job 2 7)
      (mk_globals 0 1 1 3 2 (mk_queue 1 1 2 [mk_job 1 3; mk_job 2 5])) = Some g1
    /\ fetch_item g1 = Some (J', g2)
    /\ duration J' = duration (mk_job 2 7).
Proof.
  apply (deposit_then_fetch_round_trip 2);
    [lia | unfold INT_MAX; lia | split; simpl; lia | reflexivity].
Defined.

(** ** [produce] *)

(** C8 (as amended): for [int] arguments with [max > 0] and
    [min + max - 1 <= INT_MAX], and every nonnegative value of [rand()],
    [produce min max] returns an integer in [[min, min+max)]; in
    particular [produce 1 10] lies in [[1, 10]] and [produce 1 5] in
    [[1, 5]]. *)
Theorem produce_in_range (min max r : Z) :
  int_range min -> 0 < max -> 0 <= r -> min + max - 1 <= INT_MAX ->
  (exists v, produce min max r = Some v /\ min <= v < min + max)
  /\ (exists d, produce 1 10 r = Some d /\ 1 <= d <= 10)
  /\ (exists s, produce 1 5 r = Some s /\ 1 <= s <= 5).
Proof.
  intros Hmin Hmax Hr Hsum.
  assert (Hgen : forall lo n, int_range lo -> 0 < n -> lo + n - 1 <= INT_MAX ->
            exists v, produce lo n r = Some v /\ lo <= v < lo + n).
  { intros lo n Hlo Hn Hs. unfold produce.
    rewrite int_rem_pos by lia. simpl. eexists. split; [done|].
    pose proof (Z.mod_pos_bound r n Hn) as Hb.
    unfold int_add. rewrite wrap_int_id; [lia|].
    unfold int_range in *. lia. }
  split; [by apply Hgen|].
  split.
  - destruct (Hgen 1 10) as (v & Hv & Hb);
      [unfold int_range, INT_MIN, INT_MAX; lia | lia | unfold INT_MAX; lia |].
    exists v. split; [done | lia].
  - destruct (Hgen 1 5) as (v & Hv & Hb);
      [unfold int_range, INT_MIN, INT_MAX; lia | lia | unfold INT_MAX; lia |].
    exists v. split; [done | lia].
Qed.

Lemma produce_in_range_witness :
  (exists v, produce 3 4 10 = Some v /\ 3 <= v < 3 + 4)
  /\ (exists d, produce 1 10 10 = Some d /\ 1 <= d <= 10)
  /\ (exists s, produce 1 5 10 = Some s /\ 1 <= s <= 5).
Proof.
  apply (produce_in_range 3 4 10);
    [unfold int_range, INT_MIN, INT_MAX; lia | lia | lia | unfold INT_MAX; lia].
Defined.

(** C8 as stated fails: with [min = INT_MAX] the sum overflows the
    [int] and the returned value is below [min]. *)
Lemma produce_overflow_counterexample :
  ~ (forall min max r : Z,
       int_range min -> int_range max -> 0 < max -> 0 <= r ->
       exists v, produce min max r = Some v /\ min <= v < min + max).
Proof.
  intros H.
  destruct (H INT_MAX 2 1) as (v & Hv & Hb);
    try (unfold int_range, INT_MIN, INT_MAX; lia).
  vm_compute in Hv. injection Hv as <-. unfold INT_MAX in Hb. lia.
Qed.

(** ** Histories of slot accesses *)

Lemma mod_range_cases C x :
  0 < C -> - C <= x < 2 * C ->
  (x < 0 /\ x mod C = x + C) \/ (0 <= x < C /\ x mod C = x)
  \/ (C <= x /\ x mod C = x - C).
Proof.
  intros HC Hx.
  destruct (Z_lt_le_dec x 0);
    [left | right; destruct (Z_lt_le_dec x C); [left | right]];
    (split; [lia|]).
  - rewrite <- (Z.mod_add x 1 C) by lia. rewrite Z.mod_small; lia.
  - apply Z.mod_small. lia.
  - rewrite <- (Z.mod_add x (-1) C) by lia. rewrite Z.mod_small; lia.
Qed.

Ltac mod_cases C x :=
  let H := fresh "Hm" in
  destruct (mod_range_cases C x ltac:(lia) ltac:(lia)) as [[? H]|[[? H]|[? H]]];
  rewrite ?H in *; clear H.

(** Case analysis on every [x mod C] with [- C <= x < 2 * C] in sight. *)
Ltac mod_solve C :=
  repeat match goal with
    | |- context [?x mod C] => mod_cases C x
    | H : context [?x mod C] |- _ => mod_cases C x
    end;
  try lia.

Lemma last_at_nil s : last_at s [] = None.
Proof. done. Qed.

Lemma last_at_snoc s es e :
  last_at s (es ++ [e]) = if decide (slot_of e = s) then Some e else last_at s es.
Proof.
  unfold last_at. rewrite filter_app, (filter_singleton _ e []).
  case_decide; [by rewrite last_snoc | by rewrite app_nil_r].
Qed.

Lemma snoc_split {A} (h : list A) e es1 x es2 :
  h ++ [e] = es1 ++ x :: es2 ->
  (es2 = [] /\ es1 = h /\ x = e)
  \/ (exists es2', es2 = es2' ++ [e] /\ h = es1 ++ x :: es2').
Proof.
  destruct es2 as [|y es2 _] using rev_ind; intros H.
  - apply app_inj_tail in H as [-> ->]. by left.
  - rewrite app_comm_cons, app_assoc in H.
    apply app_inj_tail in H as [-> ->]. right. eauto.
Qed.

Lemma no_stale_read_snoc_deposit es s j :
  no_stale_read es -> no_stale_read (es ++ [Deposited s j]).
Proof.
  intros H es1 s1 j1 es2 Heq.
  apply snoc_split in Heq as [(_ & _ & [=]) | (es2' & _ & ->)].
  by eapply H.
Qed.

Lemma no_stale_read_snoc_fetch es s j :
  no_stale_read es -> last_at s es = Some (Deposited s j) ->
  no_stale_read (es ++ [Fetched s j]).
Proof.
  intros H Hl es1 s1 j1 es2 Heq.
  apply snoc_split in Heq as [(_ & -> & [= -> ->]) | (es2' & _ & ->)];
    [done | by eapply H].
Qed.

Lemma no_overwrite_snoc_fetch es s j :
  no_overwrite es -> no_overwrite (es ++ [Fetched s j]).
Proof.
  intros H es1 s1 j1 es2 Heq.
  apply snoc_split in Heq as [(_ & _ & [=]) | (es2' & _ & ->)].
  by eapply H.
Qed.

Lemma no_overwrite_snoc_deposit es s j :
  no_overwrite es -> (forall s' j', last_at s es <> Some (Deposited s' j')) ->
  no_overwrite (es ++ [Deposited s j]).
Proof.
  intros H Hl es1 s1 j1 es2 Heq.
  apply snoc_split in Heq as [(_ & -> & [= -> ->]) | (es2' & _ & ->)];
    [done | by eapply H].
Qed.

Section QueueHolds.
Variable C : Z.
Hypothesis C_pos : 0 < C.
Hypothesis C_int : C <= INT_MAX.

Lemma initial_queue_holds g :
  queue_ok C g -> head (my_queue g) = 0 -> tail (my_queue g) = 0 ->
  queue_holds C g [] 0.
Proof using C_pos.
  intros Hok Hh Ht. split; try done; try lia.
  - rewrite Hh, Ht. by rewrite Z.mod_0_l by lia.
  - intros s Hs Hlt. pose proof (Z.mod_pos_bound (s - head (my_queue g)) C). lia.
Qed.

Lemma deposit_holds g es n j :
  queue_holds C g es n -> n < C ->
  exists g',
    deposit_item j g = Some g'
    /\ queue_holds C g' (es ++ [Deposited (tail (my_queue g)) j]) (n + 1)
    /\ forall s' j', last_at (tail (my_queue g)) es <> Some (Deposited s' j').
Proof using C_pos C_int.
  intros [Hok Hn Ht Hfull Hvac] Hlt.
  pose proof (deposit_item_ok C C_pos C_int g j Hok) as Hd.
  pose proof (deposit_item_preserves C C_pos C_int g j _ Hok Hd) as Hok'.
  destruct Hok as [Hs Hl Hh Htl].
  set (h := head (my_queue g)) in *. set (t := tail (my_queue g)) in *.
  assert (Htslot : (t - h) mod C = n).
  { rewrite Ht. mod_solve C. }
  eexists. split; [exact Hd|]. split.
  - split; simpl; fold h t; try done; try lia.
    + rewrite Ht, Z.add_mod_idemp_l by lia. f_equal. lia.
    + intros s Hs' Hslot. rewrite last_at_snoc. simpl. case_decide as Hst.
      * subst s. exists j. split; [done|].
        apply list_lookup_insert_eq. lia.
      * destruct (Hfull s Hs') as (j0 & Hl0 & Hd0); [clear Htslot; mod_solve C|].
        exists j0. split; [done|].
        rewrite list_lookup_insert_ne by lia. done.
    + intros s Hs' Hslot s' j'. rewrite last_at_snoc. simpl.
      case_decide as Hst; [subst s; lia|]. apply Hvac; [done | lia].
  - apply Hvac; [done | lia].
Qed.

Lemma fetch_holds g es n :
  queue_holds C g es n -> 0 < n ->
  exists j g',
    fetch_item g = Some (j, g')
    /\ last_at (head (my_queue g)) es = Some (Deposited (head (my_queue g)) j)
    /\ queue_holds C g' (es ++ [Fetched (head (my_queue g)) j]) (n - 1).
Proof using C_pos C_int.
  intros [Hok Hn Ht Hfull Hvac] Hlt.
  destruct (fetch_item_ok C C_pos C_int g Hok) as (j & Hj & Hf).
  pose proof (fetch_item_preserves C C_pos C_int g j _ Hok Hf) as Hok'.
  destruct Hok as [Hs Hl Hh Htl].
  set (h := head (my_queue g)) in *. set (t := tail (my_queue g)) in *.
  destruct (Hfull h Hh) as (j0 & Hl0 & Hd0).
  { rewrite Z.sub_diag, Z.mod_0_l; lia. }
  assert (j0 = j) as -> by congruence.
  exists j. eexists. split; [exact Hf|]. split; [done|].
  split; simpl; fold h t; try done; try lia.
  - rewrite Ht, Z.add_mod_idemp_l by lia. f_equal. lia.
  - intros s Hs' Hslot. rewrite last_at_snoc. simpl. case_decide as Hst.
    + subst s. exfalso. clear Ht. mod_solve C.
    + apply Hfull; [done|]. clear Ht. mod_solve C.
  - intros s Hs' Hslot s' j'. rewrite last_at_snoc. simpl.
    case_decide as Hst; [done|].
    apply Hvac; [done|]. clear Ht. mod_solve C.
Qed.

End QueueHolds.

Lemma counter_protocol_from C cs : forall n,
  (forall k : nat,
     0 <= n + count_deposits (take k cs) - count_fetches (take k cs) <= C) ->
  protocol_from C n cs.
Proof.
  induction cs as [|c cs IH]; intros n H; [done|].
  pose proof (H 1%nat) as H1.
  destruct c as [j|]; simpl in *; (split; [lia|]); apply IH; intros k;
    specialize (H (S k)); simpl in H; lia.
Qed.

Lemma run_calls_holds C cs : forall g es n,
  0 < C -> C <= INT_MAX ->
  queue_holds C g es n -> no_stale_read es -> no_overwrite es ->
  protocol_from C n cs ->
  exists es' g',
    run_calls cs g = Some (es', g')
    /\ Forall2 event_of_call cs es'
    /\ no_stale_read (es ++ es') /\ no_overwrite (es ++ es').
Proof.
  induction cs as [|c cs IH]; intros g es n HC HC' Hh Hsr How Hp;
    cbn [run_calls do_call].
  - exists [], g. rewrite app_nil_r. repeat split; auto.
  - destruct c as [j|]; simpl in Hp; destruct Hp as [Hn Hp]; cbn [do_call].
    + destruct (deposit_holds C HC HC' g es n j Hh Hn) as (g1 & Hd & Hh1 & Hv).
      rewrite Hd. simpl.
      edestruct (IH g1) as (es' & g' & -> & Hev & Hsr' & How');
        [done | done | exact Hh1 | | | exact Hp |].
      { by apply no_stale_read_snoc_deposit. }
      { by apply no_overwrite_snoc_deposit. }
      simpl. eexists _, _. split; [done|].
      rewrite <- app_assoc in Hsr', How'. simpl in Hsr', How'.
      split; [|done]. by constructor.
    + destruct (fetch_holds C HC HC' g es n Hh Hn) as (j & g1 & Hf & Hl & Hh1).
      rewrite Hf. simpl.
      edestruct (IH g1) as (es' & g' & -> & Hev & Hsr' & How');
        [done | done | exact Hh1 | | | exact Hp |].
      { by apply no_stale_read_snoc_fetch. }
      { by apply no_overwrite_snoc_fetch. }
      simpl. eexists _, _. split; [done|].
      rewrite <- app_assoc in Hsr', How'. simpl in Hsr', How'.
      split; [|done]. by constructor.
Qed.

(** C1: from an initialised queue of capacity [C > 0], every sequence of
    [deposit_item] and [fetch_item] calls that respects the counter
    protocol runs to its end; every [fetch_item] returns a job that an
    earlier [deposit_item] of the sequence was given, namely the latest
    one stored in the slot it reads, not touched since (no stale read);
    and no [deposit_item] writes a slot whose latest access is a deposit
    (no overwrite). *)
Theorem fetch_only_deposited_and_no_overwrite
    (C : Z) (fresh : nat -> job) (cs : list queue_call) :
  0 < C -> C <= INT_MAX -> counter_protocol C cs ->
  exists g0 es g',
    initialized_queue C fresh = Some g0
    /\ run_calls cs g0 = Some (es, g')
    /\ (forall k : nat, cs !! k = Some Fetch ->
          exists s j (i : nat),
            es !! k = Some (Fetched s j)
            /\ (i < k)%nat /\ cs !! i = Some (Deposit j)
            /\ es !! i = Some (Deposited s j))
    /\ (forall (k : nat) j, cs !! k = Some (Deposit j) ->
          exists s, es !! k = Some (Deposited s j))
    /\ no_stale_read es
    /\ no_overwrite es.
Proof.
  intros HC HC' Hp.
  destruct (initialized_queue_ok C HC HC' fresh) as (g0 & Hi & Hh & Ht & Hok).
  destruct (run_calls_holds C cs g0 [] 0 HC HC') as (es & g' & Hr & Hev & Hsr & How).
  { by apply initial_queue_holds. }
  { intros [|??] ??? [=]. }
  { intros [|??] ??? [=]. }
  { apply counter_protocol_from. intros k. destruct (Hp k). lia. }
  simpl in Hsr, How.
  exists g0, es, g'. split; [done|]. split; [done|].
  split; [|split; [|done]].
  - intros k Hk.
    destruct (Forall2_lookup_l _ _ _ _ _ Hev Hk) as (e & He & Hce).
    destruct e as [|s j]; [done|].
    pose proof (take_drop_middle _ _ _ He) as Hsplit.
    symmetry in Hsplit. apply Hsr in Hsplit.
    apply last_Some_elem_of, list_elem_of_filter in Hsplit as [_ Hin].
    apply list_elem_of_lookup in Hin as [i Hi'].
    apply lookup_take_Some in Hi' as [Hi' Hlt].
    destruct (Forall2_lookup_r _ _ _ _ _ Hev Hi') as (c & Hc & Hcc).
    destruct c as [j0|]; [|done]. simpl in Hcc. subst j0.
    by exists s, j, i.
  - intros k j Hk.
    destruct (Forall2_lookup_l _ _ _ _ _ Hev Hk) as (e & He & Hce).
    destruct e as [s j0|]; [|done]. simpl in Hce. subst j0. by exists s.
Qed.

Lemma fetch_only_deposited_and_no_overwrite_witness :
  exists g0 es g',
    initialized_queue 2 (fun _ => mk_job 0 0) = Some g0
    /\ run_calls [Deposit (mk_job 1 4); Deposit (mk_job 2 6); Fetch;
                  Deposit (mk_job 1 3); Fetch; Fetch] g0 = Some (es, g')
    /\ (forall k : nat,
          [Deposit (mk_job 1 4); Deposit (mk_job 2 6); Fetch;
           Deposit (mk_job 1 3); Fetch; Fetch] !! k = Some Fetch ->
          exists s j (i : nat),
            es !! k = Some (Fetched s j)
            /\ (i < k)%nat
            /\ [Deposit (mk_job 1 4); Deposit (mk_job 2 6); Fetch;
                Deposit (mk_job 1 3); Fetch; Fetch] !! i = Some (Deposit j)
            /\ es !! i = Some (Deposited s j))
    /\ (forall (k : nat) j,
          [Deposit (mk_job 1 4); Deposit (mk_job 2 6); Fetch;
           Deposit (mk_job 1 3); Fetch; Fetch] !! k = Some (Deposit j) ->
          exists s, es !! k = Some (Deposited s j))
    /\ no_stale_read es
    /\ no_overwrite es.
Proof.
  apply (fetch_only_deposited_and_no_overwrite 2);
    [lia | unfold INT_MAX; lia |].
  intros k. do 7 (destruct k as [|k]; [simpl; lia|]). simpl. lia.
Defined.

(** ** Start-up: semaphores *)

Ltac unfold_state :=
  unfold mbind, state_bind, mret, state_ret, fail_with, log, put_errno,
    put_vars, get_vars, get_errno, put_semaphores in *.

Lemma sem_store_value id num v w ws :
  sem_store id num v w = Some ws ->
  vars ws = vars w /\ errno ws = errno w /\ trace ws = trace w
  /\ sem_value id num ws = Some v
  /\ forall n, n <> num -> sem_value id n ws = sem_value id n w.
Proof.
  unfold sem_store, sem_value. intros H.
  destruct (semaphores w) as [[id' vs]|]; [|done].
  destruct (id' =? id) eqn:Hid; [|done].
  unfold array_set in H.
  destruct (0 <=? num) eqn:H0; [|done].
  destruct (num <? Z.of_nat (length vs)) eqn:H1; [|done].
  simpl in H. injection H as <-. simpl.
  apply Z.leb_le in H0. apply Z.ltb_lt in H1.
  rewrite Hid. unfold array_get.
  replace (num <? 0) with false by (symmetry; apply Z.ltb_ge; lia).
  do 3 (split; [done|]).
  split; [apply list_lookup_insert_eq; lia|].
  intros n Hn. destruct (n <? 0) eqn:Hn0; [done|].
  apply Z.ltb_ge in Hn0. apply list_lookup_insert_ne. lia.
Qed.

Section SemInit.
Variable hdr : helper_h.
Variable env : environment.

(** [sem_init] either stores the value and returns 0, or leaves the
    semaphores alone, sets [errno] to a positive code and returns -1. *)
Lemma sem_init_result id num value w r w' :
  sem_init env id num value w = (r, w') ->
  vars w' = vars w
  /\ ((r = 0 /\ errno w' = errno w
       /\ sem_value id num w' = Some value
       /\ forall n, n <> num -> sem_value id n w' = sem_value id n w)
      \/ (r = -1 /\ 0 < errno w' /\ semaphores w' = semaphores w)).
Proof.
  unfold sem_init, semctl_setval. unfold_state.
  destruct (env_setval env num value) as [e|] eqn:He.
  - simpl. intros [= <- <-]. simpl. split; [done|]. right.
    split; [done|]. split; [lia | done].
  - destruct (sem_store id num value w) as [ws|] eqn:Hs.
    + simpl. intros [= <- <-]. simpl.
      apply sem_store_value in Hs as (Hv & He' & _ & Hn & Ho).
      split; [done|]. left. split; [done|]. split; [done|].
      split; [exact Hn | exact Ho].
    + simpl. intros [= <- <-]. simpl. split; [done|]. right.
      split; [done|]. split; [unfold EINVAL; lia | done].
Qed.

End SemInit.

(** C5: when [initialize_required_semaphores] returns [NO_ERROR] (which
    is not a positive error number), semaphore [item] holds 0, [space]
    holds [buffer_size] and [mutex] holds 1. *)
Theorem semaphores_initial_values
    (hdr : helper_h) (env : environment) (w w' : world) :
  NO_ERROR hdr <= 0 ->
  initialize_required_semaphores hdr env w = (NO_ERROR hdr, w') ->
  sem_value (sem_id (vars w)) item w' = Some 0
  /\ sem_value (sem_id (vars w)) space w' = Some (buffer_size (vars w))
  /\ sem_value (sem_id (vars w)) mutex w' = Some 1.
Proof.
  intros Hno. unfold initialize_required_semaphores.
  unfold mbind, state_bind, get_vars, get_errno, log, mret, state_ret.
  destruct (sem_init env (sem_id (vars w)) item 0 w) as [r1 w1] eqn:H1.
  apply sem_init_result in H1 as (Hv1 & [(-> & _ & Hi1 & Ho1) | (-> & He1 & _)]).
  2: { change (negb (-1 =? 0)) with true. cbv beta iota. intros Hr.
       apply (f_equal fst) in Hr. simpl in Hr. exfalso. lia. }
  change (negb (0 =? 0)) with false. cbv beta iota.
  destruct (sem_init env (sem_id (vars w)) space (buffer_size (vars w)) w1)
    as [r2 w2] eqn:H2.
  apply sem_init_result in H2 as (Hv2 & [(-> & _ & Hi2 & Ho2) | (-> & He2 & _)]).
  2: { change (negb (-1 =? 0)) with true. cbv beta iota. intros Hr.
       apply (f_equal fst) in Hr. simpl in Hr. exfalso. lia. }
  change (negb (0 =? 0)) with false. cbv beta iota.
  destruct (sem_init env (sem_id (vars w)) mutex 1 w2) as [r3 w3] eqn:H3.
  apply sem_init_result in H3 as (Hv3 & [(-> & _ & Hi3 & Ho3) | (-> & He3 & _)]).
  2: { change (negb (-1 =? 0)) with true. cbv beta iota. intros Hr.
       apply (f_equal fst) in Hr. simpl in Hr. exfalso. lia. }
  change (negb (0 =? 0)) with false. cbv beta iota.
  intros Hr. apply (f_equal snd) in Hr. simpl in Hr. subst w'.
  split; [|split].
  - rewrite Ho3, Ho2 by done. exact Hi1.
  - rewrite Ho3 by done. exact Hi2.
  - exact Hi3.
Qed.

Lemma semaphores_initial_values_witness :
  let hdr := mk_helper_h 1234 0 1 2 in
  let env := mk_environment (inl 7%N) (fun _ => 0) (fun _ _ => None) None
                            (fun _ => mk_job 0 0) (fun _ _ => true) in
  let w := mk_world (mk_globals 7 1 1 3 5 (mk_queue 0 0 0 [])) 0
                    (Some (7, [0; 0; 0])) [] in
  sem_value 7 item (snd (initialize_required_semaphores hdr env w)) = Some 0
  /\ sem_value 7 space (snd (initialize_required_semaphores hdr env w)) = Some 5
  /\ sem_value 7 mutex (snd (initialize_required_semaphores hdr env w)) = Some 1.
Proof.
  intros hdr env w.
  apply (semaphores_initial_values hdr env w
           (snd (initialize_required_semaphores hdr env w)));
    [simpl; lia | reflexivity].
Defined.

(** ** Start-up: [main] *)

Ltac closed_numbers :=
  change (Z.of_nat 5) with 5 in *;
  change (Z.of_nat 3) with 3 in *;
  change (Z.to_nat 3) with 3%nat in *;
  change (Z.to_nat item) with 0%nat in *;
  change (Z.to_nat space) with 1%nat in *;
  change (Z.to_nat mutex) with 2%nat in *.

(** Run the start-up code as far as the known parts of the world allow. *)
Ltac run_world :=
  cbv [main_startup sem_create semget setup_variables
       initialize_required_semaphores sem_init semctl_setval sem_close
       semctl_rmid sem_store array_set fail_with log put_errno put_vars
       get_vars get_errno put_semaphores mbind state_bind mret state_ret
       env_semget env_seminit env_setval env_rmid env_fresh
       initializeQueue new_array set_my_queue set_sem_id arg
       NO_ERROR SEM_KEY INCORRECT_NUMBER_OF_ARGUMENTS NON_POSITIVE_INTEGER];
  repeat (progress (cbn -[check_arg first_refused create_threads
                          thread_arrays_fit]; closed_numbers)).

Lemma create_threads_spec b n : forall k w,
  create_threads b n k w =
    (tt, mk_world (vars w) (errno w) (semaphores w)
           (trace w ++ map (fun i => EPthreadCreate b (k + Z.of_nat i + 1)) (seq 0 n))).
Proof.
  induction n as [|n IH]; intros k w.
  - simpl. rewrite app_nil_r. by destruct w.
  - cbn [create_threads]. unfold mbind, state_bind, log at 1. rewrite IH. simpl.
    f_equal. f_equal. rewrite <- app_assoc. simpl. f_equal. f_equal.
    + f_equal. lia.
    + rewrite <- seq_shift, map_map. apply map_ext. intros i. f_equal. lia.
Qed.

Lemma length_five {A} (l : list A) :
  length l = 5%nat -> exists a0 a1 a2 a3 a4, l = [a0; a1; a2; a3; a4].
Proof.
  destruct l as [|a0 [|a1 [|a2 [|a3 [|a4 [|a5 l]]]]]]; try done.
  intros _. by exists a0, a1, a2, a3, a4.
Qed.

Lemma main_startup_running hdr env argv w0 :
  NO_ERROR hdr <= 0 ->
  main_startup hdr env argv world_at_startup = (Running, w0) ->
  exists id d,
    new_array (check_arg (arg argv 1)) (env_fresh env) = Some d
    /\ vars w0 = mk_globals id (check_arg (arg argv 3)) (check_arg (arg argv 4))
                   (check_arg (arg argv 2)) (check_arg (arg argv 1))
                   (mk_queue 0 0 (check_arg (arg argv 1)) d)
    /\ semaphores w0 = Some (id, [0; check_arg (arg argv 1); 1])
    /\ Forall (fun e => forall tid a, e <> EThread tid a) (trace w0).
Proof.
  intros Hno.
  destruct (Z.of_nat (length argv) =? 5) eqn:Hargc.
  2: { unfold main_startup. rewrite Hargc. run_world. intros [=]. }
  apply Z.eqb_eq in Hargc.
  destruct (length_five argv) as (a0 & a1 & a2 & a3 & a4 & ->); [lia|].
  destruct hdr as [key ne e1 e2], env as [sg si sv rm fr st]. simpl in Hno.
  run_world.
  destruct (first_refused [a1; a2; a3; a4] 1) as [i|]; run_world; [intros [=]|].
  destruct sg as [id|e]; run_world; [|intros [=]].
  assert (Hid : 0 <= Z.of_N id) by lia.
  generalize dependent (Z.of_N id). intros z Hz.
  replace (z <? 0) with false by (symmetry; apply Z.ltb_ge; lia).
  replace (z =? -1) with false by (symmetry; apply Z.eqb_neq; lia).
  run_world.
  destruct (thread_arrays_fit _ _ _); run_world; [|intros [=]].
  destruct ne as [|q|q]; [|lia|];
    (run_world; rewrite ?Z.eqb_refl; run_world;
     destruct (sv item 0) as [e|]; run_world;
     [destruct rm; run_world; rewrite ?Z.eqb_refl; intros [=]|];
     rewrite ?Z.eqb_refl; run_world;
     destruct (sv space (check_arg a1)) as [e|]; run_world;
     [destruct rm; run_world; rewrite ?Z.eqb_refl; intros [=]|];
     rewrite ?Z.eqb_refl; run_world;
     destruct (sv mutex 1) as [e|]; run_world;
     [destruct rm; run_world; rewrite ?Z.eqb_refl; intros [=]|];
     rewrite ?Z.eqb_refl, ?Pos.eqb_refl; run_world;
     destruct (check_arg a1 <? 0); run_world; [intros [=]|];
     rewrite !create_threads_spec; run_world;
     intros [= <-]; exists z; eexists; split; [done|]; split; [done|];
     split; [done|]; simpl;
     repeat (apply Forall_cons; split; [done|]);
     apply Forall_app; split; apply Forall_forall; intros x Hx;
     apply list_elem_of_In, in_map_iff in Hx as (k & <- & _); done).
Qed.




(** What the verification of the arguments does refuse: the empty
    string and every string with a character that is not a digit; [main]
    then returns [NON_POSITIVE_INTEGER] and has done nothing but seed
    the generator and write the two lines of the error message. *)
Lemma check_arg_loop_refuses rest : forall num,
  (exists c, In c rest /\ is_digit c = false) ->
  check_arg_loop rest num = -1.
Proof.
  induction rest as [|c0 rest IH]; intros num (c & Hin & Hc); [done|].
  cbn [check_arg_loop].
  destruct ((57 <? 0 + char_to_int c0) || (0 + char_to_int c0 <? 48)) eqn:H0;
    [done|].
  destruct Hin as [-> | Hin].
  - unfold is_digit in Hc. rewrite H0 in Hc. done.
  - apply IH. eauto.
Qed.

Lemma check_arg_refuses buffer :
  buffer = EmptyString
  \/ (exists c, In c (list_ascii_of_string buffer) /\ is_digit c = false) ->
  check_arg buffer = -1.
Proof.
  intros [-> | H]; [done|]. unfold check_arg.
  destruct (String.length buffer =? 0)%nat; [done|].
  by apply check_arg_loop_refuses.
Qed.

Lemma main_refuses_argument hdr env argv i :
  length argv = 5%nat ->
  first_refused (drop 1 argv) 1 = Some i ->
  main_startup hdr env argv world_at_startup =
    (Returned (NON_POSITIVE_INTEGER hdr),
     mk_world globals_at_startup 0 None
       [ESrand; ECerrArgument i;
        ECerr "Command line arguments are supposed to be positive integers"]).
Proof.
  intros Hlen Hargs.
  destruct (length_five argv Hlen) as (a0 & a1 & a2 & a3 & a4 & ->).
  cbn [drop] in Hargs. run_world. by rewrite Hargs.
Qed.

Lemma first_refused_none args : forall i,
  first_refused args i = None -> Forall (fun a => check_arg a <> -1) args.
Proof.
  induction args as [|a args IH]; intros i H; [constructor|].
  cbn [first_refused] in H. destruct (check_arg a =? -1) eqn:Ha; [done|].
  constructor; [by apply Z.eqb_neq | by eapply IH].
Qed.

(** C3 (as amended): an argument that is the empty string or has a
    character that is not a decimal digit is refused: [check_arg] returns
    -1 for it, and [main] returns [NON_POSITIVE_INTEGER] having done
    nothing but seed the generator and write the error message: no
    semaphore set and no queue storage exist. *)
Theorem malformed_argument_rejected
    (hdr : helper_h) (env : environment) (argv : list string)
    (k : nat) (bad : string) :
  length argv = 5%nat ->
  (1 <= k)%nat -> argv !! k = Some bad ->
  bad = EmptyString
  \/ (exists c, In c (list_ascii_of_string bad) /\ is_digit c = false) ->
  check_arg bad = -1
  /\ exists i,
       main_startup hdr env argv world_at_startup =
         (Returned (NON_POSITIVE_INTEGER hdr),
          mk_world globals_at_startup 0 None
            [ESrand; ECerrArgument i;
             ECerr "Command line arguments are supposed to be positive integers"]).
Proof.
  intros Hlen Hk Hbad Hmal.
  pose proof (check_arg_refuses bad Hmal) as Hcheck. split; [done|].
  destruct (first_refused (drop 1 argv) 1) as [i|] eqn:Hfirst.
  - exists i. by apply main_refuses_argument.
  - exfalso. apply first_refused_none in Hfirst.
    assert (Hin : drop 1 argv !! (k - 1)%nat = Some bad).
    { rewrite lookup_drop. by replace (1 + (k - 1))%nat with k by lia. }
    by apply (Forall_lookup_1 _ _ _ _ Hfirst) in Hin.
Qed.

Lemma malformed_argument_rejected_witness :
  check_arg "x3" = -1
  /\ exists i,
       main_startup example_hdr example_env ["main"; "2"; "x3"; "1"; "1"]%string
                    world_at_startup =
         (Returned (NON_POSITIVE_INTEGER example_hdr),
          mk_world globals_at_startup 0 None
            [ESrand; ECerrArgument i;
             ECerr "Command line arguments are supposed to be positive integers"]).
Proof.
  apply (malformed_argument_rejected example_hdr example_env
           ["main"; "2"; "x3"; "1"; "1"]%string 2%nat "x3"%string);
    [reflexivity | lia | reflexivity |].
  right. exists "x"%char. split; [simpl; auto | reflexivity].
Defined.

(** C3 as stated fails: ["0"] does not denote a positive integer, yet
    [check_arg] returns 0 for it and [main] runs on to its threads. *)
Lemma zero_is_accepted :
  check_arg "0" = 0
  /\ check_arg "0" <> -1
  /\ fst (main_startup example_hdr example_env
            ["main"; "0"; "1"; "1"; "1"]%string world_at_startup) = Running.
Proof. repeat split. discriminate. Qed.

Example check_arg_number : check_arg "120" = 120.
Proof. reflexivity. Qed.

Example check_arg_letter : check_arg "12a" = -1.
Proof. reflexivity. Qed.

Example check_arg_sign : check_arg "-5" = -1.
Proof. reflexivity. Qed.

Example check_arg_empty : check_arg "" = -1.
Proof. reflexivity. Qed.

Example check_arg_too_large : check_arg "4294967296" = -1852516352.
Proof. reflexivity. Qed.

(** [check_arg] returns 0, not -1, for the string ["0"]; the
    verification loop of [main] compares with -1 only, so an argument
    list with ["0"] passes it and [main] goes on to call [semget],
    whatever the system then does. *)
Lemma zero_passes_validation (hdr : helper_h) (env : environment) (a0 : string) :
  check_arg "0" = 0
  /\ first_refused ["0"; "1"; "1"; "1"]%string 1 = None
  /\ exists r,
       In (ESemget (SEM_KEY hdr) 3 r)
          (trace (snd (main_startup hdr env [a0; "0"; "1"; "1"; "1"]%string
                                    world_at_startup))).
Proof.
  split; [reflexivity|]. split; [reflexivity|].
  destruct hdr as [key ne e1 e2], env as [sg si sv rm fr st].
  run_world.
  change (first_refused ["0"; "1"; "1"; "1"]%string 1) with (@None Z).
  run_world.
  destruct sg as [id|e]; run_world; [|eexists; simpl; eauto].
  exists (Z.of_N id).
  generalize (Z.of_N id). intros z.
  repeat match goal with
    | |- context [if ?b then _ else _] => destruct b; run_world
    | |- context [match ?x with Some _ => _ | None => _ end] => destruct x; run_world
    end;
    rewrite ?create_threads_spec; simpl; rewrite ?in_app_iff; simpl; tauto.
Qed.

(** ** The running process: mutual exclusion *)

Lemma holds_mutex_range th : 0 <= holds_mutex th <= 1.
Proof. unfold holds_mutex. destruct (in_critical_section th); lia. Qed.

Lemma holders_nonneg ths : 0 <= holders ths.
Proof.
  induction ths as [|th ths IH]; simpl; [lia|].
  pose proof (holds_mutex_range th). lia.
Qed.

Lemma holders_insert ths : forall tid th th',
  ths !! tid = Some th ->
  holders (<[tid := th']> ths) = holders ths - holds_mutex th + holds_mutex th'.
Proof.
  induction ths as [|x ths IH]; intros [|tid] th th' H; simpl in *; try done.
  - injection H as ->. lia.
  - rewrite (IH tid th th' H). lia.
Qed.

Lemma holders_lookup ths : forall tid th,
  ths !! tid = Some th -> holds_mutex th <= holders ths.
Proof.
  induction ths as [|x ths IH]; intros [|tid] th H; simpl in *; try done.
  - injection H as ->. pose proof (holders_nonneg ths). lia.
  - pose proof (IH tid th H). pose proof (holds_mutex_range x). lia.
Qed.

Lemma holders_two ths : forall i j a b,
  ths !! i = Some a -> ths !! j = Some b -> i <> j ->
  holds_mutex a + holds_mutex b <= holders ths.
Proof.
  induction ths as [|x ths IH]; intros [|i] [|j] a b Ha Hb Hij; simpl in *;
    try done.
  - injection Ha as ->. pose proof (holders_lookup ths j b Hb). lia.
  - injection Hb as ->. pose proof (holders_lookup ths i a Ha). lia.
  - pose proof (IH i j a b Ha Hb ltac:(lia)). pose proof (holds_mutex_range x). lia.
Qed.

(** The semaphore operations on the set of the program. *)
Section SemOps.
Variables (id vi vs vm : Z) (w : world).
Hypothesis Hsems : semaphores w = Some (id, [vi; vs; vm]).

Let with_values (l : list Z) : world :=
  mk_world (vars w) (errno w) (Some (id, l)) (trace w).

Lemma sem_wait_mutex :
  sem_wait id mutex w =
    if 0 <? vm then Step (with_values [vi; vs; vm - 1]) else Blocked.
Proof using Hsems.
  unfold sem_wait, sem_value, sem_store. rewrite Hsems, Z.eqb_refl.
  simpl. by destruct (0 <? vm).
Qed.

Lemma sem_signal_mutex :
  sem_signal id mutex w = Step (with_values [vi; vs; vm + 1]).
Proof using Hsems.
  unfold sem_signal, sem_value, sem_store. by rewrite Hsems, Z.eqb_refl.
Qed.

Lemma sem_signal_item :
  sem_signal id item w = Step (with_values [vi + 1; vs; vm]).
Proof using Hsems.
  unfold sem_signal, sem_value, sem_store. by rewrite Hsems, Z.eqb_refl.
Qed.

Lemma sem_signal_space :
  sem_signal id space w = Step (with_values [vi; vs + 1; vm]).
Proof using Hsems.
  unfold sem_signal, sem_value, sem_store. by rewrite Hsems, Z.eqb_refl.
Qed.

Lemma sem_timed_wait_space expired :
  sem_timed_wait id space 20 expired w =
    if expired then Step (-1, w)
    else if 0 <? vs then Step (0, with_values [vi; vs - 1; vm]) else Blocked.
Proof using Hsems.
  unfold sem_timed_wait, sem_value, sem_store. rewrite Hsems, Z.eqb_refl.
  simpl. destruct expired; [done|]. by destruct (0 <? vs).
Qed.

Lemma sem_timed_wait_item expired :
  sem_timed_wait id item 20 expired w =
    if expired then Step (-1, w)
    else if 0 <? vi then Step (0, with_values [vi - 1; vs; vm]) else Blocked.
Proof using Hsems.
  unfold sem_timed_wait, sem_value, sem_store. rewrite Hsems, Z.eqb_refl.
  simpl. destruct expired; [done|]. by destruct (0 <? vi).
Qed.

End SemOps.

Lemma job_id_step ths tid th th' (t t' : Z) :
  ths !! tid = Some th ->
  (forall tid0 p, ths !! tid0 = Some (Producer p) ->
     p_pc p = PSetDuration \/ p_pc p = PDeposit ->
     job_id (p_temp_job p) = t + 1) ->
  t' = t \/ (in_critical_section th = true /\ holders ths <= 1) ->
  (forall p', th' = Producer p' ->
     p_pc p' = PSetDuration \/ p_pc p' = PDeposit ->
     job_id (p_temp_job p') = t' + 1) ->
  forall tid0 p, <[tid := th']> ths !! tid0 = Some (Producer p) ->
    p_pc p = PSetDuration \/ p_pc p = PDeposit ->
    job_id (p_temp_job p) = t' + 1.
Proof.
  intros Hth Hold Htail Hnew tid0 p Hl Hpc.
  apply list_lookup_insert_Some in Hl as [(-> & Heq & _) | (Hne & Hl)].
  - by apply Hnew.
  - destruct Htail as [-> | [Hcs Hle]]; [by eapply Hold|].
    exfalso.
    pose proof (holders_two ths tid tid0 th (Producer p) Hth Hl Hne) as H2.
    unfold holds_mutex in H2. rewrite Hcs in H2. simpl in H2.
    destruct Hpc as [Hpc | Hpc]; rewrite Hpc in H2; lia.
Qed.

Ltac break_step H :=
  repeat match type of H with
    | context [if in_expired ?i then _ else _] =>
        destruct (in_expired i) eqn:?; simpl in H
    | context [if 0 <? ?v then _ else _] => destruct (0 <? v) eqn:?; simpl in H
    | (if ?b then _ else _) = _ => destruct b eqn:?
    | match ?x with _ => _ end = _ => destruct x eqn:?
    end;
  try discriminate H; try (injection H as <- <- <-).

Ltac order_facts :=
  repeat match goal with
    | H : (_ <? _) = true |- _ => apply Z.ltb_lt in H
    | H : (_ <? _) = false |- _ => apply Z.ltb_ge in H
    end.

Lemma deposit_item_static C g j g' :
  0 < C -> C <= INT_MAX -> queue_ok C g -> deposit_item j g = Some g' ->
  jobs_per_producer g' = jobs_per_producer g /\ sem_id g' = sem_id g
  /\ tail (my_queue g') = (tail (my_queue g) + 1) mod C.
Proof.
  intros HC HC' Hok. rewrite (deposit_item_ok C HC HC' g j Hok).
  by intros [= <-].
Qed.

Lemma fetch_item_static C g j g' :
  0 < C -> C <= INT_MAX -> queue_ok C g -> fetch_item g = Some (j, g') ->
  jobs_per_producer g' = jobs_per_producer g /\ sem_id g' = sem_id g
  /\ tail (my_queue g') = tail (my_queue g).
Proof.
  intros HC HC' Hok. destruct (fetch_item_ok C HC HC' g Hok) as (j0 & _ & ->).
  by intros [= <- <-].
Qed.

Lemma step_preserves_ok C J id s tid a s' :
  0 < C -> C <= INT_MAX ->
  system_ok C J id s -> step s tid a s' -> system_ok C J id s'.
Proof.
  intros HC HC' [Hq Hj Hid (vi & vs & vm & Hsems & Hvm & Hcount) Hjob] Hstep.
  destruct Hstep as [tid th inp a w' th' Hth Hts].
  destruct s as [w ths]; simpl in *.
  assert (Hle : holders ths <= 1) by lia.
  pose proof (holders_insert ths tid th th' Hth) as Hins.
  pose proof (job_id_step ths tid th th' (tail (my_queue (vars w)))) as Hstepjob.
  destruct th as [p|c]; simpl in Hts.
  - destruct (producer_step inp w p) as [| | |[[a0 w0] p0]] eqn:Hps;
      try discriminate.
    injection Hts as <- <- <-.
    unfold producer_step in Hps. rewrite Hid in Hps.
    rewrite ?(sem_timed_wait_space _ _ _ _ _ Hsems),
      ?(sem_wait_mutex _ _ _ _ _ Hsems), ?(sem_signal_mutex _ _ _ _ _ Hsems),
      ?(sem_signal_item _ _ _ _ _ Hsems) in Hps.
    destruct (p_pc p) eqn:Hpc; break_step Hps; order_facts.
    all: unfold holds_mutex in Hins; simpl in Hins; rewrite Hpc in Hins.
    all: try (split; simpl;
      [ exact Hq | exact Hj | exact Hid
      | eexists _, _, _; split; [first [exact Hsems | reflexivity]|];
        split; [lia|]; rewrite Hins; lia
      | apply Hstepjob; [done | done | by left
        | intros p' [= <-] [Hp | Hp]; simpl in Hp; try discriminate Hp ] ]).
    + simpl. unfold int_add. rewrite wrap_int_id; [done|].
      destruct Hq. unfold int_range, INT_MIN. lia.
    + simpl. eapply Hjob; [exact Hth | by left].
    + destruct (deposit_item_static C _ _ _ HC HC' Hq Heqo) as (Hj' & Hid' & Ht').
      split; simpl.
      * eapply deposit_item_preserves; eauto.
      * congruence.
      * congruence.
      * eexists _, _, _. split; [exact Hsems|]. split; [lia|]. rewrite Hins. lia.
      * apply Hstepjob; [done | done | | ].
        -- right. simpl. by rewrite Hpc.
        -- intros p' [= <-] [Hp | Hp]; simpl in Hp; discriminate Hp.
  - destruct (consumer_step inp w c) as [| | |[[a0 w0] c0]] eqn:Hcs;
      try discriminate.
    injection Hts as <- <- <-.
    unfold consumer_step in Hcs. rewrite Hid in Hcs.
    rewrite ?(sem_timed_wait_item _ _ _ _ _ Hsems),
      ?(sem_wait_mutex _ _ _ _ _ Hsems), ?(sem_signal_mutex _ _ _ _ _ Hsems),
      ?(sem_signal_space _ _ _ _ _ Hsems) in Hcs.
    destruct (c_pc c) eqn:Hpc; break_step Hcs; order_facts.
    all: unfold holds_mutex in Hins; simpl in Hins; rewrite Hpc in Hins.
    all: try (split; simpl;
      [ exact Hq | exact Hj | exact Hid
      | eexists _, _, _; split; [first [exact Hsems | reflexivity]|];
        split; [lia|]; rewrite Hins; lia
      | apply Hstepjob; [done | done | by left | intros p' [=] ] ]).
    destruct (fetch_item_static C _ _ _ HC HC' Hq Heqo) as (Hj' & Hid' & Ht').
    split; simpl.
    + eapply fetch_item_preserves; eauto.
    + congruence.
    + congruence.
    + eexists _, _, _. split; [exact Hsems|]. split; [lia|]. rewrite Hins. lia.
    + rewrite Ht'. apply Hstepjob; [done | done | by left | intros p' [=]].
Qed.

Lemma thread_step_producer inp w p a w' th' :
  thread_step inp w (Producer p) = Step (a, w', th') ->
  exists p', th' = Producer p' /\ producer_step inp w p = Step (a, w', p').
Proof.
  simpl. destruct (producer_step inp w p) as [| | |[[a0 w0] p0]]; try done.
  intros [= <- <- <-]. eauto.
Qed.

Lemma thread_step_consumer inp w c a w' th' :
  thread_step inp w (Consumer c) = Step (a, w', th') ->
  exists c', th' = Consumer c' /\ consumer_step inp w c = Step (a, w', c').
Proof.
  simpl. destruct (consumer_step inp w c) as [| | |[[a0 w0] c0]]; try done.
  intros [= <- <- <-]. eauto.
Qed.

(** ** The process [main] starts *)

Lemma double_to_int_range v : int_range (double_to_int v).
Proof.
  unfold double_to_int, int_range.
  destruct (INT_MIN <=? v) eqn:H1; destruct (v <=? INT_MAX) eqn:H2; simpl;
    try (unfold INT_MIN, INT_MAX; lia).
  apply Z.leb_le in H1, H2. lia.
Qed.

Lemma add_digit_range num k d : int_range (add_digit num k d).
Proof.
  unfold add_digit. destruct (308 <? k)%nat; [|apply double_to_int_range].
  unfold int_range, INT_MIN, INT_MAX. lia.
Qed.

Lemma check_arg_loop_range rest : forall num,
  int_range num -> int_range (check_arg_loop rest num).
Proof.
  induction rest as [|c rest IH]; intros num Hn; simpl; [done|].
  destruct ((57 <? 0 + char_to_int c) || (0 + char_to_int c <? 48)).
  - unfold int_range, INT_MIN, INT_MAX. lia.
  - apply IH, add_digit_range.
Qed.

Lemma check_arg_range buffer : int_range (check_arg buffer).
Proof.
  unfold check_arg. destruct (String.length buffer =? 0)%nat.
  - unfold int_range, INT_MIN, INT_MAX. lia.
  - apply check_arg_loop_range. unfold int_range, INT_MIN, INT_MAX. lia.
Qed.

Lemma holders_app l1 l2 : holders (l1 ++ l2) = holders l1 + holders l2.
Proof. induction l1 as [|x l1 IH]; simpl; lia. Qed.

Lemma threads_of_main_start g tid th :
  threads_of_main g !! tid = Some th ->
  (exists id, th = Producer (producer_start id))
  \/ (exists id, th = Consumer (consumer_start id)).
Proof.
  intros H. apply list_elem_of_lookup_2, list_elem_of_In in H.
  unfold threads_of_main in H.
  apply in_app_iff in H as [H | H]; apply in_map_iff in H as (k & <- & _); eauto.
Qed.

Lemma holders_threads_of_main g : holders (threads_of_main g) = 0.
Proof.
  unfold threads_of_main. rewrite holders_app.
  assert (H1 : forall l, holders (map (fun k => Producer (producer_start (Z.of_nat k + 1))) l) = 0).
  { induction l as [|x l IH]; simpl; [done|]. by rewrite IH. }
  assert (H2 : forall l, holders (map (fun k => Consumer (consumer_start (Z.of_nat k + 1))) l) = 0).
  { induction l as [|x l IH]; simpl; [done|]. by rewrite IH. }
  by rewrite H1, H2.
Qed.

Lemma actions_of_no_thread tid es :
  Forall (fun e => forall t a, e <> EThread t a) es -> actions_of tid es = [].
Proof.
  induction 1 as [|e es He _ IH]; [done|].
  destruct e; simpl; try done. by destruct (He tid0 a).
Qed.

Lemma actions_of_snoc tid es t a :
  actions_of tid (es ++ [EThread t a]) =
    if (t =? tid)%nat then actions_of tid es ++ [a] else actions_of tid es.
Proof.
  induction es as [|e es IH]; simpl.
  - by destruct (t =? tid)%nat.
  - destruct e; try done. destruct (tid0 =? tid)%nat; [|done].
    rewrite IH. by destruct (t =? tid)%nat.
Qed.

(** What [main] hands over to the threads. *)
Lemma main_startup_system hdr env argv w0 :
  NO_ERROR hdr <= 0 ->
  main_startup hdr env argv world_at_startup = (Running, w0) ->
  0 < buffer_size (vars w0) ->
  buffer_size (vars w0) <= INT_MAX
  /\ int_range (jobs_per_producer (vars w0))
  /\ system_ok (buffer_size (vars w0)) (jobs_per_producer (vars w0))
               (sem_id (vars w0)) (system_of_main w0)
  /\ forall tid, actions_of tid (trace w0) = [].
Proof.
  intros Hno Hrun Hpos.
  destruct (main_startup_running hdr env argv w0 Hno Hrun)
    as (id & d & Hnew & Hvars & Hsems & Htrace).
  rewrite Hvars in *. simpl in *.
  pose proof (check_arg_range (arg argv 1)) as [_ HC].
  split; [done|]. split; [apply check_arg_range|]. split.
  - split; simpl; rewrite ?Hvars; simpl; try done.
    + unfold new_array in Hnew.
      destruct (check_arg (arg argv 1) <? 0); [done|]. injection Hnew as <-.
      split; simpl; try lia. rewrite length_map, length_seq. lia.
    + exists 0, (check_arg (arg argv 1)), 1. split; [done|]. split; [lia|].
      rewrite <- Hvars, holders_threads_of_main. lia.
    + intros tid p Hl Hpc. rewrite <- Hvars in Hl.
      apply threads_of_main_start in Hl as [(i & [= ->]) | (i & [=])].
      simpl in Hpc. by destruct Hpc.
  - intros tid. by apply actions_of_no_thread.
Qed.

Lemma reachable_ok C J id s0 s :
  0 < C -> C <= INT_MAX ->
  system_ok C J id s0 -> reachable s0 s -> system_ok C J id s.
Proof.
  intros HC HC' H0. induction 1 as [|s tid a s' _ IH Hstep]; [done|].
  eapply step_preserves_ok; eauto.
Qed.

Lemma step_deposit inp w th j w' th' :
  thread_step inp w th = Step (ADeposit j, w', th') ->
  exists p, th = Producer p /\ p_pc p = PDeposit /\ j = p_temp_job p
            /\ exists g', deposit_item j (vars w) = Some g' /\ vars w' = g'.
Proof.
  destruct th as [p|c]; intros H.
  - apply thread_step_producer in H as (p' & -> & H).
    unfold producer_step in H.
    destruct (p_pc p) eqn:Hpc; break_step H.
    exists p. repeat split; eauto.
  - apply thread_step_consumer in H as (c' & -> & H).
    unfold consumer_step in H.
    destruct (c_pc c) eqn:Hpc; break_step H.
Qed.

Lemma step_system_step tid inp s a s' :
  step_system tid inp s = Some (a, s') -> step s tid a s'.
Proof.
  unfold step_system. destruct (threads s !! tid) as [th|] eqn:Hth; [|done].
  simpl. destruct (thread_step inp (shared s) th) as [| | |[[a0 w0] th0]] eqn:Hs;
    try done.
  intros [= <- <-]. by eapply step_thread.
Qed.

Lemma run_schedule_reachable sched : forall s0 s s',
  reachable s0 s -> run_schedule sched s = Some s' -> reachable s0 s'.
Proof.
  induction sched as [|[tid inp] sched IH]; intros s0 s s' Hr; simpl.
  - by intros [= <-].
  - destruct (step_system tid inp s) as [[a s1]|] eqn:Hs; [|done]. simpl.
    apply IH. eapply reachable_step; [done|]. by eapply step_system_step.
Qed.

(** C10: in the process started by [main] with a buffer of [C > 0]
    slots, the job of every [deposit_item] step has the id [tail + 1]
    for the value of [tail] at that step, [tail] lies in [[0, C-1]], so
    the id lies in [[1, C]]; the step moves [tail] to [id mod C], so the
    next id is [id mod C + 1]. *)
Theorem job_ids_within_capacity
    (hdr : helper_h) (env : environment) (argv : list string)
    (w0 : world) (s : system) (tid : nat) (j : job) (s' : system) :
  NO_ERROR hdr <= 0 ->
  main_startup hdr env argv world_at_startup = (Running, w0) ->
  0 < buffer_size (vars w0) ->
  reachable (system_of_main w0) s ->
  step s tid (ADeposit j) s' ->
  job_id j = tail (my_queue (vars (shared s))) + 1
  /\ 0 <= tail (my_queue (vars (shared s))) <= buffer_size (vars w0) - 1
  /\ 1 <= job_id j <= buffer_size (vars w0)
  /\ tail (my_queue (vars (shared s'))) = job_id j mod buffer_size (vars w0).
Proof.
  intros Hno Hrun HC Hreach Hstep.
  destruct (main_startup_system hdr env argv w0 Hno Hrun HC) as (HC' & _ & Hok0 & _).
  pose proof (reachable_ok _ _ _ _ _ HC HC' Hok0 Hreach) as [Hq _ _ _ Hjob].
  inversion Hstep as [tid0 th inp a w' th' Hth Hts]; subst.
  apply step_deposit in Hts as (p & -> & Hpc & -> & g' & Hd & Hv).
  pose proof (Hjob tid p Hth (or_intror Hpc)) as Hid.
  destruct (deposit_item_static _ _ _ _ HC HC' Hq Hd) as (_ & _ & Ht).
  destruct Hq as [_ _ _ Htail]. simpl. rewrite Hv, Ht, Hid.
  repeat split; lia.
Qed.

Lemma job_ids_within_capacity_witness :
  job_id (mk_job 1 3) = tail (my_queue (vars (shared example_at_deposit))) + 1
  /\ 0 <= tail (my_queue (vars (shared example_at_deposit)))
     <= buffer_size (vars example_world) - 1
  /\ 1 <= job_id (mk_job 1 3) <= buffer_size (vars example_world)
  /\ tail (my_queue (vars (shared example_after_deposit)))
     = job_id (mk_job 1 3) mod buffer_size (vars example_world).
Proof.
  apply (job_ids_within_capacity example_hdr example_env example_argv
           example_world example_at_deposit 0%nat (mk_job 1 3)
           example_after_deposit).
  - simpl. lia.
  - reflexivity.
  - simpl. lia.
  - apply (run_schedule_reachable
             (schedule_to_job_id ++ [(0, go); (0, go)]%nat)
             _ (system_of_main example_world)); [constructor | reflexivity].
  - apply (step_system_step 0%nat go). reflexivity.
Defined.

(** ** What each thread has done *)

Lemma sem_store_trace id num v w ws :
  sem_store id num v w = Some ws -> trace ws = trace w.
Proof. intros H. by apply sem_store_value in H as (_ & _ & ? & _). Qed.

Lemma sem_wait_trace id num w w' :
  sem_wait id num w = Step w' -> trace w' = trace w.
Proof.
  unfold sem_wait. destruct (sem_value id num w); [|by intros [= <-]].
  destruct (0 <? z); [|done].
  destruct (sem_store id num (z - 1) w) eqn:Hs; intros [= <-]; [|done].
  by eapply sem_store_trace.
Qed.

Lemma sem_signal_trace id num w w' :
  sem_signal id num w = Step w' -> trace w' = trace w.
Proof.
  unfold sem_signal. destruct (sem_value id num w); [|by intros [= <-]].
  destruct (sem_store id num (z + 1) w) eqn:Hs; intros [= <-]; [|done].
  by eapply sem_store_trace.
Qed.

Lemma sem_timed_wait_trace id num d expired w r w' :
  sem_timed_wait id num d expired w = Step (r, w') ->
  trace w' = trace w /\ (r = 0 \/ r = -1).
Proof.
  unfold sem_timed_wait. destruct expired; [intros [= <- <-]; auto|].
  destruct (sem_value id num w); [|intros [= <- <-]; auto].
  destruct (0 <? z); [|done].
  destruct (sem_store id num (z - 1) w) eqn:Hs; intros [= <- <-]; [|auto].
  split; [by eapply sem_store_trace | auto].
Qed.

Lemma thread_step_trace inp w th a w' th' :
  thread_step inp w th = Step (a, w', th') -> trace w' = trace w.
Proof.
  destruct th as [p|c]; intros H.
  - apply thread_step_producer in H as (p' & -> & H).
    unfold producer_step in H.
    destruct (p_pc p) eqn:Hpc; break_step H; try done;
      eauto using sem_wait_trace, sem_signal_trace.
    by eapply sem_timed_wait_trace.
  - apply thread_step_consumer in H as (c' & -> & H).
    unfold consumer_step in H.
    destruct (c_pc c) eqn:Hpc; break_step H; try done;
      eauto using sem_wait_trace, sem_signal_trace.
    all: by eapply sem_timed_wait_trace.
Qed.

(** A property of a producer and its actions that holds at the start and
    that every statement of the producer preserves holds in every
    reachable state. *)
Lemma producer_invariant (I : producer_frame -> list action -> Prop) J s0 :
  (forall tid p, threads s0 !! tid = Some (Producer p) ->
     I p (actions_of tid (trace (shared s0)))) ->
  (forall s, reachable s0 s -> jobs_per_producer (vars (shared s)) = J) ->
  (forall inp w p a w' p' T,
     jobs_per_producer (vars w) = J ->
     producer_step inp w p = Step (a, w', p') -> I p T -> I p' (T ++ [a])) ->
  forall s, reachable s0 s ->
  forall tid p, threads s !! tid = Some (Producer p) ->
    I p (actions_of tid (trace (shared s))).
Proof.
  intros Hinit Hjobs Hpres s Hreach.
  induction Hreach as [|s tid0 a s' Hreach IH Hstep]; [done|].
  intros tid p Hl.
  pose proof (Hjobs s Hreach) as HJ.
  destruct Hstep as [tid0 th inp a w' th' Hth Hts]. simpl in *.
  rewrite (thread_step_trace _ _ _ _ _ _ Hts), actions_of_snoc.
  apply list_lookup_insert_Some in Hl as [(-> & -> & _) | (Hne & Hl)].
  - rewrite Nat.eqb_refl. destruct th as [p0|c0].
    + apply thread_step_producer in Hts as (p' & [= <-] & Hps).
      eapply Hpres; eauto.
    + by apply thread_step_consumer in Hts as (c' & [=] & _).
  - replace (tid0 =? tid)%nat with false by (symmetry; apply Nat.eqb_neq; lia).
    by apply IH.
Qed.

Lemma deposits_in_app T1 T2 :
  deposits_in (T1 ++ T2) = deposits_in T1 + deposits_in T2.
Proof.
  induction T1 as [|a T1 IH]; simpl; [done|]. destruct a; lia.
Qed.

Lemma timed_out_snoc T a :
  timed_out (T ++ [a]) <->
  timed_out T \/ exists r, r <> 0 /\ a = ASemTimedWait space 20 r.
Proof.
  unfold timed_out. split.
  - intros (r & Hr & Hin). apply in_app_iff in Hin as [Hin | [Heq | []]]; eauto.
  - intros [(r & Hr & Hin) | (r & Hr & ->)]; exists r; (split; [done|]);
      apply in_app_iff; simpl; auto.
Qed.

Lemma clean_snoc pid T a :
  clean pid T ->
  (forall r, a = ASemTimedWait space 20 r -> r = 0) ->
  a <> APrintf (ProducerNoMoreJobs pid) ->
  clean pid (T ++ [a]).
Proof.
  intros [Hto Hmsg] Hr Ha. split.
  - rewrite timed_out_snoc. intros [H | (r & Hr0 & ->)]; [done|].
    by specialize (Hr r eq_refl).
  - rewrite in_app_iff. simpl. intros [H | [H | []]]; [done|]. by subst.
Qed.

#[local] Arguments Z.max : simpl never.

Lemma producer_progress_step J inp w p a w' p' T :
  int_range J ->
  jobs_per_producer (vars w) = J ->
  producer_step inp w p = Step (a, w', p') ->
  producer_progress J p T -> producer_progress J p' (T ++ [a]).
Proof.
  intros HJ Hjobs Hstep Hinv. unfold producer_step in Hstep.
  destruct (p_pc p) eqn:Hpc; break_step Hstep; order_facts;
    destruct Hinv as [extra Ht Hc Hd Hi Hr | k T0 r Ht Hr Hc HT Hg
                     | k T0 Ht Hc Hd HT Hf];
    rewrite Hpc in *; simpl in *; try done; try congruence.
  all: try match goal with
           | H1 : p_timeout ?q = ?b, H2 : negb (p_timeout ?q) = _ |- _ =>
               rewrite H1 in H2; simpl in H2; try discriminate H2
           end.
  all: try (destruct Hr as [-> Hr]).
  all: try solve [
    eapply (progress_running _ _ _ 0); simpl;
      [ done | apply clean_snoc; [done | intros; congruence | congruence]
      | rewrite deposits_in_app; simpl; lia | lia | simpl; lia ] ].
  all: try solve [
    eapply (progress_running _ _ _ 1); simpl;
      [ done | apply clean_snoc; [done | intros; congruence | congruence]
      | rewrite deposits_in_app; simpl; lia | lia | simpl; lia ] ].
  all: try solve [
    eapply (progress_gave_up _ _ _ (S k) T0 r); subst k; simpl;
      [ done | done | done | subst T; rewrite <- app_assoc; reflexivity
      | simpl; reflexivity ] ].
  all: try solve [
    eapply (progress_finished _ _ _ (S k) T0); subst k; simpl;
      [ done | done | done | subst T; rewrite <- app_assoc; reflexivity
      | simpl; reflexivity ] ].
  - (* the timed wait *)
    apply sem_timed_wait_trace in Heqo as [_ [-> | ->]]; simpl.
    + eapply (progress_running _ _ _ 0); simpl;
        [ done | apply clean_snoc; [done | by intros r [= <-] | congruence]
        | rewrite deposits_in_app; simpl; lia | lia | simpl; lia ].
    + by eapply (progress_gave_up _ _ _ 0%nat T (-1)).
  - (* i++ *)
    assert (Hi1 : int_add (p_i p) 1 = p_i p + 1).
    { unfold int_add. apply wrap_int_id. unfold int_range, INT_MIN in *. lia. }
    eapply (progress_running _ _ _ 0); simpl; rewrite ?Hi1;
      [ done | apply clean_snoc; [done | intros; congruence | congruence]
      | rewrite deposits_in_app; simpl; lia | lia | simpl; lia ].
  - (* the exhaustion message *)
    eapply (progress_finished _ _ _ 1%nat T); simpl; try done. lia.
Qed.

Lemma in_take {A} (x : A) k l : In x (take k l) -> In x l.
Proof.
  intros H. apply list_elem_of_In. apply list_elem_of_In in H.
  by apply (subseteq_take k l).
Qed.

Lemma split_unique {A} (x y : A) l1 : forall l2 k1 k2,
  l1 ++ x :: l2 = k1 ++ y :: k2 -> ~ In y l1 -> ~ In y l2 ->
  l1 = k1 /\ x = y /\ l2 = k2.
Proof.
  induction l1 as [|a l1 IH]; intros l2 [|b k1] k2 H H1 H2; simpl in *.
  - by injection H as -> ->.
  - injection H as -> ->. destruct H2. apply in_app_iff. simpl. auto.
  - injection H as -> _. tauto.
  - injection H as -> H. destruct (IH l2 k1 k2 H) as (-> & -> & ->); tauto.
Qed.

Lemma producer_progress_start J id : producer_progress J (producer_start id) [].
Proof.
  eapply (progress_running _ _ _ 0); simpl; try done; try lia.
  split; [intros (r & _ & [])|intros []].
Qed.

Lemma not_timed_out_after T0 r k pid :
  r <> 0 -> timed_out (T0 ++ ASemTimedWait space 20 r :: take k (timeout_sequence pid)).
Proof.
  intros Hr. exists r. split; [done|]. apply in_app_iff. simpl. auto.
Qed.

Lemma progress_exhausted J p T :
  producer_progress J p T ->
  In (APrintf (ProducerNoMoreJobs (p_id p))) T ->
  ~ timed_out T /\ deposits_in T = Z.max 0 J.
Proof.
  intros [extra Ht [Hto Hmsg] Hd Hi Hr | k T0 r Ht Hr [Hto Hmsg] -> Hg
         | k T0 Ht [Hto Hmsg] Hd -> Hf] Hin.
  - done.
  - exfalso. apply in_app_iff in Hin as [Hin | [Hin | Hin]]; try done.
    apply in_take in Hin. simpl in Hin. intuition discriminate.
  - split.
    + intros (r & Hr & Hin'). apply in_app_iff in Hin' as [Hin' | Hin'].
      * apply Hto. by exists r.
      * apply in_take in Hin'. simpl in Hin'. intuition discriminate.
    + rewrite deposits_in_app, Hd.
      destruct k as [|[|[|k]]]; simpl; lia.
Qed.

Lemma progress_done J p T :
  producer_progress J p T -> p_pc p = PDone -> ~ timed_out T ->
  In (APrintf (ProducerNoMoreJobs (p_id p))) T.
Proof.
  intros [extra Ht [Hto Hmsg] Hd Hi Hr | k T0 r Ht Hr [Hto Hmsg] -> Hg
         | k T0 Ht [Hto Hmsg] Hd -> Hf] Hpc Hn; rewrite Hpc in *; simpl in *.
  - done.
  - destruct Hn. by apply not_timed_out_after.
  - subst k. apply in_app_iff. simpl. auto.
Qed.

Lemma progress_gave_up_then J p T T1 r T2 :
  producer_progress J p T ->
  T = T1 ++ ASemTimedWait space 20 r :: T2 -> r <> 0 ->
  T2 `prefix_of` timeout_sequence (p_id p)
  /\ (p_pc p = PDone -> T2 = timeout_sequence (p_id p)).
Proof.
  intros [extra Ht [Hto Hmsg] Hd Hi Hr | k T0 r0 Ht Hr [Hto Hmsg] -> Hg
         | k T0 Ht [Hto Hmsg] Hd -> Hf] HT Hr'.
  - destruct Hto. exists r. split; [done|]. subst T. apply in_app_iff. simpl. auto.
  - apply split_unique in HT as (_ & _ & <-).
    + split; [apply prefix_take|]. intros Hpc. rewrite Hpc in Hg. simpl in Hg.
      by subst k.
    + intros Hin. apply Hto. by exists r.
    + intros Hin. apply in_take in Hin. simpl in Hin. intuition discriminate.
  - exfalso.
    assert (Hin : In (ASemTimedWait space 20 r)
                     (T0 ++ take k [APrintf (ProducerNoMoreJobs (p_id p)); APthreadExit])).
    { rewrite HT. apply in_app_iff. simpl. auto. }
    apply in_app_iff in Hin as [Hin | Hin].
    + apply Hto. by exists r.
    + apply in_take in Hin. simpl in Hin. intuition discriminate.
Qed.

(** No statement of a thread changes [jobs_per_producer]. *)
Lemma deposit_item_jobs j g g' :
  deposit_item j g = Some g' -> jobs_per_producer g' = jobs_per_producer g.
Proof.
  unfold deposit_item. destruct (array_set _ _ _); [|done]. simpl.
  destruct (int_rem _ _); [|done]. simpl. by intros [= <-].
Qed.

Lemma fetch_item_jobs j g g' :
  fetch_item g = Some (j, g') -> jobs_per_producer g' = jobs_per_producer g.
Proof.
  unfold fetch_item. destruct (array_get _ _); [|done]. simpl.
  destruct (int_rem _ _); [|done]. simpl. by intros [= <- <-].
Qed.

Lemma sem_wait_vars id num w w' :
  sem_wait id num w = Step w' -> vars w' = vars w.
Proof.
  unfold sem_wait. destruct (sem_value id num w); [|by intros [= <-]].
  destruct (0 <? z); [|done].
  destruct (sem_store id num (z - 1) w) eqn:Hs; intros [= <-]; [|done].
  by apply sem_store_value in Hs as (? & _).
Qed.

Lemma sem_signal_vars id num w w' :
  sem_signal id num w = Step w' -> vars w' = vars w.
Proof.
  unfold sem_signal. destruct (sem_value id num w); [|by intros [= <-]].
  destruct (sem_store id num (z + 1) w) eqn:Hs; intros [= <-]; [|done].
  by apply sem_store_value in Hs as (? & _).
Qed.

Lemma sem_timed_wait_vars id num d expired w r w' :
  sem_timed_wait id num d expired w = Step (r, w') -> vars w' = vars w.
Proof.
  unfold sem_timed_wait. destruct expired; [by intros [= <- <-]|].
  destruct (sem_value id num w); [|by intros [= <- <-]].
  destruct (0 <? z); [|done].
  destruct (sem_store id num (z - 1) w) eqn:Hs; intros [= <- <-]; [|done].
  by apply sem_store_value in Hs as (? & _).
Qed.

Lemma thread_step_jobs inp w th a w' th' :
  thread_step inp w th = Step (a, w', th') ->
  jobs_per_producer (vars w') = jobs_per_producer (vars w).
Proof.
  destruct th as [p|c]; intros H.
  - apply thread_step_producer in H as (p' & -> & H).
    unfold producer_step in H.
    destruct (p_pc p) eqn:Hpc; break_step H; try done; simpl;
      eauto using deposit_item_jobs, f_equal, sem_wait_vars, sem_signal_vars,
        sem_timed_wait_vars.
  - apply thread_step_consumer in H as (c' & -> & H).
    unfold consumer_step in H.
    destruct (c_pc c) eqn:Hpc; break_step H; try done; simpl;
      eauto using fetch_item_jobs, f_equal, sem_wait_vars, sem_signal_vars,
        sem_timed_wait_vars.
Qed.

Lemma reachable_jobs s0 s :
  reachable s0 s ->
  jobs_per_producer (vars (shared s)) = jobs_per_producer (vars (shared s0)).
Proof.
  induction 1 as [|s tid a s' _ IH Hstep]; [done|].
  destruct Hstep as [tid th inp a w' th' Hth Hts]. simpl.
  by rewrite (thread_step_jobs _ _ _ _ _ _ Hts).
Qed.

Lemma reachable_producer_progress hdr env argv w0 s tid p :
  NO_ERROR hdr <= 0 ->
  main_startup hdr env argv world_at_startup = (Running, w0) ->
  reachable (system_of_main w0) s ->
  threads s !! tid = Some (Producer p) ->
  producer_progress (jobs_per_producer (vars w0)) p
                    (actions_of tid (trace (shared s))).
Proof.
  intros Hno Hrun Hreach Hl.
  destruct (main_startup_running hdr env argv w0 Hno Hrun)
    as (id & d & Hnew & Hvars & Hsems & Htrace).
  eapply (producer_invariant _ (jobs_per_producer (vars w0))); eauto.
  - intros tid0 p0 Hl0. simpl. rewrite actions_of_no_thread by done.
    apply threads_of_main_start in Hl0 as [(i & [= ->]) | (i & [=])].
    apply producer_progress_start.
  - intros s1 Hr1. by rewrite (reachable_jobs _ _ Hr1).
  - intros inp w p0 a w' p' T HJ Hstep Hinv.
    eapply producer_progress_step; eauto.
    rewrite Hvars. simpl. apply check_arg_range.
Qed.

(** ** The order of the statements of a producer *)







(** * Further properties of the code *)

(** ** The queue is first-in first-out *)

Section HoldsJobs.
Variable C : Z.
Hypothesis C_pos : 0 < C.
Hypothesis C_int : C <= INT_MAX.

Lemma initial_holds_jobs g :
  queue_ok C g -> head (my_queue g) = tail (my_queue g) -> holds_jobs C g [].
Proof using C_pos.
  intros Hok Heq. split; simpl; try done; try lia.
  rewrite Heq, Z.add_0_r. destruct Hok. by rewrite Z.mod_small by lia.
Qed.

Lemma deposit_holds_jobs g pending j :
  holds_jobs C g pending -> Z.of_nat (length pending) < C ->
  exists g', deposit_item j g = Some g' /\ holds_jobs C g' (pending ++ [j]).
Proof using C_pos C_int.
  intros [Hok Hn Ht Hslots] Hlt.
  pose proof (deposit_item_ok C C_pos C_int g j Hok) as Hd.
  pose proof (deposit_item_preserves C C_pos C_int g j _ Hok Hd) as Hok'.
  destruct Hok as [Hs Hl Hh Htl].
  set (h := head (my_queue g)) in *. set (t := tail (my_queue g)) in *.
  eexists. split; [exact Hd|].
  split; simpl; fold h t; try done.
  - rewrite length_app. simpl. lia.
  - rewrite length_app. simpl. rewrite Ht, Z.add_mod_idemp_l by lia. f_equal. lia.
  - intros k j0 Hk.
    destruct (decide (k = length pending)) as [-> | Hne].
    + rewrite list_lookup_middle in Hk by done. injection Hk as <-.
      rewrite <- Ht. apply list_lookup_insert_eq. lia.
    + assert (Hkl : (k < length pending)%nat).
      { apply lookup_lt_Some in Hk. rewrite length_app in Hk. simpl in Hk. lia. }
      rewrite lookup_app_l in Hk by done.
      rewrite list_lookup_insert_ne; [by apply Hslots|].
      intros Heq. apply Z2Nat.inj in Heq; try lia.
      * revert Heq. rewrite Ht. mod_solve C.
      * apply Z.mod_pos_bound. lia.
Qed.

Lemma fetch_holds_jobs g j rest :
  holds_jobs C g (j :: rest) ->
  exists g', fetch_item g = Some (j, g') /\ holds_jobs C g' rest.
Proof using C_pos C_int.
  intros [Hok Hn Ht Hslots].
  destruct (fetch_item_ok C C_pos C_int g Hok) as (j0 & Hj & Hf).
  pose proof (fetch_item_preserves C C_pos C_int g j0 _ Hok Hf) as Hok'.
  destruct Hok as [Hs Hl Hh Htl].
  set (h := head (my_queue g)) in *. set (t := tail (my_queue g)) in *.
  pose proof (Hslots 0%nat j eq_refl) as H0. simpl in H0. fold h in H0.
  rewrite Z.add_0_r, Z.mod_small in H0 by lia.
  assert (j0 = j) as -> by congruence.
  eexists. split; [exact Hf|].
  simpl in Hn.
  split; simpl; fold h t; try done; try lia.
  - rewrite Ht, Z.add_mod_idemp_l by lia. simpl length. f_equal. lia.
  - intros k j1 Hk. rewrite Z.add_mod_idemp_l by lia.
    specialize (Hslots (S k) j1 Hk). fold h in Hslots.
    replace (h + 1 + Z.of_nat k) with (h + Z.of_nat (S k)) by lia. done.
Qed.

Lemma run_calls_fifo cs : forall g pending,
  holds_jobs C g pending ->
  protocol_from C (Z.of_nat (length pending)) cs ->
  exists es g' pending',
    run_calls cs g = Some (es, g')
    /\ pending ++ deposited_jobs cs = fetched_jobs es ++ pending'
    /\ holds_jobs C g' pending'.
Proof using C_pos C_int.
  induction cs as [|c cs IH]; intros g pending Hh Hp; cbn [run_calls do_call].
  - exists [], g, pending. simpl. by rewrite app_nil_r.
  - destruct c as [j|]; simpl in Hp; destruct Hp as [Hn Hp]; cbn [do_call].
    + destruct (deposit_holds_jobs g pending j Hh Hn) as (g1 & Hd & Hh1).
      rewrite Hd. simpl.
      destruct (IH g1 (pending ++ [j]) Hh1) as (es & g' & pending' & -> & Heq & Hh').
      { rewrite length_app. simpl.
        by replace (Z.of_nat (length pending + 1)) with (Z.of_nat (length pending) + 1) by lia. }
      simpl. exists (Deposited (tail (my_queue g)) j :: es), g', pending'.
      split; [done|]. split; [|done]. simpl. by rewrite <- Heq, <- app_assoc.
    + destruct pending as [|j rest]; [simpl in Hn; lia|].
      destruct (fetch_holds_jobs g j rest Hh) as (g1 & Hf & Hh1).
      rewrite Hf. simpl.
      destruct (IH g1 rest Hh1) as (es & g' & pending' & -> & Heq & Hh').
      { simpl length in Hp.
        by replace (Z.of_nat (S (length rest)) - 1) with (Z.of_nat (length rest)) in Hp by lia. }
      simpl. exists (Fetched (head (my_queue g)) j :: es), g', pending'.
      split; [done|]. split; [|done]. simpl. by rewrite Heq.
Qed.

Lemma run_calls_indices cs : forall g,
  queue_ok C g ->
  exists es g',
    run_calls cs g = Some (es, g')
    /\ head (my_queue g') = (head (my_queue g) + count_fetches cs) mod C
    /\ tail (my_queue g') = (tail (my_queue g) + count_deposits cs) mod C.
Proof using C_pos C_int.
  induction cs as [|c cs IH]; intros g Hok; cbn [run_calls do_call].
  - exists [], g. simpl. destruct Hok. rewrite !Z.add_0_r, !Z.mod_small by lia. done.
  - destruct c as [j|]; cbn [do_call].
    + pose proof (deposit_item_ok C C_pos C_int g j Hok) as Hd.
      pose proof (deposit_item_preserves C C_pos C_int g j _ Hok Hd) as Hok'.
      rewrite Hd. simpl.
      destruct (IH _ Hok') as (es & g' & -> & Hh & Ht). simpl in *.
      eexists _, _. split; [done|]. split; [done|].
      rewrite Ht, Z.add_mod_idemp_l by lia. f_equal. lia.
    + destruct (fetch_item_ok C C_pos C_int g Hok) as (j & _ & Hf).
      pose proof (fetch_item_preserves C C_pos C_int g j _ Hok Hf) as Hok'.
      rewrite Hf. simpl.
      destruct (IH _ Hok') as (es & g' & -> & Hh & Ht). simpl in *.
      eexists _, _. split; [done|]. split; [|done].
      rewrite Hh, Z.add_mod_idemp_l by lia. f_equal. lia.
Qed.

End HoldsJobs.

(** X1: from an initialised queue of capacity [C > 0], a sequence of
    [deposit_item] and [fetch_item] calls that respects the counter
    protocol is served first-in first-out: the jobs returned by the
    fetches are, in order, the first jobs given to the deposits, and the
    jobs not yet fetched are the ones the queue holds from [head] to
    [tail], oldest first. *)
Theorem queue_first_in_first_out
    (C : Z) (fresh : nat -> job) (cs : list queue_call) :
  0 < C -> C <= INT_MAX -> counter_protocol C cs ->
  exists g0 es g' pending,
    initialized_queue C fresh = Some g0
    /\ run_calls cs g0 = Some (es, g')
    /\ deposited_jobs cs = fetched_jobs es ++ pending
    /\ holds_jobs C g' pending.
Proof.
  intros HC HC' Hp.
  destruct (initialized_queue_ok C HC HC' fresh) as (g0 & Hi & Hh & Ht & Hok).
  destruct (run_calls_fifo C HC HC' cs g0 []) as (es & g' & pending & Hr & Heq & Hh').
  { apply initial_holds_jobs; [done|done|congruence]. }
  { apply counter_protocol_from. intros k. destruct (Hp k). simpl. lia. }
  by exists g0, es, g', pending.
Qed.

Lemma queue_first_in_first_out_witness :
  exists g0 es g' pending,
    initialized_queue 2 (fun _ => mk_job 0 0) = Some g0
    /\ run_calls [Deposit (mk_job 1 4); Deposit (mk_job 2 9); Fetch;
                  Deposit (mk_job 1 3); Fetch] g0 = Some (es, g')
    /\ deposited_jobs [Deposit (mk_job 1 4); Deposit (mk_job 2 9); Fetch;
                       Deposit (mk_job 1 3); Fetch] = fetched_jobs es ++ pending
    /\ holds_jobs 2 g' pending.
Proof.
  apply (queue_first_in_first_out 2); [lia | unfold INT_MAX; lia |].
  intros k. do 6 (destruct k as [|k]; [simpl; lia|]). simpl. lia.
Defined.

(** X2: from an initialised queue of capacity [C > 0], after any sequence
    of calls, protocol or not, [head] is the number of [fetch_item] calls
    modulo [C] and [tail] is the number of [deposit_item] calls modulo
    [C]. *)
Theorem indices_count_the_calls
    (C : Z) (fresh : nat -> job) (cs : list queue_call) :
  0 < C -> C <= INT_MAX ->
  exists g0 es g',
    initialized_queue C fresh = Some g0
    /\ run_calls cs g0 = Some (es, g')
    /\ head (my_queue g') = count_fetches cs mod C
    /\ tail (my_queue g') = count_deposits cs mod C.
Proof.
  intros HC HC'.
  destruct (initialized_queue_ok C HC HC' fresh) as (g0 & Hi & Hh & Ht & Hok).
  destruct (run_calls_indices C HC HC' cs g0 Hok) as (es & g' & Hr & Hh' & Ht').
  exists g0, es, g'. rewrite Hh', Ht', Hh, Ht. done.
Qed.

Lemma indices_count_the_calls_witness :
  exists g0 es g',
    initialized_queue 2 (fun _ => mk_job 0 0) = Some g0
    /\ run_calls [Fetch; Deposit (mk_job 1 4); Fetch; Fetch] g0 = Some (es, g')
    /\ head (my_queue g') = count_fetches [Fetch; Deposit (mk_job 1 4); Fetch; Fetch] mod 2
    /\ tail (my_queue g') = count_deposits [Fetch; Deposit (mk_job 1 4); Fetch; Fetch] mod 2.
Proof.
  apply (indices_count_the_calls 2); [lia | unfold INT_MAX; lia].
Defined.

(** X3: the queue itself does not guard against overflow.  When it holds
    as many jobs as it has slots, [deposit_item] still succeeds and
    overwrites the oldest job: the next [fetch_item] returns the job just
    deposited, and the oldest job is lost unless it is stored elsewhere
    in the queue. *)
Theorem deposit_on_full_queue_overwrites_oldest
    (C : Z) (g : globals) (oldest : job) (rest : list job) (J : job) :
  0 < C -> C <= INT_MAX ->
  holds_jobs C g (oldest :: rest) -> Z.of_nat (length (oldest :: rest)) = C ->
  exists g1 g2,
    deposit_item J g = Some g1
    /\ fetch_item g1 = Some (J, g2)
    /\ data (my_queue g1) !! Z.to_nat (head (my_queue g)) = Some J.
Proof.
  intros HC HC' [Hok Hn Ht Hslots] Hfull.
  pose proof (deposit_item_ok C HC HC' g J Hok) as Hd.
  pose proof (deposit_item_preserves C HC HC' g J _ Hok Hd) as Hok1.
  destruct (fetch_item_ok C HC HC' _ Hok1) as (j & Hj & Hf).
  rewrite Hfull in Ht. destruct Hok as [Hs Hl Hh Htl].
  replace (head (my_queue g) + C) with (head (my_queue g) + 1 * C) in Ht by lia.
  rewrite Z.mod_add, Z.mod_small in Ht by lia.
  simpl in Hj. rewrite Ht, list_lookup_insert_eq in Hj by lia.
  injection Hj as <-.
  eexists _, _. split; [exact Hd|]. split; [exact Hf|].
  simpl. rewrite Ht. apply list_lookup_insert_eq. lia.
Qed.

Lemma deposit_on_full_queue_overwrites_oldest_witness :
  exists g1 g2,
    deposit_item (mk_job 1 7)
      (mk_globals 0 0 0 0 2 (mk_queue 0 0 2 [mk_job 1 4; mk_job 2 9])) = Some g1
    /\ fetch_item g1 = Some (mk_job 1 7, g2)
    /\ data (my_queue g1) !! 0%nat = Some (mk_job 1 7).
Proof.
  apply (deposit_on_full_queue_overwrites_oldest 2
           (mk_globals 0 0 0 0 2 (mk_queue 0 0 2 [mk_job 1 4; mk_job 2 9]))
           (mk_job 1 4) [mk_job 2 9] (mk_job 1 7));
    [lia | unfold INT_MAX; lia | | reflexivity].
  split; [split; simpl; lia | simpl; lia | reflexivity |].
  intros [|[|k]] j H; try discriminate H; injection H as <-; reflexivity.
Defined.

(** X4: with [buffer_size] 0, a value [main] accepts, neither queue
    operation has a defined result: the access is outside the empty array
    or the remainder divides by zero. *)
Theorem queue_of_capacity_zero_faults (g : globals) (J : job) :
  buffer_size g = 0 -> deposit_item J g = None /\ fetch_item g = None.
Proof.
  intros H0. unfold deposit_item, fetch_item, int_rem. rewrite H0. simpl.
  split.
  - by destruct (array_set _ _ _).
  - by destruct (array_get _ _).
Qed.

Lemma queue_of_capacity_zero_faults_witness :
  deposit_item (mk_job 1 4) (with_buffer_size 0) = None
  /\ fetch_item (with_buffer_size 0) = None.
Proof.
  apply (queue_of_capacity_zero_faults (with_buffer_size 0)). reflexivity.
Defined.

(** ** [check_arg] reads decimal numerals *)

Lemma is_digit_value c : is_digit c = true -> 0 <= char_to_int c - 48 <= 9.
Proof.
  unfold is_digit. intros H. apply negb_true_iff, orb_false_iff in H as [H1 H2].
  apply Z.ltb_ge in H1, H2. lia.
Qed.

Lemma decimal_value_from_shift digits : forall n,
  decimal_value_from n digits
  = n * 10 ^ Z.of_nat (length digits) + decimal_value_from 0 digits.
Proof.
  unfold decimal_value_from.
  induction digits as [|c digits IH]; intros n; cbn [fold_left length].
  - change (Z.of_nat 0) with 0. lia.
  - rewrite IH, (IH (10 * 0 + _)).
    rewrite Nat2Z.inj_succ, Z.pow_succ_r by lia. lia.
Qed.

Lemma decimal_value_from_nonneg digits : forall n,
  0 <= n -> Forall (fun c => is_digit c = true) digits ->
  0 <= decimal_value_from n digits.
Proof.
  unfold decimal_value_from.
  induction digits as [|c digits IH]; intros n Hn Hd; cbn [fold_left]; [done|].
  inversion Hd as [|?? Hc Hd']; subst. apply IH; [|done].
  apply is_digit_value in Hc. lia.
Qed.

Lemma check_arg_loop_value rest : forall num,
  Forall (fun c => is_digit c = true) rest ->
  (length rest <= 309)%nat ->
  0 <= num -> num + decimal_value_from 0 rest <= INT_MAX ->
  check_arg_loop rest num = num + decimal_value_from 0 rest.
Proof.
  induction rest as [|c rest IH]; intros num Hd Hlen Hn Hmax.
  - unfold decimal_value_from. simpl. lia.
  - inversion Hd as [|?? Hc Hd']; subst.
    pose proof (is_digit_value c Hc) as Hv.
    pose proof (decimal_value_from_nonneg rest 0 ltac:(lia) Hd') as Hr.
    assert (Hshift : decimal_value_from 0 (c :: rest)
                     = (char_to_int c - 48) * 10 ^ Z.of_nat (length rest)
                       + decimal_value_from 0 rest).
    { unfold decimal_value_from at 1. cbn [fold_left].
      change (fold_left _ rest ?n) with (decimal_value_from n rest).
      rewrite decimal_value_from_shift. f_equal; lia. }
    rewrite Hshift in *.
    assert (Hp : 0 <= (char_to_int c - 48) * 10 ^ Z.of_nat (length rest)).
    { apply Z.mul_nonneg_nonneg; [lia|]. apply Z.pow_nonneg. lia. }
    cbn [check_arg_loop]. unfold is_digit in Hc.
    apply negb_true_iff in Hc. rewrite Hc.
    unfold add_digit.
    replace (308 <? length rest)%nat with false
      by (symmetry; apply Nat.ltb_ge; simpl in Hlen; lia).
    unfold double_to_int.
    replace (INT_MIN <=? _) with true
      by (symmetry; apply Z.leb_le; unfold INT_MIN; lia).
    replace (_ <=? INT_MAX) with true by (symmetry; apply Z.leb_le; lia).
    simpl andb. cbv iota.
    rewrite IH; [lia | done | simpl in Hlen; lia | lia | lia].
Qed.

Lemma length_list_ascii_of_string buffer :
  length (list_ascii_of_string buffer) = String.length buffer.
Proof. induction buffer as [|c s IH]; simpl; congruence. Qed.

(** X5: for a non-empty string of at most 309 decimal digits whose value
    fits an [int], [check_arg] returns the number the string denotes. *)
Theorem check_arg_decimal_value (buffer : string) :
  buffer <> EmptyString ->
  Forall (fun c => is_digit c = true) (list_ascii_of_string buffer) ->
  (String.length buffer <= 309)%nat ->
  decimal_value buffer <= INT_MAX ->
  check_arg buffer = decimal_value buffer.
Proof.
  intros Hne Hd Hlen Hmax. unfold check_arg, decimal_value in *.
  destruct buffer as [|c s]; [done|].
  change (String.length (String c s) =? 0)%nat with false. cbv iota.
  rewrite check_arg_loop_value; [lia | done | | lia | lia].
  by rewrite length_list_ascii_of_string.
Qed.

Lemma check_arg_decimal_value_witness :
  check_arg "2147483647" = decimal_value "2147483647".
Proof.
  apply check_arg_decimal_value.
  - discriminate.
  - repeat constructor.
  - simpl. lia.
  - vm_compute. discriminate.
Defined.

Lemma decimal_value_nonneg a :
  Forall (fun c => is_digit c = true) (list_ascii_of_string a) ->
  0 <= decimal_value a.
Proof. intros H. by apply decimal_value_from_nonneg. Qed.

Lemma check_arg_numeral a : numeral a -> check_arg a = decimal_value a.
Proof.
  intros (Hne & Hd & Hlen & Hmax). unfold check_arg, decimal_value in *.
  destruct a as [|c s]; [done|].
  change (String.length (String c s) =? 0)%nat with false. cbv iota.
  rewrite check_arg_loop_value; [lia | done | | lia | lia].
  by rewrite length_list_ascii_of_string.
Qed.

Lemma numerals_not_refused args : forall i,
  Forall numeral args -> first_refused args i = None.
Proof.
  induction args as [|a args IH]; intros i H; [done|].
  inversion H as [|?? Hnum Hrest]; subst.
  cbn [first_refused].
  rewrite check_arg_numeral by done.
  destruct Hnum as (Hne & Hd & Hlen & Hmax).
  pose proof (decimal_value_nonneg a Hd).
  replace (decimal_value a =? -1) with false by (symmetry; apply Z.eqb_neq; lia).
  by apply IH.
Qed.

(** X6: four arguments that are decimal numerals within the range of
    [int] pass the verification loop of [main], and [setup_variables]
    stores the numbers they denote: [argv[1]] in [buffer_size],
    [argv[2]] in [jobs_per_producer], [argv[3]] in [number_of_producers]
    and [argv[4]] in [number_of_consumers]; it changes nothing else. *)
Theorem numerals_are_accepted_and_stored
    (argv : list string) (w : world) :
  length argv = 5%nat ->
  Forall numeral (drop 1 argv) ->
  first_refused (drop 1 argv) 1 = None
  /\ setup_variables argv w
     = (tt, mk_world
              (mk_globals (sem_id (vars w))
                 (decimal_value (arg argv 3)) (decimal_value (arg argv 4))
                 (decimal_value (arg argv 2)) (decimal_value (arg argv 1))
                 (my_queue (vars w)))
              (errno w) (semaphores w) (trace w)).
Proof.
  intros Hlen Hall. split; [by apply numerals_not_refused|].
  destruct (length_five argv Hlen) as (a0 & a1 & a2 & a3 & a4 & ->).
  cbn [drop] in Hall.
  apply Forall_cons in Hall as [N1 Hall].
  apply Forall_cons in Hall as [N2 Hall].
  apply Forall_cons in Hall as [N3 Hall].
  apply Forall_cons in Hall as [N4 _].
  unfold setup_variables, arg. unfold_state. simpl.
  by rewrite !check_arg_numeral.
Qed.

Lemma numerals_are_accepted_and_stored_witness :
  first_refused (drop 1 example_argv) 1 = None
  /\ setup_variables example_argv world_at_startup
     = (tt, mk_world
              (mk_globals (sem_id (vars world_at_startup))
                 (decimal_value (arg example_argv 3))
                 (decimal_value (arg example_argv 4))
                 (decimal_value (arg example_argv 2))
                 (decimal_value (arg example_argv 1))
                 (my_queue (vars world_at_startup)))
              (errno world_at_startup) (semaphores world_at_startup)
              (trace world_at_startup)).
Proof.
  apply (numerals_are_accepted_and_stored example_argv world_at_startup).
  - reflexivity.
  - repeat constructor; try discriminate; simpl; try lia;
      vm_compute; discriminate.
Defined.

(** ** The paths through [main] *)

(** X7: called with a number of arguments other than four, [main] seeds
    the generator, writes the message and returns
    [INCORRECT_NUMBER_OF_ARGUMENTS]; it reads no argument, creates no
    semaphore, no storage and no thread, and changes no variable. *)
Theorem wrong_argument_count_returns
    (hdr : helper_h) (env : environment) (argv : list string) :
  length argv <> 5%nat ->
  main_startup hdr env argv world_at_startup =
    (Returned (INCORRECT_NUMBER_OF_ARGUMENTS hdr),
     mk_world globals_at_startup 0 None
       [ESrand; ECerr "Incorrect number of arguments!"]).
Proof.
  intros Hlen. unfold main_startup.
  replace (Z.of_nat (length argv) =? 5) with false
    by (symmetry; apply Z.eqb_neq; lia).
  reflexivity.
Qed.

Lemma wrong_argument_count_returns_witness :
  main_startup example_hdr example_env ["main"; "2"; "3"]%string world_at_startup =
    (Returned 1,
     mk_world globals_at_startup 0 None
       [ESrand; ECerr "Incorrect number of arguments!"]).
Proof.
  apply (wrong_argument_count_returns example_hdr example_env). simpl. lia.
Defined.

(** X8: when the four arguments are accepted and [semget] fails,
    [sem_create] returns -1, which [main] stores in [sem_id]; [main]
    prints the explanation of the error and returns [errno], the error
    number of [semget].  It initialises and removes no semaphore, reads
    no argument into the variables, and creates no storage and no
    thread. *)
Theorem semget_failure_returns_errno
    (hdr : helper_h) (env : environment) (argv : list string) (e : positive) :
  length argv = 5%nat ->
  first_refused (drop 1 argv) 1 = None ->
  env_semget env = inr e ->
  main_startup hdr env argv world_at_startup =
    (Returned (Z.pos e),
     mk_world (set_sem_id globals_at_startup (-1)) (Z.pos e) None
       [ESrand; ESemget (SEM_KEY hdr) 3 (-1); EPrintSemgetError (Z.pos e)]).
Proof.
  intros Hlen Hargs Hget.
  destruct (length_five argv Hlen) as (a0 & a1 & a2 & a3 & a4 & ->).
  destruct hdr as [key ne e1 e2], env as [sg si sv rm fr st].
  simpl in Hget. cbn [drop] in Hargs. subst sg.
  run_world. rewrite Hargs. run_world. reflexivity.
Qed.

Lemma semget_failure_returns_errno_witness :
  main_startup example_hdr
    (mk_environment (inr 17%positive) (fun _ => 0) (fun _ _ => None) None
                    (fun _ => mk_job 0 0) (fun _ _ => true))
    example_argv world_at_startup =
    (Returned 17,
     mk_world (set_sem_id globals_at_startup (-1)) 17 None
       [ESrand; ESemget 1234 3 (-1); EPrintSemgetError 17]).
Proof.
  apply (semget_failure_returns_errno example_hdr
           (mk_environment (inr 17%positive) (fun _ => 0) (fun _ _ => None) None
                           (fun _ => mk_job 0 0) (fun _ _ => true))
           example_argv 17%positive); reflexivity.
Defined.

(** X9: when the four arguments are accepted, [semget] succeeds, the
    numbers of producers and consumers are not negative and the stack has
    room for the two arrays of thread handles, the three initialisations
    succeed and the buffer size is not negative, [main] reaches the point
    where the workers run.  By then it has, in this order: created the
    set, set [item] to 0, [space] to the buffer size
    and [mutex] to 1, allocated the queue, created the producers with ids
    [1 .. number_of_producers] and then the consumers with ids
    [1 .. number_of_consumers]; the variables hold the values of the
    arguments, in the order buffer size, jobs per producer, producers,
    consumers. *)
Theorem main_starts_the_workers
    (hdr : helper_h) (env : environment) (argv : list string) (id : N) :
  length argv = 5%nat ->
  first_refused (drop 1 argv) 1 = None ->
  env_semget env = inl id ->
  thread_arrays_fit env (check_arg (arg argv 3)) (check_arg (arg argv 4)) = true ->
  first_setval_failure env (check_arg (arg argv 1)) = None ->
  0 <= check_arg (arg argv 1) ->
  exists w0,
    main_startup hdr env argv world_at_startup = (Running, w0)
    /\ 0 <= check_arg (arg argv 3) /\ 0 <= check_arg (arg argv 4)
    /\ semaphores w0 = Some (Z.of_N id, [0; check_arg (arg argv 1); 1])
    /\ buffer_size (vars w0) = check_arg (arg argv 1)
    /\ jobs_per_producer (vars w0) = check_arg (arg argv 2)
    /\ number_of_producers (vars w0) = check_arg (arg argv 3)
    /\ number_of_consumers (vars w0) = check_arg (arg argv 4)
    /\ sem_id (vars w0) = Z.of_N id
    /\ trace w0 =
         [ESrand; ESemget (SEM_KEY hdr) 3 (Z.of_N id);
          ESemctlSetval (Z.of_N id) item 0 0;
          ESemctlSetval (Z.of_N id) space (check_arg (arg argv 1)) 0;
          ESemctlSetval (Z.of_N id) mutex 1 0;
          ENewJobArray (check_arg (arg argv 1))]
         ++ map (fun i => EPthreadCreate true (Z.of_nat i + 1))
                (seq 0 (Z.to_nat (check_arg (arg argv 3))))
         ++ map (fun i => EPthreadCreate false (Z.of_nat i + 1))
                (seq 0 (Z.to_nat (check_arg (arg argv 4)))).
Proof.
  intros Hlen Hargs Hget Hfit Hset Hsize.
  destruct (length_five argv Hlen) as (a0 & a1 & a2 & a3 & a4 & ->).
  destruct hdr as [key ne e1 e2], env as [sg si sv rm fr st].
  simpl in Hget. cbn [drop] in Hargs. subst sg.
  unfold first_setval_failure in Hset. simpl in Hset.
  assert (Hcounts : 0 <= check_arg (arg [a0; a1; a2; a3; a4] 3)
                    /\ 0 <= check_arg (arg [a0; a1; a2; a3; a4] 4)).
  { unfold thread_arrays_fit in Hfit.
    apply andb_true_iff in Hfit as [Hfit _].
    apply andb_true_iff in Hfit as [H3 H4].
    apply negb_true_iff, Z.ltb_ge in H3, H4. done. }
  change (arg [a0; a1; a2; a3; a4] 1) with a1 in *.
  change (arg [a0; a1; a2; a3; a4] 2) with a2 in *.
  change (arg [a0; a1; a2; a3; a4] 3) with a3 in *.
  change (arg [a0; a1; a2; a3; a4] 4) with a4 in *.
  destruct (sv item 0) as [e0|] eqn:H0; [done|].
  destruct (sv space (check_arg a1)) as [e0|] eqn:H1; [done|].
  run_world. rewrite Hargs. run_world.
  assert (Hid : 0 <= Z.of_N id) by lia.
  generalize dependent (Z.of_N id). intros z Hz.
  replace (z <? 0) with false by (symmetry; apply Z.ltb_ge; lia).
  replace (z =? -1) with false by (symmetry; apply Z.eqb_neq; lia).
  run_world. rewrite Hfit. run_world. rewrite ?Z.eqb_refl. run_world.
  rewrite H0. run_world. rewrite ?Z.eqb_refl. run_world.
  rewrite H1. run_world. rewrite ?Z.eqb_refl. run_world.
  rewrite Hset. run_world. rewrite ?Z.eqb_refl. run_world.
  replace (check_arg a1 <? 0) with false by (symmetry; apply Z.ltb_ge; lia).
  run_world. rewrite !create_threads_spec. run_world.
  eexists. split; [reflexivity|]. simpl.
  split; [apply Hcounts|]. split; [apply Hcounts|].
  repeat (split; [reflexivity|]).
  reflexivity.
Qed.

Lemma main_starts_the_workers_witness :
  exists w0,
    main_startup example_hdr example_env example_argv world_at_startup = (Running, w0)
    /\ 0 <= check_arg (arg example_argv 3) /\ 0 <= check_arg (arg example_argv 4)
    /\ semaphores w0 = Some (7, [0; 2; 1])
    /\ buffer_size (vars w0) = 2
    /\ jobs_per_producer (vars w0) = 3
    /\ number_of_producers (vars w0) = 1
    /\ number_of_consumers (vars w0) = 1
    /\ sem_id (vars w0) = 7
    /\ trace w0 =
         [ESrand; ESemget 1234 3 7; ESemctlSetval 7 item 0 0;
          ESemctlSetval 7 space 2 0; ESemctlSetval 7 mutex 1 0; ENewJobArray 2]
         ++ [EPthreadCreate true 1] ++ [EPthreadCreate false 1].
Proof.
  apply (main_starts_the_workers example_hdr example_env example_argv 7%N);
    [reflexivity | reflexivity | reflexivity | reflexivity | reflexivity
     | vm_compute; discriminate].
Defined.

(** X27: when the four arguments are accepted and [semget] succeeds, but
    the number of producers or of consumers is negative or the stack has
    no room for the two arrays of thread handles, the defined part of the
    run of [main] ends at the declaration of the arrays.  Up to there
    [main] has created the semaphore set and read the arguments into the
    variables, and nothing else: no semaphore is initialised, no queue
    allocated, no thread created, and the set is still in the system.
    A number such as [2147483648] passes the check of the arguments and
    is read as a negative number. *)
Theorem arrays_that_do_not_fit_end_main
    (hdr : helper_h) (env : environment) (argv : list string) (id : N) :
  length argv = 5%nat ->
  first_refused (drop 1 argv) 1 = None ->
  env_semget env = inl id ->
  thread_arrays_fit env (check_arg (arg argv 3)) (check_arg (arg argv 4)) = false ->
  main_startup hdr env argv world_at_startup =
    (Terminated,
     mk_world
       (mk_globals (Z.of_N id)
          (check_arg (arg argv 3)) (check_arg (arg argv 4))
          (check_arg (arg argv 2)) (check_arg (arg argv 1))
          (mk_queue 0 0 0 []))
       0
       (Some (Z.of_N id, map (env_seminit env) (seq 0 3)))
       [ESrand; ESemget (SEM_KEY hdr) 3 (Z.of_N id)]).
Proof.
  intros Hlen Hargs Hget Hfit.
  destruct (length_five argv Hlen) as (a0 & a1 & a2 & a3 & a4 & ->).
  destruct hdr as [key ne e1 e2], env as [sg si sv rm fr st].
  simpl in Hget. cbn [drop] in Hargs. subst sg.
  change (arg [a0; a1; a2; a3; a4] 1) with a1 in *.
  change (arg [a0; a1; a2; a3; a4] 2) with a2 in *.
  change (arg [a0; a1; a2; a3; a4] 3) with a3 in *.
  change (arg [a0; a1; a2; a3; a4] 4) with a4 in *.
  run_world. rewrite Hargs. run_world.
  assert (Hid : 0 <= Z.of_N id) by lia.
  generalize dependent (Z.of_N id). intros z Hz.
  replace (z <? 0) with false by (symmetry; apply Z.ltb_ge; lia).
  replace (z =? -1) with false by (symmetry; apply Z.eqb_neq; lia).
  run_world. rewrite Hfit. reflexivity.
Qed.

Lemma arrays_that_do_not_fit_end_main_witness :
  let argv := ["main"; "1"; "1"; "2147483648"; "0"]%string in
  main_startup example_hdr example_env argv world_at_startup =
    (Terminated,
     mk_world
       (mk_globals 7
          (check_arg (arg argv 3)) (check_arg (arg argv 4))
          (check_arg (arg argv 2)) (check_arg (arg argv 1))
          (mk_queue 0 0 0 []))
       0
       (Some (7, map (env_seminit example_env) (seq 0 3)))
       [ESrand; ESemget (SEM_KEY example_hdr) 3 7]).
Proof.
  intros argv.
  apply (arrays_that_do_not_fit_end_main example_hdr example_env argv 7%N);
    reflexivity.
Defined.

(** X10: the last part of [main] ignores the result of [sem_close]: it
    returns [NO_ERROR] also when the removal of the semaphore set fails,
    and the set then stays in the system.  When the removal succeeds the
    set is gone.  In both cases the queue storage is released after the
    call of [sem_close]. *)
Theorem shutdown_ignores_sem_close
    (hdr : helper_h) (env : environment) (w : world) (vals : list Z) :
  semaphores w = Some (sem_id (vars w), vals) ->
  exists w' r,
    main_shutdown hdr env w = (NO_ERROR hdr, w')
    /\ trace w' = trace w ++ [ESemctlRmid (sem_id (vars w)) r; EDeleteJobArray]
    /\ data (my_queue (vars w')) = []
    /\ match env_rmid env with
       | None => r = 0 /\ semaphores w' = None /\ errno w' = errno w
       | Some e => r = -1 /\ semaphores w' = semaphores w /\ errno w' = Z.pos e
       end.
Proof.
  intros Hsems. destruct w as [g e s tr]. simpl in Hsems. subst s.
  destruct env as [sg si sv rm fr st].
  unfold main_shutdown, sem_close, semctl_rmid, fail_with. unfold_state. simpl.
  destruct rm as [e'|]; simpl.
  - eexists _, _. split; [reflexivity|]. simpl.
    rewrite <- app_assoc. by repeat split.
  - rewrite Z.eqb_refl. simpl.
    eexists _, _. split; [reflexivity|]. simpl.
    rewrite <- app_assoc. by repeat split.
Qed.

Lemma shutdown_ignores_sem_close_witness :
  exists w' r,
    main_shutdown example_hdr
      (mk_environment (inl 7%N) (fun _ => 0) (fun _ _ => None) (Some 1%positive)
                      (fun _ => mk_job 0 0) (fun _ _ => true))
      example_world = (0, w')
    /\ trace w' = trace example_world ++ [ESemctlRmid 7 r; EDeleteJobArray]
    /\ data (my_queue (vars w')) = []
    /\ (r = -1 /\ semaphores w' = semaphores example_world /\ errno w' = 1).
Proof.
  apply (shutdown_ignores_sem_close example_hdr
           (mk_environment (inl 7%N) (fun _ => 0) (fun _ _ => None) (Some 1%positive)
                           (fun _ => mk_job 0 0) (fun _ _ => true))
           example_world [0; 2; 1]).
  reflexivity.
Defined.

(** X11: [initialize_required_semaphores] sets [item], [space] and
    [mutex] in this order and stops at the first [sem_init] that fails:
    it writes the message that names that semaphore and returns [errno],
    the error number of the failed call; the semaphores before it hold
    their new values, the failed one and the ones after it are left as
    they were, and no further [semctl] call is made. *)
Theorem initialization_stops_at_first_failure
    (hdr : helper_h) (env : environment) (w : world) (vi vs vm : Z)
    (e : positive) :
  semaphores w = Some (sem_id (vars w), [vi; vs; vm]) ->
  first_setval_failure env (buffer_size (vars w)) = Some e ->
  let id := sem_id (vars w) in
  let C := buffer_size (vars w) in
  exists sems evs,
    initialize_required_semaphores hdr env w
    = (Z.pos e, mk_world (vars w) (Z.pos e) (Some (id, sems)) (trace w ++ evs))
    /\ match env_setval env item 0, env_setval env space C with
       | Some _, _ =>
           sems = [vi; vs; vm]
           /\ evs = [ESemctlSetval id item 0 (-1);
                     ECerr "Error found in semaphore 'item' initialization due to: "]
       | None, Some _ =>
           sems = [0; vs; vm]
           /\ evs = [ESemctlSetval id item 0 0; ESemctlSetval id space C (-1);
                     ECerr "Error found in semaphore 'space' initialization due to: "]
       | None, None =>
           sems = [0; C; vm]
           /\ evs = [ESemctlSetval id item 0 0; ESemctlSetval id space C 0;
                     ESemctlSetval id mutex 1 (-1);
                     ECerr "Error found in semaphore 'mutex' initialization due to: "]
       end.
Proof.
  intros Hsems Hfail id C. subst id C.
  destruct w as [g e0 s tr]. simpl in Hsems. subst s.
  destruct hdr as [key ne e1 e2], env as [sg si sv rm fr st].
  unfold first_setval_failure in Hfail. simpl in *.
  run_world. rewrite ?Z.eqb_refl.
  destruct (sv item 0) as [e'|]; run_world.
  { injection Hfail as ->. rewrite <- !app_assoc.
    eexists _, _. split; [reflexivity|]. done. }
  rewrite ?Z.eqb_refl. run_world.
  destruct (sv space (buffer_size g)) as [e'|]; run_world.
  { injection Hfail as ->. rewrite <- !app_assoc.
    eexists _, _. split; [reflexivity|]. done. }
  rewrite ?Z.eqb_refl. run_world. rewrite Hfail. run_world.
  rewrite <- !app_assoc. eexists _, _. split; [reflexivity|]. done.
Qed.

Lemma initialization_stops_at_first_failure_witness :
  let env := mk_environment (inl 7%N) (fun _ => 0)
               (fun num _ => if num =? space then Some 34%positive else None)
               None (fun _ => mk_job 0 0) (fun _ _ => true) in
  let w := mk_world (mk_globals 7 1 1 3 2 (mk_queue 0 0 0 [])) 0
                    (Some (7, [5; 6; 8])) [] in
  exists sems evs,
    initialize_required_semaphores example_hdr env w
    = (34, mk_world (vars w) 34 (Some (7, sems)) (trace w ++ evs))
    /\ sems = [0; 6; 8]
    /\ evs = [ESemctlSetval 7 item 0 0; ESemctlSetval 7 space 2 (-1);
              ECerr "Error found in semaphore 'space' initialization due to: "].
Proof.
  intros env w.
  apply (initialization_stops_at_first_failure example_hdr env w 5 6 8
           34%positive); reflexivity.
Defined.

(** ** The running process: the semaphores count the queue *)

Lemma total_insert f ths : forall tid th th',
  ths !! tid = Some th ->
  total f (<[tid := th']> ths) = total f ths - f th + f th'.
Proof.
  induction ths as [|x ths IH]; intros [|tid] th th' H; simpl in *; try done.
  - injection H as ->. lia.
  - rewrite (IH tid th th' H). lia.
Qed.

Lemma total_nonneg f ths : (forall th, 0 <= f th) -> 0 <= total f ths.
Proof.
  intros Hf. induction ths as [|th ths IH]; simpl; [lia|].
  pose proof (Hf th). lia.
Qed.

Lemma total_lookup f ths : (forall th, 0 <= f th) -> forall tid th,
  ths !! tid = Some th -> f th <= total f ths.
Proof.
  intros Hf. induction ths as [|x ths IH]; intros [|tid] th H; simpl in *; try done.
  - injection H as ->. pose proof (total_nonneg f ths Hf). lia.
  - pose proof (IH tid th H). pose proof (Hf x). lia.
Qed.

Lemma total_zero f ths : Forall (fun th => f th = 0) ths -> total f ths = 0.
Proof. induction 1 as [|th ths H _ IH]; simpl; lia. Qed.

Lemma reserved_space_nonneg th : 0 <= reserved_space th.
Proof.
  destruct th as [p|c]; simpl; [|lia].
  destruct (p_pc p); try lia. destruct (p_timeout p); lia.
Qed.

Lemma unsignalled_item_nonneg th : 0 <= unsignalled_item th.
Proof. destruct th as [p|c]; simpl; [|lia]. destruct (p_pc p); lia. Qed.

Lemma reserved_item_nonneg th : 0 <= reserved_item th.
Proof. destruct th as [p|c]; simpl; [lia|]. destruct (c_pc c); lia. Qed.

Lemma unsignalled_space_nonneg th : 0 <= unsignalled_space th.
Proof. destruct th as [p|c]; simpl; [lia|]. destruct (c_pc c); lia. Qed.

Lemma deposits_of_app es1 es2 :
  deposits_of (es1 ++ es2) = deposits_of es1 ++ deposits_of es2.
Proof.
  induction es1 as [|e es1 IH]; [done|].
  destruct e as [| | | | | | | | | | | |tid a]; simpl; try done.
  destruct a; simpl; by rewrite ?IH.
Qed.

Lemma fetches_of_app es1 es2 :
  fetches_of (es1 ++ es2) = fetches_of es1 ++ fetches_of es2.
Proof.
  induction es1 as [|e es1 IH]; [done|].
  destruct e as [| | | | | | | | | | | |tid a]; simpl; try done.
  destruct a; simpl; by rewrite ?IH.
Qed.

Lemma deposits_of_no_thread es :
  Forall (fun e => forall tid a, e <> EThread tid a) es -> deposits_of es = [].
Proof.
  induction 1 as [|e es He _ IH]; [done|].
  destruct e; simpl; try done. by destruct (He tid a).
Qed.

Lemma fetches_of_no_thread es :
  Forall (fun e => forall tid a, e <> EThread tid a) es -> fetches_of es = [].
Proof.
  induction 1 as [|e es He _ IH]; [done|].
  destruct e; simpl; try done. by destruct (He tid a).
Qed.

Lemma step_preserves_counts C J id s tid a s' pending :
  0 < C -> C <= INT_MAX ->
  system_ok C J id s -> system_counts C id s pending -> step s tid a s' ->
  exists pending',
    system_counts C id s' pending'
    /\ match a with
       | ADeposit j => Z.of_nat (length pending) < C /\ pending' = pending ++ [j]
       | AFetch j => pending = j :: pending'
       | _ => pending' = pending
       end.
Proof.
  intros HC HC' [Hq Hj Hid _ _]
    [Hh (vi & vs & vm & Hsems & Hvi & Hvs & Hitem & Hspace) Hfifo] Hstep.
  destruct Hstep as [tid th inp a w' th' Hth Hts].
  destruct s as [w ths]; simpl in *.
  pose proof (total_insert reserved_space ths tid th th' Hth) as Irs.
  pose proof (total_insert unsignalled_item ths tid th th' Hth) as Iui.
  pose proof (total_insert reserved_item ths tid th th' Hth) as Iri.
  pose proof (total_insert unsignalled_space ths tid th th' Hth) as Ius.
  pose proof (total_lookup _ ths reserved_space_nonneg tid th Hth) as Lrs.
  pose proof (total_lookup _ ths unsignalled_item_nonneg tid th Hth) as Lui.
  pose proof (total_lookup _ ths reserved_item_nonneg tid th Hth) as Lri.
  pose proof (total_lookup _ ths unsignalled_space_nonneg tid th Hth) as Lus.
  pose proof (total_nonneg _ ths reserved_space_nonneg) as Nrs.
  pose proof (total_nonneg _ ths unsignalled_item_nonneg) as Nui.
  pose proof (total_nonneg _ ths reserved_item_nonneg) as Nri.
  pose proof (total_nonneg _ ths unsignalled_space_nonneg) as Nus.
  destruct th as [p|c]; simpl in Hts.
  - destruct (producer_step inp w p) as [| | |[[a0 w0] p0]] eqn:Hps;
      try discriminate.
    injection Hts as <- <- <-.
    unfold producer_step in Hps. rewrite Hid in Hps.
    rewrite ?(sem_timed_wait_space _ _ _ _ _ Hsems),
      ?(sem_wait_mutex _ _ _ _ _ Hsems), ?(sem_signal_mutex _ _ _ _ _ Hsems),
      ?(sem_signal_item _ _ _ _ _ Hsems) in Hps.
    destruct p as [pc pid pto ptj pi pd]. simpl in *.
    destruct pc; break_step Hps; order_facts; simpl in *.
    all: try (exists pending; split; [|done]; split; simpl;
      [ exact Hh
      | eexists _, _, _; split; [first [exact Hsems | reflexivity]|];
        rewrite Irs, Iui, Iri, Ius; lia
      | rewrite deposits_of_app, fetches_of_app; simpl;
        rewrite !app_nil_r; exact Hfifo ]).
    assert (Hlt : Z.of_nat (length pending) < C) by lia.
    destruct (deposit_holds_jobs C HC HC' _ pending ptj Hh Hlt) as (g' & Hd & Hh').
    rewrite Hd in Heqo. injection Heqo as <-.
    exists (pending ++ [ptj]). split; [|done]. split; simpl.
    + exact Hh'.
    + eexists _, _, _. split; [exact Hsems|].
      rewrite Irs, Iui, Iri, Ius, length_app. simpl. lia.
    + rewrite deposits_of_app, fetches_of_app. simpl.
      by rewrite app_nil_r, Hfifo, app_assoc.
  - destruct (consumer_step inp w c) as [| | |[[a0 w0] c0]] eqn:Hcs;
      try discriminate.
    injection Hts as <- <- <-.
    unfold consumer_step in Hcs. rewrite Hid in Hcs.
    rewrite ?(sem_timed_wait_item _ _ _ _ _ Hsems),
      ?(sem_wait_mutex _ _ _ _ _ Hsems), ?(sem_signal_mutex _ _ _ _ _ Hsems),
      ?(sem_signal_space _ _ _ _ _ Hsems) in Hcs.
    destruct c as [pc cid ctj]. simpl in *.
    destruct pc; break_step Hcs; order_facts; simpl in *.
    all: try (exists pending; split; [|done]; split; simpl;
      [ exact Hh
      | eexists _, _, _; split; [first [exact Hsems | reflexivity]|];
        rewrite Irs, Iui, Iri, Ius; lia
      | rewrite deposits_of_app, fetches_of_app; simpl;
        rewrite !app_nil_r; exact Hfifo ]).
    destruct pending as [|j0 rest]; [simpl in Hitem; lia|].
    destruct (fetch_holds_jobs C HC HC' _ j0 rest Hh) as (g' & Hf & Hh').
    rewrite Hf in Heqo. injection Heqo as <- <-.
    exists rest. split; [|done]. split; simpl.
    + exact Hh'.
    + eexists _, _, _. split; [exact Hsems|].
      rewrite Irs, Iui, Iri, Ius. simpl length in *. lia.
    + rewrite deposits_of_app, fetches_of_app. simpl.
      by rewrite app_nil_r, Hfifo, <- app_assoc.
Qed.

Lemma total_app f ths1 ths2 : total f (ths1 ++ ths2) = total f ths1 + total f ths2.
Proof. induction ths1 as [|th ths1 IH]; simpl; lia. Qed.

Lemma total_threads_of_main f g :
  (forall id, f (Producer (producer_start id)) = 0) ->
  (forall id, f (Consumer (consumer_start id)) = 0) ->
  total f (threads_of_main g) = 0.
Proof.
  intros Hp Hc. apply total_zero, Forall_lookup. intros tid th Hl.
  apply threads_of_main_start in Hl as [(id & ->) | (id & ->)]; auto.
Qed.

(** The accounting holds when [main] has created the threads. *)
Lemma main_startup_counts hdr env argv w0 :
  NO_ERROR hdr <= 0 ->
  main_startup hdr env argv world_at_startup = (Running, w0) ->
  0 < buffer_size (vars w0) ->
  system_counts (buffer_size (vars w0)) (sem_id (vars w0)) (system_of_main w0) [].
Proof.
  intros Hno Hrun HC.
  destruct (main_startup_system hdr env argv w0 Hno Hrun HC) as (HC' & _ & [Hq _ _ _ _] & _).
  destruct (main_startup_running hdr env argv w0 Hno Hrun)
    as (id & d & Hnew & Hvars & Hsems & Htrace).
  split; simpl.
  - apply initial_holds_jobs; [done | done |]. by rewrite Hvars.
  - exists 0, (buffer_size (vars w0)), 1. rewrite Hsems.
    rewrite !total_threads_of_main by done. simpl.
    rewrite Hvars in HC |- *. simpl in *. repeat split; lia.
  - by rewrite deposits_of_no_thread, fetches_of_no_thread.
Qed.

Lemma reachable_counts C J id s0 s pending0 :
  0 < C -> C <= INT_MAX ->
  system_ok C J id s0 -> system_counts C id s0 pending0 -> reachable s0 s ->
  exists pending, system_counts C id s pending.
Proof.
  intros HC HC' Hok0 Hc0. induction 1 as [|s tid a s' Hreach IH Hstep]; [eauto|].
  destruct IH as (pending & Hc).
  pose proof (reachable_ok _ _ _ _ _ HC HC' Hok0 Hreach) as Hok.
  destruct (step_preserves_counts _ _ _ _ _ _ _ _ HC HC' Hok Hc Hstep)
    as (pending' & Hc' & _).
  eauto.
Qed.

(** Every state of the process [main] starts satisfies both invariants. *)
Lemma reachable_from_main hdr env argv w0 s :
  NO_ERROR hdr <= 0 ->
  main_startup hdr env argv world_at_startup = (Running, w0) ->
  0 < buffer_size (vars w0) ->
  reachable (system_of_main w0) s ->
  buffer_size (vars w0) <= INT_MAX
  /\ system_ok (buffer_size (vars w0)) (jobs_per_producer (vars w0))
               (sem_id (vars w0)) s
  /\ exists pending,
       system_counts (buffer_size (vars w0)) (sem_id (vars w0)) s pending.
Proof.
  intros Hno Hrun HC Hreach.
  destruct (main_startup_system hdr env argv w0 Hno Hrun HC) as (HC' & _ & Hok0 & _).
  pose proof (main_startup_counts hdr env argv w0 Hno Hrun HC) as Hc0.
  split; [done|]. split.
  - eapply reachable_ok; eauto.
  - eapply reachable_counts; eauto.
Qed.

Lemma example_reachable sched s :
  run_schedule sched (system_of_main example_world) = Some s ->
  reachable (system_of_main example_world) s.
Proof. apply run_schedule_reachable. constructor. Qed.

(** X12: in the process started by [main], at most one thread is between
    its [sem_wait (sem_id, mutex)] and its [sem_signal (sem_id, mutex)]:
    while one thread is there, every other thread is outside and the
    mutex semaphore is 0. *)
Theorem mutual_exclusion
    (hdr : helper_h) (env : environment) (argv : list string)
    (w0 : world) (s : system) (tid1 tid2 : nat) (th1 th2 : thread) :
  NO_ERROR hdr <= 0 ->
  main_startup hdr env argv world_at_startup = (Running, w0) ->
  0 < buffer_size (vars w0) ->
  reachable (system_of_main w0) s ->
  threads s !! tid1 = Some th1 -> in_critical_section th1 = true ->
  sem_value (sem_id (vars w0)) mutex (shared s) = Some 0
  /\ (threads s !! tid2 = Some th2 -> tid1 <> tid2 ->
      in_critical_section th2 = false).
Proof.
  intros Hno Hrun HC Hreach H1 Hcs.
  destruct (reachable_from_main hdr env argv w0 s Hno Hrun HC Hreach)
    as (_ & [_ _ _ (vi & vs & vm & Hsems & Hvm & Hcount) _] & _).
  pose proof (holders_lookup _ _ _ H1) as Hl.
  unfold holds_mutex in Hl. rewrite Hcs in Hl.
  split.
  - unfold sem_value. rewrite Hsems, Z.eqb_refl.
    change (array_get [vi; vs; vm] mutex) with (Some vm). f_equal. lia.
  - intros H2 Hne.
    pose proof (holders_two _ _ _ _ _ H1 H2 Hne) as H12.
    unfold holds_mutex in H12. rewrite Hcs in H12.
    destruct (in_critical_section th2); [lia | done].
Qed.

Lemma mutual_exclusion_witness :
  sem_value (sem_id (vars example_world)) mutex (shared example_at_deposit) = Some 0
  /\ (threads example_at_deposit !! 1%nat = Some (Consumer (consumer_start 1)) ->
      0%nat <> 1%nat ->
      in_critical_section (Consumer (consumer_start 1)) = false).
Proof.
  apply (mutual_exclusion example_hdr example_env example_argv example_world
           example_at_deposit 0%nat 1%nat
           (Producer (mk_producer PDeposit 1 false (mk_job 1 3) 0 3))
           (Consumer (consumer_start 1))).
  - simpl. lia.
  - reflexivity.
  - simpl. lia.
  - apply (example_reachable (schedule_to_job_id ++ [(0, go); (0, go)]%nat)).
    reflexivity.
  - reflexivity.
  - reflexivity.
Defined.

(** X13: in the process started by [main] with a buffer of [C > 0]
    slots, under every interleaving the jobs are fetched in the order in
    which they were deposited: the jobs fetched so far are the first of
    the jobs deposited so far, each fetched once, and the others, at most
    [C], are the ones the queue holds from [head] to [tail]. *)
Theorem jobs_fetched_in_deposit_order
    (hdr : helper_h) (env : environment) (argv : list string)
    (w0 : world) (s : system) :
  NO_ERROR hdr <= 0 ->
  main_startup hdr env argv world_at_startup = (Running, w0) ->
  0 < buffer_size (vars w0) ->
  reachable (system_of_main w0) s ->
  exists pending,
    deposits_of (trace (shared s)) = fetches_of (trace (shared s)) ++ pending
    /\ Z.of_nat (length pending) <= buffer_size (vars w0)
    /\ holds_jobs (buffer_size (vars w0)) (vars (shared s)) pending.
Proof.
  intros Hno Hrun HC Hreach.
  destruct (reachable_from_main hdr env argv w0 s Hno Hrun HC Hreach)
    as (_ & _ & pending & [Hh _ Hfifo]).
  exists pending. split; [done|]. split; [|done]. by destruct Hh.
Qed.

Lemma jobs_fetched_in_deposit_order_witness :
  exists pending,
    deposits_of (trace (shared example_after_fetch))
    = fetches_of (trace (shared example_after_fetch)) ++ pending
    /\ Z.of_nat (length pending) <= buffer_size (vars example_world)
    /\ holds_jobs (buffer_size (vars example_world))
                  (vars (shared example_after_fetch)) pending.
Proof.
  apply (jobs_fetched_in_deposit_order example_hdr example_env example_argv
           example_world example_after_fetch).
  - simpl. lia.
  - reflexivity.
  - simpl. lia.
  - apply (example_reachable
             (schedule_to_job_id
              ++ [(0, go); (0, go); (0, go); (0, go); (0, go); (1, go); (1, go);
                  (1, go)]%nat)).
    reflexivity.
Defined.

(** X14: in the process started by [main] with a buffer of [C > 0]
    slots, the semaphores count the queue.  With [n] the number of jobs
    deposited and not yet fetched: [item] is [n] less the consumers that
    have taken a unit of [item] and not yet fetched and the producers that
    have deposited and not yet signalled; [space] is [C - n] less the
    producers that have taken a unit of [space] and not yet deposited and
    the consumers that have fetched and not yet signalled; [mutex] is 1
    less the threads in their critical section.  No semaphore is
    negative, so [0 <= n <= C], [item <= n] and [space <= C - n]. *)
Theorem semaphores_count_the_queue
    (hdr : helper_h) (env : environment) (argv : list string)
    (w0 : world) (s : system) :
  NO_ERROR hdr <= 0 ->
  main_startup hdr env argv world_at_startup = (Running, w0) ->
  0 < buffer_size (vars w0) ->
  reachable (system_of_main w0) s ->
  exists vi vs vm n,
    semaphores (shared s) = Some (sem_id (vars w0), [vi; vs; vm])
    /\ n = Z.of_nat (length (deposits_of (trace (shared s))))
           - Z.of_nat (length (fetches_of (trace (shared s))))
    /\ vi = n - total reserved_item (threads s) - total unsignalled_item (threads s)
    /\ vs = buffer_size (vars w0) - n
            - total reserved_space (threads s) - total unsignalled_space (threads s)
    /\ vm = 1 - holders (threads s)
    /\ 0 <= vi <= n /\ 0 <= vs <= buffer_size (vars w0) - n /\ 0 <= vm <= 1.
Proof.
  intros Hno Hrun HC Hreach.
  destruct (reachable_from_main hdr env argv w0 s Hno Hrun HC Hreach)
    as (_ & [_ _ _ (vi0 & vs0 & vm & Hsems0 & Hvm & Hcount) _]
        & pending & [Hh (vi & vs & vm' & Hsems & Hvi & Hvs & Hitem & Hspace) Hfifo]).
  rewrite Hsems in Hsems0. injection Hsems0 as <- <- <-.
  pose proof (total_nonneg _ (threads s) reserved_space_nonneg).
  pose proof (total_nonneg _ (threads s) unsignalled_item_nonneg).
  pose proof (total_nonneg _ (threads s) reserved_item_nonneg).
  pose proof (total_nonneg _ (threads s) unsignalled_space_nonneg).
  pose proof (holders_nonneg (threads s)).
  exists vi, vs, vm', (Z.of_nat (length pending)).
  split; [done|]. rewrite Hfifo, length_app.
  repeat split; lia.
Qed.

Lemma semaphores_count_the_queue_witness :
  exists vi vs vm n,
    semaphores (shared example_at_fetch)
    = Some (sem_id (vars example_world), [vi; vs; vm])
    /\ n = Z.of_nat (length (deposits_of (trace (shared example_at_fetch))))
           - Z.of_nat (length (fetches_of (trace (shared example_at_fetch))))
    /\ vi = n - total reserved_item (threads example_at_fetch)
            - total unsignalled_item (threads example_at_fetch)
    /\ vs = buffer_size (vars example_world) - n
            - total reserved_space (threads example_at_fetch)
            - total unsignalled_space (threads example_at_fetch)
    /\ vm = 1 - holders (threads example_at_fetch)
    /\ 0 <= vi <= n /\ 0 <= vs <= buffer_size (vars example_world) - n
    /\ 0 <= vm <= 1.
Proof.
  apply (semaphores_count_the_queue example_hdr example_env example_argv
           example_world example_at_fetch).
  - simpl. lia.
  - reflexivity.
  - simpl. lia.
  - apply (example_reachable
             (schedule_to_job_id
              ++ [(0, go); (0, go); (0, go); (0, go); (0, go); (1, go); (1, go)]%nat)).
    reflexivity.
Defined.

(** ** The running process: no fault, no deadlock *)

Lemma produce_value lo n r :
  int_range lo -> 0 < n -> lo + n - 1 <= INT_MAX ->
  produce lo n (Z.of_N r) = Some (lo + Z.of_N r mod n).
Proof.
  intros Hlo Hn Hs. unfold produce. rewrite int_rem_pos by lia. simpl.
  pose proof (Z.mod_pos_bound (Z.of_N r) n Hn).
  unfold int_add. rewrite wrap_int_id; [done|]. unfold int_range in *. lia.
Qed.

Lemma produce_1_10 r :
  exists d, produce 1 10 (Z.of_N r) = Some d /\ 1 <= d <= 10.
Proof.
  eexists. split.
  - apply produce_value; unfold int_range, INT_MIN, INT_MAX; lia.
  - pose proof (Z.mod_pos_bound (Z.of_N r) 10). lia.
Qed.

Lemma produce_1_5 r :
  exists d, produce 1 5 (Z.of_N r) = Some d /\ 1 <= d <= 5.
Proof.
  eexists. split.
  - apply produce_value; unfold int_range, INT_MIN, INT_MAX; lia.
  - pose proof (Z.mod_pos_bound (Z.of_N r) 5). lia.
Qed.

Section Enabled.
Variables (C id vi vs vm : Z) (w : world).
Hypothesis C_pos : 0 < C.
Hypothesis C_int : C <= INT_MAX.
Hypothesis Hq : queue_ok C (vars w).
Hypothesis Hid : sem_id (vars w) = id.
Hypothesis Hsems : semaphores w = Some (id, [vi; vs; vm]).

Lemma producer_step_no_fault inp p : producer_step inp w p <> Fault.
Proof using C_pos C_int Hq Hid Hsems.
  unfold producer_step. rewrite Hid.
  rewrite ?(sem_timed_wait_space _ _ _ _ _ Hsems),
    ?(sem_wait_mutex _ _ _ _ _ Hsems), ?(sem_signal_mutex _ _ _ _ _ Hsems),
    ?(sem_signal_item _ _ _ _ _ Hsems).
  destruct (produce_1_10 (in_rand inp)) as (d1 & -> & _).
  destruct (produce_1_5 (in_rand inp)) as (d2 & -> & _).
  rewrite (deposit_item_ok C C_pos C_int _ _ Hq).
  destruct (p_pc p); try done.
  - by destruct (p_i p <? _).
  - destruct (in_expired inp); [done|]. by destruct (0 <? vs).
  - by destruct (p_timeout p).
  - by destruct (0 <? vm).
  - by destruct (negb (p_timeout p)).
Qed.

Lemma consumer_step_no_fault inp c : consumer_step inp w c <> Fault.
Proof using C_pos C_int Hq Hid Hsems.
  unfold consumer_step. rewrite Hid.
  rewrite ?(sem_timed_wait_item _ _ _ _ _ Hsems),
    ?(sem_wait_mutex _ _ _ _ _ Hsems), ?(sem_signal_mutex _ _ _ _ _ Hsems),
    ?(sem_signal_space _ _ _ _ _ Hsems).
  destruct (fetch_item_ok C C_pos C_int _ Hq) as (j & _ & ->).
  destruct (c_pc c); try done.
  - destruct (in_expired inp); [done|]. by destruct (0 <? vi).
  - by destruct (0 <? vm).
Qed.

Lemma thread_step_no_fault inp th : thread_step inp w th <> Fault.
Proof using C_pos C_int Hq Hid Hsems.
  destruct th as [p|c]; simpl.
  - pose proof (producer_step_no_fault inp p).
    by destruct (producer_step inp w p) as [| | |[[a0 w0] p0]].
  - pose proof (consumer_step_no_fault inp c).
    by destruct (consumer_step inp w c) as [| | |[[a0 w0] c0]].
Qed.

(** With a timed wait that gives up rather than wait, a thread that has
    not finished has a next step, unless it waits for a mutex that is
    taken. *)
Lemma thread_enabled th :
  finished th = false ->
  (exists a w' th', thread_step (mk_input 0 true) w th = Step (a, w', th'))
  \/ (in_critical_section th = false /\ vm <= 0).
Proof using C_pos C_int Hq Hid Hsems.
  intros Hfin. destruct th as [p|c]; simpl in *.
  - unfold producer_step. rewrite Hid.
    rewrite ?(sem_timed_wait_space _ _ _ _ _ Hsems),
      ?(sem_wait_mutex _ _ _ _ _ Hsems), ?(sem_signal_mutex _ _ _ _ _ Hsems),
      ?(sem_signal_item _ _ _ _ _ Hsems).
    destruct (produce_1_10 (in_rand (mk_input 0 true))) as (d1 & -> & _).
    destruct (produce_1_5 (in_rand (mk_input 0 true))) as (d2 & -> & _).
    rewrite (deposit_item_ok C C_pos C_int _ _ Hq).
    destruct (p_pc p); try done; simpl; try (left; eauto; fail).
    + left. destruct (p_i p <? _); eauto.
    + left. destruct (p_timeout p); eauto.
    + destruct (0 <? vm) eqn:Hvm; [left; eauto|].
      right. apply Z.ltb_ge in Hvm. done.
    + left. destruct (negb (p_timeout p)); eauto.
  - unfold consumer_step. rewrite Hid.
    rewrite ?(sem_timed_wait_item _ _ _ _ _ Hsems),
      ?(sem_wait_mutex _ _ _ _ _ Hsems), ?(sem_signal_mutex _ _ _ _ _ Hsems),
      ?(sem_signal_space _ _ _ _ _ Hsems).
    destruct (fetch_item_ok C C_pos C_int _ Hq) as (j & _ & ->).
    destruct (c_pc c); try done; simpl; try (left; eauto; fail).
    destruct (0 <? vm) eqn:Hvm; [left; eauto|].
    right. apply Z.ltb_ge in Hvm. done.
Qed.

End Enabled.

Lemma holders_positive ths :
  0 < holders ths ->
  exists tid th, ths !! tid = Some th /\ in_critical_section th = true.
Proof.
  induction ths as [|x ths IH]; simpl; [lia|]. intros H.
  unfold holds_mutex in H. destruct (in_critical_section x) eqn:Hx.
  - by exists 0%nat, x.
  - destruct IH as (tid & th & Hl & Hcs); [lia|]. by exists (S tid), th.
Qed.

Lemma in_critical_section_not_finished th :
  in_critical_section th = true -> finished th = false.
Proof.
  destruct th as [p|c]; simpl; [destruct (p_pc p) | destruct (c_pc c)]; done.
Qed.

(** X15: in the process started by [main] with a buffer of [C > 0]
    slots, no statement of a thread is a memory error or a division by
    zero, whatever the interleaving, the values of [rand()] and the
    timed waits that give up. *)
Theorem no_thread_faults
    (hdr : helper_h) (env : environment) (argv : list string)
    (w0 : world) (s : system) (tid : nat) (th : thread) (inp : input) :
  NO_ERROR hdr <= 0 ->
  main_startup hdr env argv world_at_startup = (Running, w0) ->
  0 < buffer_size (vars w0) ->
  reachable (system_of_main w0) s ->
  threads s !! tid = Some th ->
  thread_step inp (shared s) th <> Fault.
Proof.
  intros Hno Hrun HC Hreach _.
  destruct (reachable_from_main hdr env argv w0 s Hno Hrun HC Hreach)
    as (HC' & [Hq _ Hid (vi & vs & vm & Hsems & _) _] & _).
  eapply thread_step_no_fault; eauto.
Qed.

Lemma no_thread_faults_witness :
  thread_step go (shared example_at_fetch)
              (Consumer (mk_consumer CFetch 1 (mk_job 0 0))) <> Fault.
Proof.
  apply (no_thread_faults example_hdr example_env example_argv example_world
           example_at_fetch 1%nat).
  - simpl. lia.
  - reflexivity.
  - simpl. lia.
  - apply (example_reachable
             (schedule_to_job_id
              ++ [(0, go); (0, go); (0, go); (0, go); (0, go); (1, go); (1, go)]%nat)).
    reflexivity.
  - reflexivity.
Defined.

(** X16: the process started by [main] with a buffer of [C > 0] slots
    cannot get stuck: in every state in which a thread has not finished,
    some thread has a next step.  The only wait without a time limit is
    the one for the mutex, and the thread that holds the mutex never
    waits. *)
Theorem no_deadlock
    (hdr : helper_h) (env : environment) (argv : list string)
    (w0 : world) (s : system) (tid0 : nat) (th0 : thread) :
  NO_ERROR hdr <= 0 ->
  main_startup hdr env argv world_at_startup = (Running, w0) ->
  0 < buffer_size (vars w0) ->
  reachable (system_of_main w0) s ->
  threads s !! tid0 = Some th0 -> finished th0 = false ->
  exists tid a s', step s tid a s'.
Proof.
  intros Hno Hrun HC Hreach H0 Hfin.
  destruct (reachable_from_main hdr env argv w0 s Hno Hrun HC Hreach)
    as (HC' & [Hq _ Hid (vi & vs & vm & Hsems & Hvm & Hcount) _] & _).
  destruct (thread_enabled _ _ vi vs vm _ HC HC' Hq Hid Hsems th0 Hfin)
    as [(a & w' & th' & Hs) | (_ & Hzero)].
  { eexists tid0, a, _. by eapply step_thread. }
  destruct (holders_positive (threads s)) as (tid & th & Hl & Hcs); [lia|].
  destruct (thread_enabled _ _ vi vs vm _ HC HC' Hq Hid Hsems th
              (in_critical_section_not_finished th Hcs))
    as [(a & w' & th' & Hs) | (Hout & _)]; [|congruence].
  eexists tid, a, _. by eapply step_thread.
Qed.

Lemma no_deadlock_witness :
  exists tid a s', step example_at_fetch tid a s'.
Proof.
  apply (no_deadlock example_hdr example_env example_argv example_world
           example_at_fetch 0%nat
           (Producer (mk_producer PPrintJob 1 false (mk_job 1 3) 0 3))).
  - simpl. lia.
  - reflexivity.
  - simpl. lia.
  - apply (example_reachable
             (schedule_to_job_id
              ++ [(0, go); (0, go); (0, go); (0, go); (0, go); (1, go); (1, go)]%nat)).
    reflexivity.
  - reflexivity.
  - reflexivity.
Defined.

(** ** The running process with a buffer of 0 slots *)

Lemma step_preserves_empty id s tid a s' :
  system_empty id s -> step s tid a s' -> system_empty id s'.
Proof.
  intros [Hid Hsems Hths Hwaits Hdep Hfet] Hstep.
  destruct Hstep as [tid th inp a w' th' Hth Hts].
  destruct s as [w ths]; simpl in *.
  pose proof (Hths tid th Hth) as Hout.
  assert (Hnew : vars w' = vars w /\ semaphores w' = semaphores w
                 /\ trace w' = trace w /\ outside_the_queue th' = true
                 /\ (forall num seconds, a <> ASemTimedWait num seconds 0)
                 /\ (forall j, a <> ADeposit j) /\ (forall j, a <> AFetch j)).
  { destruct th as [p|c]; simpl in Hts.
    - destruct (producer_step inp w p) as [| | |[[a0 w0] p0]] eqn:Hps;
        try discriminate.
      injection Hts as <- <- <-.
      unfold producer_step in Hps. rewrite Hid in Hps.
      rewrite ?(sem_timed_wait_space _ _ _ _ _ Hsems) in Hps.
      destruct p as [pc pid pto ptj pi pd]. simpl in *.
      destruct pc; try discriminate Hout; break_step Hps; by repeat split.
    - destruct (consumer_step inp w c) as [| | |[[a0 w0] c0]] eqn:Hcs;
        try discriminate.
      injection Hts as <- <- <-.
      unfold consumer_step in Hcs. rewrite Hid in Hcs.
      rewrite ?(sem_timed_wait_item _ _ _ _ _ Hsems) in Hcs.
      destruct c as [pc cid ctj]. simpl in *.
      destruct pc; try discriminate Hout; break_step Hcs; by repeat split. }
  destruct Hnew as (Hv & Hs & Ht & Hout' & Hw & Hd & Hf).
  split; simpl; rewrite ?Hv, ?Hs, ?Ht; try done.
  - intros tid0 th0 Hl.
    apply list_lookup_insert_Some in Hl as [(_ & <- & _) | (_ & Hl)]; eauto.
  - intros tid0 num seconds Hin.
    apply in_app_iff in Hin as [Hin | [[= _ Ha] | []]].
    + by eapply Hwaits.
    + by eapply Hw.
  - rewrite deposits_of_app, Hdep. simpl. destruct a; try done. by destruct (Hd j).
  - rewrite fetches_of_app, Hfet. simpl. destruct a; try done. by destruct (Hf j).
Qed.

Lemma main_startup_empty hdr env argv w0 :
  NO_ERROR hdr <= 0 ->
  main_startup hdr env argv world_at_startup = (Running, w0) ->
  buffer_size (vars w0) = 0 ->
  system_empty (sem_id (vars w0)) (system_of_main w0).
Proof.
  intros Hno Hrun HC.
  destruct (main_startup_running hdr env argv w0 Hno Hrun)
    as (id & d & Hnew & Hvars & Hsems & Htrace).
  split; simpl.
  - done.
  - rewrite Hsems, Hvars in *. simpl in *. by rewrite HC.
  - intros tid th Hl.
    by apply threads_of_main_start in Hl as [(i & ->) | (i & ->)].
  - intros tid num seconds Hin.
    rewrite Forall_forall in Htrace.
    apply list_elem_of_In in Hin. by apply (Htrace _ Hin tid (ASemTimedWait num seconds 0)).
  - by apply deposits_of_no_thread.
  - by apply fetches_of_no_thread.
Qed.

Lemma reachable_empty id s0 s :
  system_empty id s0 -> reachable s0 s -> system_empty id s.
Proof.
  intros H0. induction 1 as [|s tid a s' _ IH Hstep]; [done|].
  by eapply step_preserves_empty.
Qed.

(** X17: a buffer size of 0 passes the checks of [main].  In the process
    it then starts nothing is ever deposited or fetched: no timed wait on
    [space] or [item] returns 0, the three semaphores keep their initial
    values 0, 0 and 1, and no thread reaches a queue operation, so that
    the division by [buffer_size] is never executed. *)
Theorem empty_buffer_never_used
    (hdr : helper_h) (env : environment) (argv : list string)
    (w0 : world) (s : system) :
  NO_ERROR hdr <= 0 ->
  main_startup hdr env argv world_at_startup = (Running, w0) ->
  buffer_size (vars w0) = 0 ->
  reachable (system_of_main w0) s ->
  deposits_of (trace (shared s)) = []
  /\ fetches_of (trace (shared s)) = []
  /\ (forall tid num seconds r,
        In (EThread tid (ASemTimedWait num seconds r)) (trace (shared s)) ->
        r <> 0)
  /\ semaphores (shared s) = Some (sem_id (vars w0), [0; 0; 1])
  /\ (forall tid th inp,
        threads s !! tid = Some th ->
        outside_the_queue th = true
        /\ thread_step inp (shared s) th <> Fault).
Proof.
  intros Hno Hrun HC Hreach.
  pose proof (main_startup_empty hdr env argv w0 Hno Hrun HC) as H0.
  pose proof (reachable_empty _ _ _ H0 Hreach) as [Hid Hsems Hths Hwaits Hdep Hfet].
  split; [done|]. split; [done|]. split; [|split; [done|]].
  - intros tid num seconds r Hin ->. by eapply Hwaits.
  - intros tid th inp Hl. pose proof (Hths tid th Hl) as Hout.
    split; [done|].
    destruct th as [p|c]; simpl in *.
    + unfold producer_step. rewrite Hid.
      rewrite ?(sem_timed_wait_space _ _ _ _ _ Hsems).
      destruct (produce_1_10 (in_rand inp)) as (d1 & -> & _).
      destruct (produce_1_5 (in_rand inp)) as (d2 & -> & _).
      destruct (p_pc p); try done.
      * by destruct (p_i p <? _).
      * by destruct (in_expired inp).
      * by rewrite Hout.
      * by destruct (negb (p_timeout p)).
    + unfold consumer_step. rewrite Hid.
      rewrite ?(sem_timed_wait_item _ _ _ _ _ Hsems).
      destruct (c_pc c); try done.
      by destruct (in_expired inp).
Qed.

Lemma empty_buffer_never_used_witness :
  deposits_of (trace (shared example_zero_gave_up)) = []
  /\ fetches_of (trace (shared example_zero_gave_up)) = []
  /\ (forall tid num seconds r,
        In (EThread tid (ASemTimedWait num seconds r))
           (trace (shared example_zero_gave_up)) ->
        r <> 0)
  /\ semaphores (shared example_zero_gave_up)
     = Some (sem_id (vars example_world_zero), [0; 0; 1])
  /\ (forall tid th inp,
        threads example_zero_gave_up !! tid = Some th ->
        outside_the_queue th = true
        /\ thread_step inp (shared example_zero_gave_up) th <> Fault).
Proof.
  apply (empty_buffer_never_used example_hdr example_env example_argv_zero
           example_world_zero example_zero_gave_up).
  - simpl. lia.
  - reflexivity.
  - reflexivity.
  - apply (run_schedule_reachable
             [(0, go); (0, go); (0, go); (0, let_expire); (0, go)]%nat
             _ (system_of_main example_world_zero)); [constructor | reflexivity].
Defined.

(** ** The running process: the jobs that travel through the queue *)

Lemma producer_step_durations inp w p a w' p' :
  producer_step inp w p = Step (a, w', p') ->
  producer_durations p ->
  producer_durations p'
  /\ (forall j, a = ADeposit j -> j = p_temp_job p /\ 1 <= duration j <= 10)
  /\ (forall d, a = ASleep d -> 1 <= d <= 5)
  /\ (forall cid id d, a <> APrintf (ConsumerExecuting cid id d))
  /\ (forall j, a <> AFetch j).
Proof.
  unfold producer_step, producer_durations.
  destruct (produce_1_10 (in_rand inp)) as (d1 & -> & Hd1).
  destruct (produce_1_5 (in_rand inp)) as (d2 & -> & Hd2).
  intros Hstep. destruct p as [pc pid pto ptj pi pd]. simpl in *.
  destruct pc; break_step Hstep; simpl; intros Hp;
    (split; [try done|]); (split; [by intros ? [= <-]|]);
    (split; [by intros ? [= <-]|]); by split.
Qed.

Lemma consumer_step_durations C inp w c a w' c' :
  consumer_step inp w c = Step (a, w', c') ->
  consumer_durations C c ->
  (forall j, a = AFetch j -> job_ok C j) ->
  consumer_durations C c'
  /\ (forall d, a = ASleep d -> 1 <= d <= 10)
  /\ (forall cid id d, a = APrintf (ConsumerExecuting cid id d) ->
        1 <= id <= C /\ 1 <= d <= 10)
  /\ (forall j, a <> ADeposit j).
Proof.
  unfold consumer_step, consumer_durations.
  intros Hstep. destruct c as [pc cid ctj]. simpl in *.
  destruct pc; break_step Hstep; simpl; intros Hc Hf;
    try match goal with |- context [if ?b then _ else _] => destruct b end;
    simpl; (split; [try done|]); try (split; [intros ? [= <-]|]);
    try (split; [intros ??? [= <- <- <-]|]); try done.
  all: first [by apply Hf | by destruct Hc].
Qed.

Lemma step_preserves_durations C J id s tid a s' pending :
  0 < C -> C <= INT_MAX ->
  system_ok C J id s -> system_counts C id s pending -> system_durations C s ->
  step s tid a s' -> system_durations C s'.
Proof.
  intros HC HC' Hok Hcnt [Hps Hcs Hdep Hsl Hmsg] Hstep.
  destruct (step_preserves_counts _ _ _ _ _ _ _ _ HC HC' Hok Hcnt Hstep)
    as (pending' & _ & Hact).
  assert (Hpend : Forall (job_ok C) pending).
  { destruct Hcnt as [_ _ Hfifo]. rewrite Hfifo in Hdep.
    by apply Forall_app in Hdep as [_ ?]. }
  destruct Hok as [Hq _ _ _ Hjob].
  destruct Hstep as [tid th inp a w' th' Hth Hts].
  destruct s as [w ths]; simpl in *.
  rewrite (thread_step_trace _ _ _ _ _ _ Hts).
  destruct th as [p|c].
  - apply thread_step_producer in Hts as (p' & -> & Hstep).
    destruct (producer_step_durations _ _ _ _ _ _ Hstep (Hps _ _ Hth))
      as (Hp' & Hd & Hs & Hm & Hf).
    split; simpl.
    + intros tid0 p0 Hl.
      apply list_lookup_insert_Some in Hl as [(_ & [= <-] & _) | (_ & Hl)]; eauto.
    + intros tid0 c0 Hl.
      apply list_lookup_insert_Some in Hl as [(_ & [=] & _) | (_ & Hl)]; eauto.
    + rewrite deposits_of_app. apply Forall_app. split; [done|].
      destruct a; simpl; try done.
      destruct (Hd j eq_refl) as [-> Hdur]. repeat constructor; [| |apply Hdur..].
      all: assert (Hpc : p_pc p = PDeposit)
          by (unfold producer_step in Hstep;
              destruct (p_pc p); break_step Hstep; done);
        rewrite (Hjob tid p Hth (or_intror Hpc)); destruct Hq; lia.
    + intros tid0 d Hin.
      apply in_app_iff in Hin as [Hin | [[= _ ->] | []]]; [eauto|].
      pose proof (Hs d eq_refl). lia.
    + intros tid0 cid i d Hin.
      apply in_app_iff in Hin as [Hin | [[= _ ->] | []]]; [eauto|].
      by destruct (Hm cid i d).
  - apply thread_step_consumer in Hts as (c' & -> & Hstep).
    destruct (consumer_step_durations C _ _ _ _ _ _ Hstep (Hcs _ _ Hth))
      as (Hc' & Hs & Hm & Hd).
    { intros j ->. subst pending. by inversion Hpend. }
    split; simpl.
    + intros tid0 p0 Hl.
      apply list_lookup_insert_Some in Hl as [(_ & [=] & _) | (_ & Hl)]; eauto.
    + intros tid0 c0 Hl.
      apply list_lookup_insert_Some in Hl as [(_ & [= <-] & _) | (_ & Hl)]; eauto.
    + rewrite deposits_of_app. apply Forall_app. split; [done|].
      destruct a; simpl; try done. by destruct (Hd j).
    + intros tid0 d Hin.
      apply in_app_iff in Hin as [Hin | [[= _ ->] | []]]; eauto.
    + intros tid0 cid i d Hin.
      apply in_app_iff in Hin as [Hin | [[= _ ->] | []]]; eauto.
Qed.

Lemma reachable_durations hdr env argv w0 s :
  NO_ERROR hdr <= 0 ->
  main_startup hdr env argv world_at_startup = (Running, w0) ->
  0 < buffer_size (vars w0) ->
  reachable (system_of_main w0) s ->
  system_durations (buffer_size (vars w0)) s.
Proof.
  intros Hno Hrun HC.
  destruct (main_startup_running hdr env argv w0 Hno Hrun)
    as (id & d & Hnew & Hvars & Hsems & Htrace).
  assert (Hnone : forall tid a, ~ In (EThread tid a) (trace w0)).
  { intros tid a Hin. rewrite Forall_forall in Htrace.
    apply list_elem_of_In in Hin. by apply (Htrace _ Hin tid a). }
  induction 1 as [|s tid a s' Hreach IH Hstep].
  - split; simpl.
    + intros tid p Hl.
      by apply threads_of_main_start in Hl as [(i & [= ->]) | (i & [=])].
    + intros tid c Hl.
      by apply threads_of_main_start in Hl as [(i & [=]) | (i & [= ->])].
    + by rewrite deposits_of_no_thread.
    + intros tid d0 Hin. by destruct (Hnone _ _ Hin).
    + intros tid cid i d0 Hin. by destruct (Hnone _ _ Hin).
  - destruct (reachable_from_main hdr env argv w0 s Hno Hrun HC Hreach)
      as (HC' & Hok & pending & Hcnt).
    eapply step_preserves_durations; eauto.
Qed.

(** X18: in the process started by [main] with a buffer of [C > 0]
    slots, every job deposited and every job fetched has an id in
    [[1, C]] and a duration in [[1, 10]]: a consumer never receives the
    indeterminate content of a fresh slot.  Every [sleep] lasts between 1
    and 10 seconds, and a consumer announces a job with such an id and
    duration. *)
Theorem jobs_in_flight_are_well_formed
    (hdr : helper_h) (env : environment) (argv : list string)
    (w0 : world) (s : system) :
  NO_ERROR hdr <= 0 ->
  main_startup hdr env argv world_at_startup = (Running, w0) ->
  0 < buffer_size (vars w0) ->
  reachable (system_of_main w0) s ->
  Forall (job_ok (buffer_size (vars w0))) (deposits_of (trace (shared s)))
  /\ Forall (job_ok (buffer_size (vars w0))) (fetches_of (trace (shared s)))
  /\ (forall tid d, In (EThread tid (ASleep d)) (trace (shared s)) -> 1 <= d <= 10)
  /\ (forall tid cid id d,
        In (EThread tid (APrintf (ConsumerExecuting cid id d))) (trace (shared s)) ->
        1 <= id <= buffer_size (vars w0) /\ 1 <= d <= 10).
Proof.
  intros Hno Hrun HC Hreach.
  destruct (reachable_durations hdr env argv w0 s Hno Hrun HC Hreach)
    as [_ _ Hdep Hsl Hmsg].
  destruct (reachable_from_main hdr env argv w0 s Hno Hrun HC Hreach)
    as (_ & _ & pending & [_ _ Hfifo]).
  split; [done|]. split; [|by split].
  rewrite Hfifo in Hdep. by apply Forall_app in Hdep as [? _].
Qed.

Lemma jobs_in_flight_are_well_formed_witness :
  Forall (job_ok (buffer_size (vars example_world)))
         (deposits_of (trace (shared example_after_fetch)))
  /\ Forall (job_ok (buffer_size (vars example_world)))
            (fetches_of (trace (shared example_after_fetch)))
  /\ (forall tid d,
        In (EThread tid (ASleep d)) (trace (shared example_after_fetch)) ->
        1 <= d <= 10)
  /\ (forall tid cid id d,
        In (EThread tid (APrintf (ConsumerExecuting cid id d)))
           (trace (shared example_after_fetch)) ->
        1 <= id <= buffer_size (vars example_world) /\ 1 <= d <= 10).
Proof.
  apply (jobs_in_flight_are_well_formed example_hdr example_env example_argv
           example_world example_after_fetch).
  - simpl. lia.
  - reflexivity.
  - simpl. lia.
  - apply (example_reachable
             (schedule_to_job_id
              ++ [(0, go); (0, go); (0, go); (0, go); (0, go); (1, go); (1, go);
                  (1, go)]%nat)).
    reflexivity.
Defined.

(** ** The order of the statements of a consumer *)

(** A property of a consumer and its actions that holds at the start and
    that every statement of the consumer preserves holds in every
    reachable state. *)
Lemma consumer_invariant (I : consumer_frame -> list action -> Prop) s0 :
  (forall tid c, threads s0 !! tid = Some (Consumer c) ->
     I c (actions_of tid (trace (shared s0)))) ->
  (forall inp w c a w' c' T,
     consumer_step inp w c = Step (a, w', c') -> I c T -> I c' (T ++ [a])) ->
  forall s, reachable s0 s ->
  forall tid c, threads s !! tid = Some (Consumer c) ->
    I c (actions_of tid (trace (shared s))).
Proof.
  intros Hinit Hpres s Hreach.
  induction Hreach as [|s tid0 a s' Hreach IH Hstep]; [done|].
  intros tid c Hl.
  destruct Hstep as [tid0 th inp a w' th' Hth Hts]. simpl in *.
  rewrite (thread_step_trace _ _ _ _ _ _ Hts), actions_of_snoc.
  apply list_lookup_insert_Some in Hl as [(-> & -> & _) | (Hne & Hl)].
  - rewrite Nat.eqb_refl. destruct th as [p0|c0].
    + by apply thread_step_producer in Hts as (p' & [=] & _).
    + apply thread_step_consumer in Hts as (c' & [= <-] & Hcs).
      eapply Hpres; eauto.
  - replace (tid0 =? tid)%nat with false by (symmetry; apply Nat.eqb_neq; lia).
    by apply IH.
Qed.

Lemma consumer_step_id inp w c a w' c' :
  consumer_step inp w c = Step (a, w', c') -> c_id c' = c_id c.
Proof.
  unfold consumer_step. intros Hstep.
  destruct (c_pc c); break_step Hstep; try done.
  by destruct (_ =? 0).
Qed.

Lemma consumer_order_step inp w c a w' c' T :
  consumer_step inp w c = Step (a, w', c') ->
  consumer_order c T -> consumer_order c' (T ++ [a]).
Proof.
  intros Hstep Hinv T1 T2 HT.
  rewrite (consumer_step_id _ _ _ _ _ _ Hstep).
  apply snoc_split in HT as [(-> & -> & <-) | (T2' & -> & ->)].
  - unfold consumer_step in Hstep.
    destruct (c_pc c) eqn:Hpc; break_step Hstep.
    exists (c_temp_job c). right. exists 0%nat. by rewrite Z.eqb_refl.
  - destruct (Hinv T1 T2' eq_refl) as (j & [Hpre | (k & Hk & ->)]).
    { exists j. left. by apply prefix_app_r. }
    unfold consumer_step in Hstep.
    destruct k as [|[|[|[|[|[|[|k]]]]]]]; [| | | | | | |done]; simpl in Hk.
    + rewrite Hk in Hstep. break_step Hstep.
      exists j. right. by exists 1%nat.
    + rewrite Hk in Hstep. break_step Hstep.
      exists j0. right. by exists 2%nat.
    + destruct Hk as [Hk Hj]. rewrite Hk in Hstep. break_step Hstep.
      exists j. right. by exists 3%nat.
    + destruct Hk as [Hk Hj]. rewrite Hk in Hstep. break_step Hstep.
      exists j. right. by exists 4%nat.
    + destruct Hk as [Hk Hj]. rewrite Hk in Hstep. injection Hstep as <- <- <-.
      exists j. right. exists 5%nat. subst j. by repeat split.
    + destruct Hk as [Hk Hj]. rewrite Hk in Hstep. injection Hstep as <- <- <-.
      exists j. right. exists 6%nat. subst j. by repeat split.
    + destruct Hk as [Hk Hj]. rewrite Hk in Hstep. injection Hstep as <- <- <-.
      exists j. left. subst j. by exists [].
Qed.

Lemma consumer_progress_step inp w c a w' c' T :
  consumer_step inp w c = Step (a, w', c') ->
  consumer_progress c T -> consumer_progress c' (T ++ [a]).
Proof.
  intros Hstep Hinv.
  pose proof (consumer_step_id _ _ _ _ _ _ Hstep) as Hcid.
  unfold consumer_step in Hstep.
  destruct Hinv as [Hw Hm Hs | k T0 r Hr Hw Hm -> Hk].
  - destruct (c_pc c) eqn:Hpc; try discriminate Hs; break_step Hstep.
    1: { apply sem_timed_wait_trace in Heqo as [_ [-> | ->]]; simpl.
         - apply consumer_serving; simpl; [| |done].
           + intros r Hin. apply in_app_iff in Hin as [Hin | [[= <-] | []]]; auto.
           + intros Hin. apply in_app_iff in Hin as [Hin | [[=] | []]]; auto.
         - by apply (consumer_leaving _ _ 0%nat T (-1)). }
    all: apply consumer_serving; simpl; [| |done].
    all: try (intros r Hin; apply in_app_iff in Hin as [Hin | [[=] | []]]; auto).
    all: intros Hin; apply in_app_iff in Hin as [Hin | [[=] | []]]; auto.
  - destruct (c_pc c) eqn:Hpc; try done; simpl in Hk; subst k; break_step Hstep.
    + apply (consumer_leaving _ _ 1%nat T0 r); simpl; try done.
      by rewrite <- app_assoc.
    + apply (consumer_leaving _ _ 2%nat T0 r); simpl; try done.
      by rewrite <- app_assoc.
Qed.

Lemma reachable_consumer hdr env argv w0 s tid c :
  NO_ERROR hdr <= 0 ->
  main_startup hdr env argv world_at_startup = (Running, w0) ->
  reachable (system_of_main w0) s ->
  threads s !! tid = Some (Consumer c) ->
  consumer_order c (actions_of tid (trace (shared s)))
  /\ consumer_progress c (actions_of tid (trace (shared s))).
Proof.
  intros Hno Hrun Hreach Hl.
  destruct (main_startup_running hdr env argv w0 Hno Hrun)
    as (id & d & Hnew & Hvars & Hsems & Htrace).
  eapply (consumer_invariant
            (fun c T => consumer_order c T /\ consumer_progress c T)); eauto.
  - intros tid0 c0 Hl0. simpl. rewrite actions_of_no_thread by done.
    apply threads_of_main_start in Hl0 as [(i & [=]) | (i & [= ->])].
    split; [by intros [|??] ? [=]|].
    apply consumer_serving; simpl; [by intros r [] | by intros [] | done].
  - intros inp w c0 a w' c' T Hstep [Ho Hp].
    split; [by eapply consumer_order_step | by eapply consumer_progress_step].
Qed.

(** X19: for a consumer of the process started by [main].  After a timed
    wait on [item] that returned 0 it does, in this order: the wait on
    the mutex, [fetch_item], the signal on the mutex, the signal on
    [space], the announcement of the id and duration of the job it
    fetched, the sleep for that duration, the message that the job is
    done.  After a timed wait that gave up it does nothing but print that
    no jobs are left and exit; it prints that message at no other time,
    and it does not end in any other way. *)
Theorem consumer_turn_and_exit
    (hdr : helper_h) (env : environment) (argv : list string)
    (w0 : world) (s : system) (tid : nat) (c : consumer_frame) :
  NO_ERROR hdr <= 0 ->
  main_startup hdr env argv world_at_startup = (Running, w0) ->
  reachable (system_of_main w0) s ->
  threads s !! tid = Some (Consumer c) ->
  let T := actions_of tid (trace (shared s)) in
  (forall T1 T2,
     T = T1 ++ ASemTimedWait item 20 0 :: T2 ->
     exists j,
       consumer_turn (c_id c) j `prefix_of` T2
       \/ T2 `prefix_of` consumer_turn (c_id c) j)
  /\ (forall T1 r T2,
        T = T1 ++ ASemTimedWait item 20 r :: T2 -> r <> 0 ->
        T2 `prefix_of` consumer_exit_sequence (c_id c)
        /\ (c_pc c = CDone -> T2 = consumer_exit_sequence (c_id c)))
  /\ (In (APrintf (ConsumerNoMoreJobs (c_id c))) T \/ c_pc c = CDone ->
      exists T1 r T2,
        r <> 0 /\ T = T1 ++ ASemTimedWait item 20 r :: T2
        /\ forall r0, In (ASemTimedWait item 20 r0) T1 -> r0 = 0).
Proof.
  intros Hno Hrun Hreach Hl T.
  destruct (reachable_consumer hdr env argv w0 s tid c Hno Hrun Hreach Hl)
    as [Ho Hp].
  fold T in Ho, Hp.
  split; [|split].
  - intros T1 T2 HT.
    destruct (Ho T1 T2 HT) as (j & [Hpre | (k & _ & ->)]); exists j; [by left|].
    right. apply prefix_take.
  - intros T1 r T2 HT Hr.
    destruct Hp as [Hw Hm Hs | k T0 r0 Hr0 Hw Hm HT0 Hk].
    + exfalso. apply Hr, Hw. rewrite HT. apply in_app_iff. simpl. auto.
    + rewrite HT0 in HT. apply split_unique in HT as (_ & _ & <-).
      * split; [apply prefix_take|]. intros Hpc. rewrite Hpc in Hk.
        simpl in Hk. by subst k.
      * intros Hin. by apply Hr, Hw.
      * intros Hin. apply in_take in Hin. simpl in Hin. intuition discriminate.
  - intros Hend.
    destruct Hp as [Hw Hm Hs | k T0 r0 Hr0 Hw Hm HT0 Hk].
    + destruct Hend as [Hin | Hpc]; [done|]. by rewrite Hpc in Hs.
    + by exists T0, r0, (take k (consumer_exit_sequence (c_id c))).
Qed.

Lemma consumer_turn_and_exit_witness :
  let c := mk_consumer CDone 1 (mk_job 1 3) in
  let T := actions_of 1 (trace (shared example_consumer_done)) in
  (forall T1 T2,
     T = T1 ++ ASemTimedWait item 20 0 :: T2 ->
     exists j,
       consumer_turn (c_id c) j `prefix_of` T2
       \/ T2 `prefix_of` consumer_turn (c_id c) j)
  /\ (forall T1 r T2,
        T = T1 ++ ASemTimedWait item 20 r :: T2 -> r <> 0 ->
        T2 `prefix_of` consumer_exit_sequence (c_id c)
        /\ (c_pc c = CDone -> T2 = consumer_exit_sequence (c_id c)))
  /\ (In (APrintf (ConsumerNoMoreJobs (c_id c))) T \/ c_pc c = CDone ->
      exists T1 r T2,
        r <> 0 /\ T = T1 ++ ASemTimedWait item 20 r :: T2
        /\ forall r0, In (ASemTimedWait item 20 r0) T1 -> r0 = 0).
Proof.
  apply (consumer_turn_and_exit example_hdr example_env example_argv
           example_world example_consumer_done 1%nat).
  - simpl. lia.
  - reflexivity.
  - apply (example_reachable
             (schedule_to_job_id
              ++ [(0, go); (0, go); (0, go); (0, go); (0, go); (1, go); (1, go);
                  (1, go); (1, go); (1, go); (1, go); (1, go); (1, go);
                  (1, let_expire); (1, go); (1, go)]%nat)).
    reflexivity.
  - reflexivity.
Defined.

(** ** One iteration of a producer *)

Lemma producer_step_id inp w p a w' p' :
  producer_step inp w p = Step (a, w', p') -> p_id p' = p_id p.
Proof.
  unfold producer_step. intros Hstep.
  destruct (p_pc p); break_step Hstep; done.
Qed.

Lemma producer_iterations_step inp w p a w' p' T :
  producer_step inp w p = Step (a, w', p') ->
  producer_iterations p T -> producer_iterations p' (T ++ [a]).
Proof.
  intros Hstep Hinv T1 d T2 HT.
  rewrite (producer_step_id _ _ _ _ _ _ Hstep).
  unfold producer_step in Hstep.
  destruct (produce_1_10 (in_rand inp)) as (d1 & Hd1 & Hr1).
  destruct (produce_1_5 (in_rand inp)) as (d2 & Hd2 & Hr2).
  rewrite Hd1, Hd2 in Hstep.
  apply snoc_split in HT as [(-> & -> & <-) | (T2' & -> & ->)].
  - destruct (p_pc p) eqn:Hpc; break_step Hstep.
    split; [done|]. exists 1, 0. split; [lia|]. right. right. by exists 0%nat.
  - destruct (Hinv T1 d T2' eq_refl)
      as (Hd & s & id & Hs & [Hpre | [(r & T3 & Hr & ->) | (k & Hk & ->)]]).
    { split; [done|]. exists s, id. split; [done|]. left. by apply prefix_app_r. }
    { split; [done|]. exists s, id. split; [done|]. right. left.
      by exists r, (T3 ++ [a]). }
    split; [done|].
    destruct k as [|[|[|[|[|[|[|[|[|[|[|k]]]]]]]]]]]; simpl in Hk; [..|done].
    + destruct Hk as [Hk Hdur]. rewrite Hk in Hstep. injection Hstep as <- <- <-.
      exists d2, id. split; [done|]. right. right. by exists 1%nat.
    + destruct Hk as [Hk Hdur]. rewrite Hk in Hstep. break_step Hstep.
      apply sem_timed_wait_trace in Heqo as [_ [-> | ->]].
      * exists s, id. split; [done|]. right. right. by exists 2%nat.
      * exists s, id. split; [done|]. right. left. by exists (-1), [].
    + destruct Hk as (Hk & Hto & Hdur). rewrite Hk, Hto in Hstep.
      injection Hstep as <- <- <-.
      exists s, id. split; [done|]. right. right. by exists 3%nat.
    + destruct Hk as [Hk Hdur]. rewrite Hk in Hstep. break_step Hstep.
      exists s, id. split; [done|]. right. right. by exists 4%nat.
    + destruct Hk as [Hk Hdur]. rewrite Hk in Hstep. injection Hstep as <- <- <-.
      exists s, (int_add (tail (my_queue (vars w))) 1). split; [done|].
      right. right. by exists 5%nat.
    + destruct Hk as (Hk & Hid & Hdur). rewrite Hk in Hstep.
      injection Hstep as <- <- <-.
      exists s, id. split; [done|]. right. right. exists 6%nat.
      repeat split; simpl; congruence.
    + destruct Hk as [Hk Hjob]. rewrite Hk in Hstep. break_step Hstep.
      exists s, id. split; [done|]. right. right. exists 7%nat.
      repeat split; simpl; congruence.
    + destruct Hk as [Hk Hjob]. rewrite Hk in Hstep. break_step Hstep.
      exists s, id. split; [done|]. right. right. by exists 8%nat.
    + destruct Hk as [Hk Hjob]. rewrite Hk in Hstep. break_step Hstep.
      exists s, id. split; [done|]. right. right. by exists 9%nat.
    + destruct Hk as [Hk Hjob]. rewrite Hk in Hstep. injection Hstep as <- <- <-.
      exists s, id. split; [done|]. right. right. exists 10%nat.
      rewrite Hjob. by repeat split.
    + rewrite Hk in Hstep. injection Hstep as <- <- <-.
      exists s, id. split; [done|]. left. by exists [].
Qed.

Lemma reachable_producer_iterations hdr env argv w0 s tid p :
  NO_ERROR hdr <= 0 ->
  main_startup hdr env argv world_at_startup = (Running, w0) ->
  reachable (system_of_main w0) s ->
  threads s !! tid = Some (Producer p) ->
  producer_iterations p (actions_of tid (trace (shared s))).
Proof.
  intros Hno Hrun Hreach Hl.
  destruct (main_startup_running hdr env argv w0 Hno Hrun)
    as (id & d & Hnew & Hvars & Hsems & Htrace).
  eapply (producer_invariant producer_iterations
            (jobs_per_producer (vars w0))); eauto.
  - intros tid0 p0 Hl0. simpl. rewrite actions_of_no_thread by done.
    by intros [|??] ?? [=].
  - intros s1 Hr1. by rewrite (reachable_jobs _ _ Hr1).
  - intros inp w p0 a w' p' T HJ Hstep Hi. by eapply producer_iterations_step.
Qed.

(** X20: for a producer of the process started by [main].  Every
    iteration of its loop starts with [produce (1, 10)], which returns a
    duration [d] in [[1, 10]]; the producer then sleeps for 1 to 5
    seconds and makes the timed wait on [space].  When the wait returns 0
    the iteration goes on with the critical sequence, in which the job
    deposited has the duration [d] produced at the start, and ends with
    the message that reports the id and the duration of that job and with
    [i++]. *)
Theorem producer_iteration_order
    (hdr : helper_h) (env : environment) (argv : list string)
    (w0 : world) (s : system) (tid : nat) (p : producer_frame)
    (T1 : list action) (d : Z) (T2 : list action) :
  NO_ERROR hdr <= 0 ->
  main_startup hdr env argv world_at_startup = (Running, w0) ->
  reachable (system_of_main w0) s ->
  threads s !! tid = Some (Producer p) ->
  actions_of tid (trace (shared s)) = T1 ++ ARand d :: T2 ->
  1 <= d <= 10
  /\ exists sl id,
       1 <= sl <= 5
       /\ (producer_iteration (p_id p) sl id d `prefix_of` T2
           \/ T2 `prefix_of` producer_iteration (p_id p) sl id d
           \/ exists r T3,
                r <> 0 /\ T2 = ASleep sl :: ASemTimedWait space 20 r :: T3).
Proof.
  intros Hno Hrun Hreach Hl HT.
  destruct (reachable_producer_iterations hdr env argv w0 s tid p
              Hno Hrun Hreach Hl T1 d T2 HT)
    as (Hd & sl & id & Hs & [Hpre | [Hout | (k & _ & ->)]]).
  - split; [done|]. exists sl, id. auto.
  - split; [done|]. exists sl, id. auto.
  - split; [done|]. exists sl, id. split; [done|]. right. left. apply prefix_take.
Qed.

Lemma producer_iteration_order_witness :
  1 <= 3 <= 10
  /\ exists sl id,
       1 <= sl <= 5
       /\ (producer_iteration 1 sl id 3 `prefix_of` producer_iteration 1 3 1 3
           \/ producer_iteration 1 3 1 3 `prefix_of` producer_iteration 1 sl id 3
           \/ exists r T3,
                r <> 0
                /\ producer_iteration 1 3 1 3
                   = ASleep sl :: ASemTimedWait space 20 r :: T3).
Proof.
  apply (producer_iteration_order example_hdr example_env example_argv
           example_world example_iteration_done 0%nat
           (mk_producer PFor 1 false (mk_job 1 3) 1 3)
           [ALocal] 3 (producer_iteration 1 3 1 3)).
  - simpl. lia.
  - reflexivity.
  - apply (example_reachable
             (schedule_to_job_id
              ++ [(0, go); (0, go); (0, go); (0, go); (0, go); (0, go); (0, go)]%nat)).
    reflexivity.
  - reflexivity.
  - reflexivity.
Defined.

(** ** The loop counter of a producer counts its deposits *)

Lemma producer_count_step J inp w p a w' p' T :
  J <= INT_MAX ->
  jobs_per_producer (vars w) = J ->
  producer_step inp w p = Step (a, w', p') ->
  producer_count J p T -> producer_count J p' (T ++ [a]).
Proof.
  intros HJ Hjobs Hstep (Hi & Hd & Hit & Hmax).
  unfold producer_count. rewrite deposits_in_app, Hd.
  unfold producer_step in Hstep. rewrite Hjobs in Hstep.
  destruct p as [pc pid pto ptj pi pd]. simpl in *.
  destruct pc; break_step Hstep; order_facts; simpl in *;
    try (repeat split; first [lia | done | intros _; lia | intros; by apply Hit]).
  assert (Hlt : pi < J) by by apply Hit.
  unfold int_add. rewrite wrap_int_id by (unfold int_range, INT_MIN; lia).
  repeat split; try lia; done.
Qed.

Lemma reachable_producer_count hdr env argv w0 s tid p :
  NO_ERROR hdr <= 0 ->
  main_startup hdr env argv world_at_startup = (Running, w0) ->
  reachable (system_of_main w0) s ->
  threads s !! tid = Some (Producer p) ->
  producer_count (jobs_per_producer (vars w0)) p
                 (actions_of tid (trace (shared s))).
Proof.
  intros Hno Hrun Hreach Hl.
  destruct (main_startup_running hdr env argv w0 Hno Hrun)
    as (id & d & Hnew & Hvars & Hsems & Htrace).
  assert (HJ : jobs_per_producer (vars w0) <= INT_MAX).
  { rewrite Hvars. simpl. apply check_arg_range. }
  eapply (producer_invariant (producer_count (jobs_per_producer (vars w0)))
            (jobs_per_producer (vars w0))); eauto.
  - intros tid0 p0 Hl0. simpl. rewrite actions_of_no_thread by done.
    apply threads_of_main_start in Hl0 as [(i & [= ->]) | (i & [=])].
    repeat split; simpl; try done; lia.
  - intros s1 Hr1. by rewrite (reachable_jobs _ _ Hr1).
  - intros inp w p0 a w' p' T Hjobs Hstep Hc. by eapply producer_count_step.
Qed.

Lemma produced_bound J p T :
  producer_count J p T -> 0 <= produced (Producer p) <= Z.max 0 J.
Proof.
  intros (Hi & _ & Hit & Hmax). simpl.
  destruct (p_pc p); simpl in *; try lia; specialize (Hit eq_refl); lia.
Qed.

(** X21: for a producer of the process started by [main], the loop
    counter [i] counts its deposits: the producer has called
    [deposit_item] [i] times, once more between a deposit and the [i++]
    that follows it; [i] stays within [0 .. jobs_per_producer], and the
    producer never deposits more than [jobs_per_producer] jobs. *)
Theorem producer_counter_counts_deposits
    (hdr : helper_h) (env : environment) (argv : list string)
    (w0 : world) (s : system) (tid : nat) (p : producer_frame) :
  NO_ERROR hdr <= 0 ->
  main_startup hdr env argv world_at_startup = (Running, w0) ->
  reachable (system_of_main w0) s ->
  threads s !! tid = Some (Producer p) ->
  let T := actions_of tid (trace (shared s)) in
  deposits_in T = p_i p + after_deposit (p_pc p)
  /\ 0 <= p_i p <= Z.max 0 (jobs_per_producer (vars w0))
  /\ deposits_in T <= Z.max 0 (jobs_per_producer (vars w0)).
Proof.
  intros Hno Hrun Hreach Hl T.
  pose proof (reachable_producer_count hdr env argv w0 s tid p
                Hno Hrun Hreach Hl) as Hc.
  pose proof (produced_bound _ _ _ Hc) as Hb.
  destruct Hc as (Hi & Hd & Hit & Hmax). fold T in Hd.
  simpl in Hb. rewrite Hd. repeat split; lia.
Qed.

Lemma producer_counter_counts_deposits_witness :
  let p := mk_producer PFor 1 false (mk_job 1 3) 1 3 in
  let T := actions_of 0 (trace (shared example_iteration_done)) in
  deposits_in T = p_i p + after_deposit (p_pc p)
  /\ 0 <= p_i p <= Z.max 0 (jobs_per_producer (vars example_world))
  /\ deposits_in T <= Z.max 0 (jobs_per_producer (vars example_world)).
Proof.
  apply (producer_counter_counts_deposits example_hdr example_env example_argv
           example_world example_iteration_done 0%nat).
  - simpl. lia.
  - reflexivity.
  - apply (example_reachable
             (schedule_to_job_id
              ++ [(0, go); (0, go); (0, go); (0, go); (0, go); (0, go); (0, go)]%nat)).
    reflexivity.
  - reflexivity.
Defined.

(** ** The number of jobs of a run *)

Lemma total_le_scaled f g m ths :
  Forall (fun th => f th <= g th * m) ths -> total f ths <= total g ths * m.
Proof. induction 1 as [|th ths H _ IH]; simpl; lia. Qed.

Lemma thread_step_kind inp w th a w' th' :
  thread_step inp w th = Step (a, w', th') -> is_producer th' = is_producer th.
Proof.
  destruct th as [p|c]; intros H.
  - by apply thread_step_producer in H as (p' & -> & _).
  - by apply thread_step_consumer in H as (c' & -> & _).
Qed.

Lemma thread_step_produced J inp w th a w' th' T :
  J <= INT_MAX ->
  (forall p, th = Producer p -> producer_count J p T) ->
  thread_step inp w th = Step (a, w', th') ->
  produced th' + Z.of_nat (length (deposits_of (trace w)))
  = produced th + Z.of_nat (length (deposits_of (trace w ++ [EThread 0 a]))).
Proof.
  intros HJ Hc H. rewrite deposits_of_app, length_app.
  destruct th as [p|c].
  - apply thread_step_producer in H as (p' & -> & Hstep).
    destruct (Hc p eq_refl) as (Hi & _ & Hit & _).
    unfold producer_step in Hstep.
    destruct p as [pc pid pto ptj pi pd]. simpl in *.
    destruct pc; break_step Hstep; simpl; try lia.
    specialize (Hit eq_refl).
    unfold int_add. rewrite wrap_int_id by (unfold int_range, INT_MIN; lia). lia.
  - apply thread_step_consumer in H as (c' & -> & Hstep).
    unfold consumer_step in Hstep.
    destruct (c_pc c); break_step Hstep; simpl; lia.
Qed.

Lemma deposits_of_tid es tid tid' a :
  deposits_of (es ++ [EThread tid a]) = deposits_of (es ++ [EThread tid' a]).
Proof. by rewrite !deposits_of_app. Qed.

Lemma reachable_produced hdr env argv w0 s :
  NO_ERROR hdr <= 0 ->
  main_startup hdr env argv world_at_startup = (Running, w0) ->
  reachable (system_of_main w0) s ->
  Z.of_nat (length (deposits_of (trace (shared s)))) = total produced (threads s)
  /\ total is_producer (threads s) = Z.max 0 (number_of_producers (vars w0)).
Proof.
  intros Hno Hrun Hreach.
  destruct (main_startup_running hdr env argv w0 Hno Hrun)
    as (id & d & Hnew & Hvars & Hsems & Htrace).
  assert (HJ : jobs_per_producer (vars w0) <= INT_MAX).
  { rewrite Hvars. simpl. apply check_arg_range. }
  induction Hreach as [|s tid a s' Hreach IH Hstep].
  - simpl. rewrite deposits_of_no_thread by done. simpl.
    split.
    + symmetry. by apply total_threads_of_main.
    + unfold threads_of_main. rewrite total_app.
      assert (H1 : forall l,
                total is_producer
                  (map (fun k => Producer (producer_start (Z.of_nat k + 1))) l)
                = Z.of_nat (length l)).
      { induction l as [|x l IHl]; simpl; [done|]. rewrite IHl. lia. }
      assert (H2 : forall l,
                total is_producer
                  (map (fun k => Consumer (consumer_start (Z.of_nat k + 1))) l) = 0).
      { induction l as [|x l IHl]; simpl; [done|]. by rewrite IHl. }
      rewrite H1, H2, length_seq. lia.
  - destruct IH as [IHt IHk].
    assert (Hc : forall p, threads s !! tid = Some (Producer p) ->
                   producer_count (jobs_per_producer (vars w0)) p
                     (actions_of tid (trace (shared s)))).
    { intros p Hl. by eapply reachable_producer_count. }
    destruct Hstep as [tid th inp a w' th' Hth Hts]. simpl in *.
    rewrite !(total_insert _ _ _ _ _ Hth).
    rewrite (thread_step_kind _ _ _ _ _ _ Hts).
    split; [|lia].
    rewrite (thread_step_trace _ _ _ _ _ _ Hts).
    rewrite (deposits_of_tid _ tid 0%nat).
    pose proof (thread_step_produced _ _ _ _ _ _ _ _ HJ
                  (fun p Hp => Hc p (eq_trans Hth (f_equal Some Hp))) Hts).
    lia.
Qed.

(** X22: the process started by [main] deposits at most
    [number_of_producers * jobs_per_producer] jobs: at every moment the
    number of jobs deposited so far is the sum over the producers of
    their loop counters (plus one for a producer between its deposit and
    its [i++]). *)
Theorem jobs_of_a_run_are_bounded
    (hdr : helper_h) (env : environment) (argv : list string)
    (w0 : world) (s : system) :
  NO_ERROR hdr <= 0 ->
  main_startup hdr env argv world_at_startup = (Running, w0) ->
  reachable (system_of_main w0) s ->
  Z.of_nat (length (deposits_of (trace (shared s)))) = total produced (threads s)
  /\ Z.of_nat (length (deposits_of (trace (shared s))))
     <= Z.max 0 (number_of_producers (vars w0))
        * Z.max 0 (jobs_per_producer (vars w0)).
Proof.
  intros Hno Hrun Hreach.
  destruct (reachable_produced hdr env argv w0 s Hno Hrun Hreach) as [Ht Hk].
  split; [done|]. rewrite Ht, <- Hk.
  apply total_le_scaled, Forall_lookup. intros tid th Hl.
  destruct th as [p|c]; [|simpl; lia].
  pose proof (reachable_producer_count hdr env argv w0 s tid p
                Hno Hrun Hreach Hl) as Hc.
  pose proof (produced_bound _ _ _ Hc). simpl in *. lia.
Qed.

Lemma jobs_of_a_run_are_bounded_witness :
  Z.of_nat (length (deposits_of (trace (shared example_iteration_done))))
  = total produced (threads example_iteration_done)
  /\ Z.of_nat (length (deposits_of (trace (shared example_iteration_done))))
     <= Z.max 0 (number_of_producers (vars example_world))
        * Z.max 0 (jobs_per_producer (vars example_world)).
Proof.
  apply (jobs_of_a_run_are_bounded example_hdr example_env example_argv
           example_world example_iteration_done).
  - simpl. lia.
  - reflexivity.
  - apply (example_reachable
             (schedule_to_job_id
              ++ [(0, go); (0, go); (0, go); (0, go); (0, go); (0, go); (0, go)]%nat)).
    reflexivity.
Defined.

(** ** Every run ends *)

Lemma steps_of_app es1 es2 : steps_of (es1 ++ es2) = steps_of es1 + steps_of es2.
Proof.
  induction es1 as [|e es1 IH]; simpl; [done|]. destruct e; lia.
Qed.

Lemma steps_of_no_thread es :
  Forall (fun e => forall tid a, e <> EThread tid a) es -> steps_of es = 0.
Proof.
  induction 1 as [|e es He _ IH]; [done|].
  destruct e; simpl; try done. by destruct (He tid a).
Qed.

Lemma reachable_trans s0 s s' :
  reachable s0 s -> reachable s s' -> reachable s0 s'.
Proof. intros H0. induction 1; [done|]. by eapply reachable_step. Qed.

Lemma reachable_after_step s tid a s1 s' :
  step s tid a s1 -> reachable s1 s' -> reachable s s'.
Proof.
  intros Hstep. apply reachable_trans.
  eapply reachable_step; [constructor | exact Hstep].
Qed.

(** The queue of a running process has been allocated, so [buffer_size]
    is not negative. *)
Lemma main_startup_buffer hdr env argv w0 :
  NO_ERROR hdr <= 0 ->
  main_startup hdr env argv world_at_startup = (Running, w0) ->
  0 <= buffer_size (vars w0).
Proof.
  intros Hno Hrun.
  destruct (main_startup_running hdr env argv w0 Hno Hrun)
    as (id & d & Hnew & Hvars & _).
  rewrite Hvars. simpl. unfold new_array in Hnew.
  destruct (check_arg (arg argv 1) <? 0) eqn:H; [done|]. by apply Z.ltb_ge.
Qed.

(** Whatever the buffer size, the semaphore set of [sem_id] is there and
    [item] is not negative. *)
Lemma reachable_sems hdr env argv w0 s :
  NO_ERROR hdr <= 0 ->
  main_startup hdr env argv world_at_startup = (Running, w0) ->
  reachable (system_of_main w0) s ->
  sem_id (vars (shared s)) = sem_id (vars w0)
  /\ exists vi vs vm,
       semaphores (shared s) = Some (sem_id (vars w0), [vi; vs; vm]) /\ 0 <= vi.
Proof.
  intros Hno Hrun Hreach.
  pose proof (main_startup_buffer hdr env argv w0 Hno Hrun) as HC.
  destruct (decide (buffer_size (vars w0) = 0)) as [H0 | Hne].
  - pose proof (main_startup_empty hdr env argv w0 Hno Hrun H0) as Hemp.
    destruct (reachable_empty _ _ _ Hemp Hreach) as [Hid Hsems _ _ _ _].
    split; [done|]. exists 0, 0, 1. split; [done | lia].
  - destruct (reachable_from_main hdr env argv w0 s Hno Hrun ltac:(lia) Hreach)
      as (_ & [_ _ Hid _ _] & pending & [_ (vi & vs & vm & Hs & Hvi & _) _]).
    split; [done|]. by exists vi, vs, vm.
Qed.

Lemma step_decreases_potential J id s tid a s' :
  J <= INT_MAX ->
  jobs_per_producer (vars (shared s)) = J ->
  sem_id (vars (shared s)) = id ->
  (exists vi vs vm, semaphores (shared s) = Some (id, [vi; vs; vm])) ->
  (forall p, threads s !! tid = Some (Producer p) ->
     in_iteration (p_pc p) = true -> 0 <= p_i p < J) ->
  step s tid a s' ->
  potential J s' + 1 <= potential J s.
Proof.
  intros HJ Hj Hid (vi & vs & vm & Hsems) Hit Hstep.
  destruct Hstep as [tid th inp a w' th' Hth Hts].
  destruct s as [w ths]; simpl in *.
  unfold potential. simpl.
  rewrite (total_insert _ _ _ _ _ Hth).
  unfold item_value at 2. rewrite Hsems.
  destruct th as [p|c]; simpl in Hts.
  - specialize (Hit p Hth).
    destruct (producer_step inp w p) as [| | |[[a0 w0] p0]] eqn:Hps;
      try discriminate.
    injection Hts as <- <- <-.
    unfold producer_step in Hps. rewrite Hid, Hj in Hps.
    rewrite ?(sem_timed_wait_space _ _ _ _ _ Hsems),
      ?(sem_wait_mutex _ _ _ _ _ Hsems), ?(sem_signal_mutex _ _ _ _ _ Hsems),
      ?(sem_signal_item _ _ _ _ _ Hsems) in Hps.
    destruct p as [pc pid pto ptj pi pd]. simpl in *.
    destruct pc; break_step Hps; order_facts;
      unfold item_value, producer_potential; simpl; rewrite ?Hsems;
      try specialize (Hit eq_refl); try lia.
    unfold int_add. rewrite wrap_int_id by (unfold int_range, INT_MIN; lia). lia.
  - destruct (consumer_step inp w c) as [| | |[[a0 w0] c0]] eqn:Hcs;
      try discriminate.
    injection Hts as <- <- <-.
    unfold consumer_step in Hcs. rewrite Hid in Hcs.
    rewrite ?(sem_timed_wait_item _ _ _ _ _ Hsems),
      ?(sem_wait_mutex _ _ _ _ _ Hsems), ?(sem_signal_mutex _ _ _ _ _ Hsems),
      ?(sem_signal_space _ _ _ _ _ Hsems) in Hcs.
    destruct c as [pc cid ctj]. simpl in *.
    destruct pc; break_step Hcs; order_facts;
      unfold item_value, consumer_potential; simpl; rewrite ?Hsems; lia.
Qed.

Lemma producer_potential_nonneg J p T :
  producer_count J p T -> 0 <= producer_potential J p.
Proof.
  intros (Hi & _ & Hit & _). unfold producer_potential.
  destruct (p_pc p); simpl in *; try lia; try (specialize (Hit eq_refl); lia).
  destruct (p_timeout p); [lia|]. specialize (Hit eq_refl). lia.
Qed.

Lemma consumer_potential_nonneg c : 0 <= consumer_potential c.
Proof. unfold consumer_potential. destruct (c_pc c); lia. Qed.

Lemma total_nonneg_in f ths :
  (forall tid th, ths !! tid = Some th -> 0 <= f th) -> 0 <= total f ths.
Proof.
  intros Hf. induction ths as [|th ths IH]; simpl; [lia|].
  pose proof (Hf 0%nat th eq_refl).
  assert (0 <= total f ths); [|lia].
  apply IH. intros tid th0 Hl. by apply (Hf (S tid)).
Qed.

Lemma potential_of_main J w0 :
  potential J (system_of_main w0)
  = Z.max 0 (number_of_producers (vars w0)) * (21 * Z.max 0 J + 4)
    + 3 * Z.max 0 (number_of_consumers (vars w0))
    + 8 * item_value w0.
Proof.
  unfold potential, system_of_main, threads_of_main. simpl.
  rewrite total_app.
  assert (H1 : forall l,
            total (thread_potential J)
              (map (fun k => Producer (producer_start (Z.of_nat k + 1))) l)
            = Z.of_nat (length l) * (21 * Z.max 0 J + 4)).
  { induction l as [|x l IHl]; simpl; [done|]. rewrite IHl.
    unfold producer_potential. simpl. lia. }
  assert (H2 : forall l,
            total (thread_potential J)
              (map (fun k => Consumer (consumer_start (Z.of_nat k + 1))) l)
            = 3 * Z.of_nat (length l)).
  { induction l as [|x l IHl]; simpl; [done|]. rewrite IHl.
    unfold consumer_potential. simpl. lia. }
  rewrite H1, H2, !length_seq. lia.
Qed.

(** Every statement of a thread takes one unit off the potential. *)
Lemma reachable_step_decreases hdr env argv w0 s tid a s' :
  NO_ERROR hdr <= 0 ->
  main_startup hdr env argv world_at_startup = (Running, w0) ->
  reachable (system_of_main w0) s ->
  step s tid a s' ->
  potential (jobs_per_producer (vars w0)) s' + 1
  <= potential (jobs_per_producer (vars w0)) s.
Proof.
  intros Hno Hrun Hreach Hstep.
  destruct (main_startup_running hdr env argv w0 Hno Hrun)
    as (id & d & Hnew & Hvars & Hsems & Htrace).
  destruct (reachable_sems hdr env argv w0 s Hno Hrun Hreach)
    as (Hid & vi & vs & vm & Hs & _).
  eapply step_decreases_potential; eauto.
  - rewrite Hvars. simpl. apply check_arg_range.
  - by rewrite (reachable_jobs _ _ Hreach).
  - intros p Hl Hit.
    destruct (reachable_producer_count hdr env argv w0 s tid p
                Hno Hrun Hreach Hl) as (Hi & _ & Hlt & _).
    split; [done | by apply Hlt].
Qed.

Lemma reachable_potential hdr env argv w0 s :
  NO_ERROR hdr <= 0 ->
  main_startup hdr env argv world_at_startup = (Running, w0) ->
  reachable (system_of_main w0) s ->
  0 <= potential (jobs_per_producer (vars w0)) s
  /\ steps_of (trace (shared s)) + potential (jobs_per_producer (vars w0)) s
     <= Z.max 0 (number_of_producers (vars w0))
        * (21 * Z.max 0 (jobs_per_producer (vars w0)) + 4)
        + 3 * Z.max 0 (number_of_consumers (vars w0)).
Proof.
  intros Hno Hrun Hreach.
  destruct (main_startup_running hdr env argv w0 Hno Hrun)
    as (id & d & Hnew & Hvars & Hsems & Htrace).
  split.
  - destruct (reachable_sems hdr env argv w0 s Hno Hrun Hreach)
      as (_ & vi & vs & vm & Hs & Hvi).
    unfold potential, item_value. rewrite Hs.
    assert (0 <= total (thread_potential (jobs_per_producer (vars w0))) (threads s));
      [|lia].
    apply total_nonneg_in. intros tid [p|c] Hl; simpl.
    + eapply producer_potential_nonneg.
      by eapply (reachable_producer_count hdr env argv w0 s tid p).
    + apply consumer_potential_nonneg.
  - induction Hreach as [|s tid a s' Hreach IH Hstep].
    + rewrite potential_of_main. simpl.
      rewrite steps_of_no_thread by done.
      unfold item_value. rewrite Hsems. lia.
    + pose proof (reachable_step_decreases hdr env argv w0 s tid a s'
                    Hno Hrun Hreach Hstep) as Hdec.
      destruct Hstep as [tid th inp a w' th' Hth Hts].
      unfold potential, item_value in *. simpl in *.
      rewrite (thread_step_trace _ _ _ _ _ _ Hts), steps_of_app. simpl. lia.
Qed.

(** With a buffer of 0 slots every thread that has not finished has a
    next statement: it never waits for the mutex, and its timed waits
    give up. *)
Lemma thread_enabled_empty id s tid th :
  system_empty id s -> threads s !! tid = Some th -> finished th = false ->
  exists a w' th',
    thread_step (mk_input 0 true) (shared s) th = Step (a, w', th').
Proof.
  intros [Hid Hsems Hths _ _ _] Hl Hfin.
  pose proof (Hths tid th Hl) as Hout.
  destruct th as [p|c]; simpl in *.
  - unfold producer_step. rewrite Hid.
    rewrite ?(sem_timed_wait_space _ _ _ _ _ Hsems).
    destruct (produce_1_10 (in_rand (mk_input 0 true))) as (d1 & -> & _).
    destruct (produce_1_5 (in_rand (mk_input 0 true))) as (d2 & -> & _).
    destruct (p_pc p); try done; simpl; eauto.
    + destruct (p_i p <? _); eauto.
    + rewrite Hout. eauto.
    + destruct (negb (p_timeout p)); eauto.
  - unfold consumer_step. rewrite Hid.
    rewrite ?(sem_timed_wait_item _ _ _ _ _ Hsems).
    destruct (c_pc c); try done; simpl; eauto.
Qed.

Lemma system_ok_not_stuck C J id s tid0 th0 :
  0 < C -> C <= INT_MAX -> system_ok C J id s ->
  threads s !! tid0 = Some th0 -> finished th0 = false ->
  exists tid a s', step s tid a s'.
Proof.
  intros HC HC' [Hq _ Hid (vi & vs & vm & Hsems & Hvm & Hcount) _] H0 Hfin.
  destruct (thread_enabled _ _ vi vs vm _ HC HC' Hq Hid Hsems th0 Hfin)
    as [(a & w' & th' & Hs) | (_ & Hzero)].
  { eexists tid0, a, _. by eapply step_thread. }
  destruct (holders_positive (threads s)) as (tid & th & Hl & Hcs); [lia|].
  destruct (thread_enabled _ _ vi vs vm _ HC HC' Hq Hid Hsems th
              (in_critical_section_not_finished th Hcs))
    as [(a & w' & th' & Hs) | (Hout & _)]; [|congruence].
  eexists tid, a, _. by eapply step_thread.
Qed.

(** Whatever the buffer size: while a thread has not finished, some
    thread has a next statement. *)
Lemma reachable_not_stuck hdr env argv w0 s tid0 th0 :
  NO_ERROR hdr <= 0 ->
  main_startup hdr env argv world_at_startup = (Running, w0) ->
  reachable (system_of_main w0) s ->
  threads s !! tid0 = Some th0 -> finished th0 = false ->
  exists tid a s', step s tid a s'.
Proof.
  intros Hno Hrun Hreach H0 Hfin.
  pose proof (main_startup_buffer hdr env argv w0 Hno Hrun) as HC.
  destruct (decide (buffer_size (vars w0) = 0)) as [Hz | Hne].
  - pose proof (main_startup_empty hdr env argv w0 Hno Hrun Hz) as Hemp.
    pose proof (reachable_empty _ _ _ Hemp Hreach) as Hs.
    destruct (thread_enabled_empty _ _ _ _ Hs H0 Hfin) as (a & w' & th' & Hts).
    eexists tid0, a, _. by eapply step_thread.
  - destruct (reachable_from_main hdr env argv w0 s Hno Hrun ltac:(lia) Hreach)
      as (HC' & Hok & _).
    eapply system_ok_not_stuck; eauto. lia.
Qed.

Lemma finished_or_not ths :
  Forall (fun th => finished th = true) ths
  \/ exists tid th, ths !! tid = Some th /\ finished th = false.
Proof.
  induction ths as [|th ths [IH | (tid & th' & Hl & Hf)]].
  - left. constructor.
  - destruct (finished th) eqn:Hth.
    + left. by constructor.
    + right. by exists 0%nat, th.
  - right. by exists (S tid), th'.
Qed.

(** A state from which no thread can go on is one in which every thread
    has finished. *)
Lemma stuck_is_finished hdr env argv w0 s :
  NO_ERROR hdr <= 0 ->
  main_startup hdr env argv world_at_startup = (Running, w0) ->
  reachable (system_of_main w0) s ->
  (forall tid a s', ~ step s tid a s') ->
  Forall (fun th => finished th = true) (threads s).
Proof.
  intros Hno Hrun Hreach Hstuck.
  destruct (finished_or_not (threads s)) as [Hall | (tid & th & Hl & Hf)]; [done|].
  destruct (reachable_not_stuck hdr env argv w0 s tid th Hno Hrun Hreach Hl Hf)
    as (tid' & a & s' & Hstep).
  by destruct (Hstuck tid' a s').
Qed.

(** Every run can be continued until every thread has finished. *)
Lemma can_finish hdr env argv w0 s :
  NO_ERROR hdr <= 0 ->
  main_startup hdr env argv world_at_startup = (Running, w0) ->
  reachable (system_of_main w0) s ->
  exists s', reachable s s'
             /\ Forall (fun th => finished th = true) (threads s').
Proof.
  intros Hno Hrun.
  assert (Hgen : forall (n : nat) s1,
            reachable (system_of_main w0) s1 ->
            potential (jobs_per_producer (vars w0)) s1 <= Z.of_nat n ->
            exists s', reachable s1 s'
                       /\ Forall (fun th => finished th = true) (threads s')).
  { induction n as [|n IH]; intros s1 Hr Hp;
      (destruct (finished_or_not (threads s1)) as [Hall | (tid & th & Hl & Hf)];
       [exists s1; split; [constructor | done]|]);
      destruct (reachable_not_stuck hdr env argv w0 s1 tid th Hno Hrun Hr Hl Hf)
        as (tid' & a & s2 & Hstep);
      pose proof (reachable_step_decreases hdr env argv w0 s1 tid' a s2
                    Hno Hrun Hr Hstep) as Hdec;
      assert (Hr2 : reachable (system_of_main w0) s2)
        by (eapply reachable_step; eauto);
      destruct (reachable_potential hdr env argv w0 s2 Hno Hrun Hr2) as [Hnn _].
    - lia.
    - destruct (IH s2 Hr2 ltac:(lia)) as (s' & Hr' & Hall).
      exists s'. split; [|done]. by eapply reachable_after_step. }
  intros Hreach.
  destruct (reachable_potential hdr env argv w0 s Hno Hrun Hreach) as [Hnn _].
  apply (Hgen (Z.to_nat (potential (jobs_per_producer (vars w0)) s))); [done | lia].
Qed.

(** A thread stays what it is: a producer stays a producer with the same
    id. *)
Lemma reachable_producer_stays s s' :
  reachable s s' ->
  forall tid p, threads s !! tid = Some (Producer p) ->
  exists p', threads s' !! tid = Some (Producer p') /\ p_id p' = p_id p.
Proof.
  induction 1 as [|s1 tid0 a s2 Hreach IH Hstep]; intros tid p Hl; [eauto|].
  destruct (IH tid p Hl) as (p1 & Hl1 & Hid1).
  destruct Hstep as [tid0 th inp a w' th' Hth Hts]. simpl.
  destruct (decide (tid0 = tid)) as [-> | Hne].
  - rewrite Hl1 in Hth. injection Hth as <-.
    apply thread_step_producer in Hts as (p' & -> & Hps).
    exists p'. split.
    + apply list_lookup_insert_eq. by eapply lookup_lt_Some.
    + by rewrite (producer_step_id _ _ _ _ _ _ Hps).
  - exists p1. by rewrite list_lookup_insert_ne.
Qed.

(** A producer makes a timed wait only inside an iteration of its loop,
    and there is one only when [jobs_per_producer] is positive. *)
Lemma reachable_waits_need_jobs hdr env argv w0 s tid p :
  NO_ERROR hdr <= 0 ->
  main_startup hdr env argv world_at_startup = (Running, w0) ->
  reachable (system_of_main w0) s ->
  threads s !! tid = Some (Producer p) ->
  forall r, In (ASemTimedWait space 20 r) (actions_of tid (trace (shared s))) ->
            0 < jobs_per_producer (vars w0).
Proof.
  intros Hno Hrun Hreach Hl.
  destruct (main_startup_running hdr env argv w0 Hno Hrun)
    as (id & d & Hnew & Hvars & Hsems & Htrace).
  assert (HJ : jobs_per_producer (vars w0) <= INT_MAX).
  { rewrite Hvars. simpl. apply check_arg_range. }
  enough (Hinv : producer_count (jobs_per_producer (vars w0)) p
                   (actions_of tid (trace (shared s)))
                 /\ forall r,
                      In (ASemTimedWait space 20 r)
                         (actions_of tid (trace (shared s))) ->
                      0 < jobs_per_producer (vars w0)) by apply Hinv.
  eapply (producer_invariant
            (fun p T => producer_count (jobs_per_producer (vars w0)) p T
                        /\ forall r, In (ASemTimedWait space 20 r) T ->
                                     0 < jobs_per_producer (vars w0))
            (jobs_per_producer (vars w0))); eauto.
  - intros tid0 p0 Hl0. simpl. rewrite actions_of_no_thread by done.
    apply threads_of_main_start in Hl0 as [(i & [= ->]) | (i & [=])].
    split; [|by intros r []]. repeat split; simpl; try done; lia.
  - intros s1 Hr1. by rewrite (reachable_jobs _ _ Hr1).
  - intros inp w p0 a w' p' T Hjobs Hstep [Hc Hw].
    split; [by eapply producer_count_step|].
    destruct Hc as (Hi & _ & Hit & _).
    unfold producer_step in Hstep.
    destruct (p_pc p0) eqn:Hpc; break_step Hstep;
      intros r Hin; apply in_app_iff in Hin as [Hin | [Heq | []]];
      eauto; try discriminate Heq.
    specialize (Hit eq_refl). lia.
Qed.

(** What a producer that is done has printed. *)
Lemma producer_done_messages hdr env argv w0 s tid p :
  NO_ERROR hdr <= 0 ->
  main_startup hdr env argv world_at_startup = (Running, w0) ->
  reachable (system_of_main w0) s ->
  threads s !! tid = Some (Producer p) ->
  p_pc p = PDone ->
  let T := actions_of tid (trace (shared s)) in
  (In (APrintf (ProducerNoMoreJobs (p_id p))) T <-> ~ timed_out T)
  /\ (timed_out T -> In (APrintf (ProducerTimeout (p_id p))) T)
  /\ (jobs_per_producer (vars w0) <= 0 ->
      In (APrintf (ProducerNoMoreJobs (p_id p))) T).
Proof.
  intros Hno Hrun Hreach Hl Hpc T.
  pose proof (reachable_producer_progress hdr env argv w0 s tid p
                Hno Hrun Hreach Hl) as Hinv.
  fold T in Hinv.
  assert (Hdone : ~ timed_out T -> In (APrintf (ProducerNoMoreJobs (p_id p))) T)
    by (intros Hn; by eapply progress_done).
  split; [|split].
  - split; [|done]. intros Hin. by apply (progress_exhausted _ _ _ Hinv Hin).
  - intros (r & Hr & Hin).
    apply in_split in Hin as (T1 & T2 & HT).
    destruct (progress_gave_up_then _ _ _ _ _ _ Hinv HT Hr) as [_ Hseq].
    rewrite HT, (Hseq Hpc). apply in_app_iff. simpl. auto.
  - intros HJ. apply Hdone. intros (r & _ & Hin).
    pose proof (reachable_waits_need_jobs hdr env argv w0 s tid p
                  Hno Hrun Hreach Hl r Hin).
    lia.
Qed.

(** C7: for a producer of the process started by [main].  It prints the
    exhaustion message only when no timed wait of it gave up and it has
    deposited in every configured iteration.  After a timed wait that
    gave up it does nothing but test [timeout], print the time-out
    message, test [timeout] again and exit.  Once it is done it has
    printed the exhaustion message if and only if no timed wait gave up,
    all iterations then being made, and the time-out message if one did;
    a timed wait is made only when [jobs_per_producer] is positive, so
    that a producer with no job to make prints the exhaustion message.
    The producer does get done: the run cannot go on for ever, when no
    thread can go on the producer is done, and every run can be continued
    to a state in which it is done and has printed its message. *)
Theorem producer_exhaustion_or_timeout
    (hdr : helper_h) (env : environment) (argv : list string)
    (w0 : world) (s : system) (tid : nat) (p : producer_frame) :
  NO_ERROR hdr <= 0 ->
  main_startup hdr env argv world_at_startup = (Running, w0) ->
  reachable (system_of_main w0) s ->
  threads s !! tid = Some (Producer p) ->
  let T := actions_of tid (trace (shared s)) in
  let all_iterations :=
    ~ timed_out T /\ deposits_in T = Z.max 0 (jobs_per_producer (vars w0)) in
  (In (APrintf (ProducerNoMoreJobs (p_id p))) T -> all_iterations)
  /\ (p_pc p = PDone ->
      (In (APrintf (ProducerNoMoreJobs (p_id p))) T <-> all_iterations))
  /\ (forall T1 r T2,
        T = T1 ++ ASemTimedWait space 20 r :: T2 -> r <> 0 ->
        T2 `prefix_of` timeout_sequence (p_id p)
        /\ (p_pc p = PDone -> T2 = timeout_sequence (p_id p)))
  /\ (p_pc p = PDone ->
      (In (APrintf (ProducerNoMoreJobs (p_id p))) T <-> ~ timed_out T)
      /\ (timed_out T -> In (APrintf (ProducerTimeout (p_id p))) T))
  /\ (timed_out T -> 0 < jobs_per_producer (vars w0))
  /\ steps_of (trace (shared s))
     <= Z.max 0 (number_of_producers (vars w0))
        * (21 * Z.max 0 (jobs_per_producer (vars w0)) + 4)
        + 3 * Z.max 0 (number_of_consumers (vars w0))
  /\ ((forall tid' a s', ~ step s tid' a s') -> p_pc p = PDone)
  /\ (exists s' p',
        reachable s s' /\ threads s' !! tid = Some (Producer p')
        /\ p_id p' = p_id p /\ p_pc p' = PDone
        /\ let T' := actions_of tid (trace (shared s')) in
           (In (APrintf (ProducerNoMoreJobs (p_id p))) T' <-> ~ timed_out T')
           /\ (timed_out T' -> In (APrintf (ProducerTimeout (p_id p))) T')
           /\ (jobs_per_producer (vars w0) <= 0 ->
               In (APrintf (ProducerNoMoreJobs (p_id p))) T')).
Proof.
  intros Hno Hrun Hreach Hl T all_iterations.
  pose proof (reachable_producer_progress hdr env argv w0 s tid p
                Hno Hrun Hreach Hl) as Hinv.
  fold T in Hinv.
  split; [by apply progress_exhausted|]. split.
  { intros Hpc. split; [by apply progress_exhausted|].
    intros [Hn _]. by eapply progress_done. }
  split.
  { intros T1 r T2 HT Hr. by eapply progress_gave_up_then. }
  split.
  { intros Hpc.
    destruct (producer_done_messages hdr env argv w0 s tid p
                Hno Hrun Hreach Hl Hpc) as (H1 & H2 & _).
    by split. }
  split.
  { intros (r & _ & Hin).
    by eapply (reachable_waits_need_jobs hdr env argv w0 s tid p). }
  split.
  { destruct (reachable_potential hdr env argv w0 s Hno Hrun Hreach). lia. }
  split.
  - intros Hstuck.
    pose proof (stuck_is_finished hdr env argv w0 s Hno Hrun Hreach Hstuck) as Hall.
    rewrite Forall_lookup in Hall. specialize (Hall tid _ Hl). simpl in Hall.
    by destruct (p_pc p).
  - destruct (can_finish hdr env argv w0 s Hno Hrun Hreach) as (s' & Hr' & Hall).
    destruct (reachable_producer_stays s s' Hr' tid p Hl) as (p' & Hl' & Hid).
    assert (Hpc : p_pc p' = PDone).
    { rewrite Forall_lookup in Hall. specialize (Hall tid _ Hl'). simpl in Hall.
      by destruct (p_pc p'). }
    exists s', p'. split; [done|]. split; [done|]. split; [done|].
    split; [done|]. rewrite <- Hid.
    apply (producer_done_messages hdr env argv w0 s' tid p'); try done.
    by eapply reachable_trans.
Qed.

Lemma producer_exhaustion_or_timeout_witness :
  let conclusion (w0 : world) (s : system) (tid : nat) (p : producer_frame) :=
    let T := actions_of tid (trace (shared s)) in
    let all_iterations :=
      ~ timed_out T /\ deposits_in T = Z.max 0 (jobs_per_producer (vars w0)) in
    (In (APrintf (ProducerNoMoreJobs (p_id p))) T -> all_iterations)
    /\ (p_pc p = PDone ->
        (In (APrintf (ProducerNoMoreJobs (p_id p))) T <-> all_iterations))
    /\ (forall T1 r T2,
          T = T1 ++ ASemTimedWait space 20 r :: T2 -> r <> 0 ->
          T2 `prefix_of` timeout_sequence (p_id p)
          /\ (p_pc p = PDone -> T2 = timeout_sequence (p_id p)))
    /\ (p_pc p = PDone ->
        (In (APrintf (ProducerNoMoreJobs (p_id p))) T <-> ~ timed_out T)
        /\ (timed_out T -> In (APrintf (ProducerTimeout (p_id p))) T))
    /\ (timed_out T -> 0 < jobs_per_producer (vars w0))
    /\ steps_of (trace (shared s))
       <= Z.max 0 (number_of_producers (vars w0))
          * (21 * Z.max 0 (jobs_per_producer (vars w0)) + 4)
          + 3 * Z.max 0 (number_of_consumers (vars w0))
    /\ ((forall tid' a s', ~ step s tid' a s') -> p_pc p = PDone)
    /\ (exists s' p',
          reachable s s' /\ threads s' !! tid = Some (Producer p')
          /\ p_id p' = p_id p /\ p_pc p' = PDone
          /\ let T' := actions_of tid (trace (shared s')) in
             (In (APrintf (ProducerNoMoreJobs (p_id p))) T' <-> ~ timed_out T')
             /\ (timed_out T' -> In (APrintf (ProducerTimeout (p_id p))) T')
             /\ (jobs_per_producer (vars w0) <= 0 ->
                 In (APrintf (ProducerNoMoreJobs (p_id p))) T')) in
  conclusion example_world_one example_exhausted 0%nat
             (mk_producer PDone 1 false (mk_job 1 3) 1 3)
  /\ conclusion example_world example_gave_up 0%nat
                (mk_producer PDone 1 true (mk_job 0 0) 0 3).
Proof.
  split.
  - apply (producer_exhaustion_or_timeout example_hdr example_env
             example_argv_one example_world_one example_exhausted 0%nat).
    + simpl. lia.
    + reflexivity.
    + apply (run_schedule_reachable schedule_exhausted
               _ (system_of_main example_world_one)); [constructor | reflexivity].
    + reflexivity.
  - apply (producer_exhaustion_or_timeout example_hdr example_env example_argv
             example_world example_gave_up 0%nat).
    + simpl. lia.
    + reflexivity.
    + apply (run_schedule_reachable
               [(0, go); (0, go); (0, go); (0, let_expire); (0, go); (0, go);
                (0, go); (0, go)]%nat
               _ (system_of_main example_world)); [constructor | reflexivity].
    + reflexivity.
Defined.

(** X23: every run of the process started by [main] ends.  With [P]
    producers, [M] consumers and [J] jobs per producer, the threads
    execute at most [P * (21 * J + 4) + 3 * M] statements altogether,
    whatever the interleaving and whichever timed waits give up: a
    producer runs at most [J] iterations of 13 statements, every job
    costs a consumer a turn of 8 statements, and leaving takes a producer
    at most 4 and a consumer 3 statements.  A state from which no thread
    can go on is one in which every thread has finished, that is, has
    executed its [pthread_exit]; and every run can be continued to such a
    state. *)
Theorem run_is_finite
    (hdr : helper_h) (env : environment) (argv : list string)
    (w0 : world) (s : system) :
  NO_ERROR hdr <= 0 ->
  main_startup hdr env argv world_at_startup = (Running, w0) ->
  reachable (system_of_main w0) s ->
  let bound :=
    Z.max 0 (number_of_producers (vars w0))
    * (21 * Z.max 0 (jobs_per_producer (vars w0)) + 4)
    + 3 * Z.max 0 (number_of_consumers (vars w0)) in
  steps_of (trace (shared s)) <= bound
  /\ 0 <= potential (jobs_per_producer (vars w0)) s
  /\ steps_of (trace (shared s)) + potential (jobs_per_producer (vars w0)) s
     <= bound
  /\ ((forall tid a s', ~ step s tid a s') ->
      Forall (fun th => finished th = true) (threads s))
  /\ (exists s', reachable s s'
                 /\ Forall (fun th => finished th = true) (threads s')).
Proof.
  intros Hno Hrun Hreach bound. subst bound.
  destruct (reachable_potential hdr env argv w0 s Hno Hrun Hreach) as [Hnn Hb].
  split; [lia|]. split; [done|]. split; [done|]. split.
  - by apply (stuck_is_finished hdr env argv w0).
  - by apply (can_finish hdr env argv w0).
Qed.

Lemma run_is_finite_witness :
  let bound :=
    Z.max 0 (number_of_producers (vars example_world))
    * (21 * Z.max 0 (jobs_per_producer (vars example_world)) + 4)
    + 3 * Z.max 0 (number_of_consumers (vars example_world)) in
  steps_of (trace (shared example_consumer_done)) <= bound
  /\ 0 <= potential (jobs_per_producer (vars example_world)) example_consumer_done
  /\ steps_of (trace (shared example_consumer_done))
     + potential (jobs_per_producer (vars example_world)) example_consumer_done
     <= bound
  /\ ((forall tid a s', ~ step example_consumer_done tid a s') ->
      Forall (fun th => finished th = true) (threads example_consumer_done))
  /\ (exists s', reachable example_consumer_done s'
                 /\ Forall (fun th => finished th = true) (threads s')).
Proof.
  apply (run_is_finite example_hdr example_env example_argv example_world
           example_consumer_done).
  - simpl. lia.
  - reflexivity.
  - apply (example_reachable
             (schedule_to_job_id
              ++ [(0, go); (0, go); (0, go); (0, go); (0, go); (1, go); (1, go);
                  (1, go); (1, go); (1, go); (1, go); (1, go); (1, go);
                  (1, let_expire); (1, go); (1, go)]%nat)).
    reflexivity.
Defined.

(** ** The end of a run *)

Lemma total_finished f ths :
  (forall th, finished th = true -> f th = 0) ->
  Forall (fun th => finished th = true) ths -> total f ths = 0.
Proof.
  intros Hf Hall. apply total_zero. eapply Forall_impl; [exact Hall|]. auto.
Qed.

Lemma holders_finished ths :
  Forall (fun th => finished th = true) ths -> holders ths = 0.
Proof.
  induction 1 as [|th ths H _ IH]; simpl; [done|]. rewrite IH.
  unfold holds_mutex.
  destruct (in_critical_section th) eqn:Hcs; [|done].
  apply in_critical_section_not_finished in Hcs. congruence.
Qed.

(** X24: when every thread of the process started by [main] (buffer of
    [C > 0] slots) has finished, the semaphores are back in a state of
    rest: [mutex] is 1, [item] is the number of jobs left in the queue
    (deposited and never fetched), and [space] is [C] less that number.
    [sem_id] still names the set, so that the [sem_close] of [main]
    removes it unless the system refuses, and [main] returns
    [NO_ERROR]. *)
Theorem state_at_the_end_of_a_run
    (hdr : helper_h) (env : environment) (argv : list string)
    (w0 : world) (s : system) :
  NO_ERROR hdr <= 0 ->
  main_startup hdr env argv world_at_startup = (Running, w0) ->
  0 < buffer_size (vars w0) ->
  reachable (system_of_main w0) s ->
  Forall (fun th => finished th = true) (threads s) ->
  exists n w' r,
    n = Z.of_nat (length (deposits_of (trace (shared s))))
        - Z.of_nat (length (fetches_of (trace (shared s))))
    /\ 0 <= n <= buffer_size (vars w0)
    /\ semaphores (shared s)
       = Some (sem_id (vars w0), [n; buffer_size (vars w0) - n; 1])
    /\ main_shutdown hdr env (shared s) = (NO_ERROR hdr, w')
    /\ trace w' = trace (shared s)
                  ++ [ESemctlRmid (sem_id (vars w0)) r; EDeleteJobArray]
    /\ (env_rmid env = None -> r = 0 /\ semaphores w' = None).
Proof.
  intros Hno Hrun HC Hreach Hall.
  destruct (reachable_from_main hdr env argv w0 s Hno Hrun HC Hreach)
    as (_ & [_ _ Hid (vi0 & vs0 & vm & Hsems0 & Hvm & Hcount) _]
        & pending & [Hh (vi & vs & vm' & Hsems & Hvi & Hvs & Hitem & Hspace) Hfifo]).
  rewrite Hsems in Hsems0. injection Hsems0 as <- <- <-.
  rewrite holders_finished in Hcount by done.
  rewrite !total_finished in Hitem, Hspace; try done.
  2-5: intros [p|c]; simpl; try done;
    first [destruct (p_pc p) | destruct (c_pc c)]; done.
  destruct s as [w ths]. destruct w as [g e sems tr]. simpl in *. subst sems.
  destruct env as [sg si sv rm fr st].
  exists (Z.of_nat (length pending)).
  unfold main_shutdown, sem_close, semctl_rmid, fail_with. unfold_state. simpl.
  rewrite Hid.
  destruct rm as [e'|]; simpl; rewrite ?Z.eqb_refl; simpl;
    eexists _, _; (split; [rewrite Hfifo, length_app; lia|]);
    (split; [lia|]); (split; [repeat f_equal; lia|]);
    (split; [reflexivity|]); simpl; rewrite <- app_assoc; by repeat split.
Qed.

Lemma state_at_the_end_of_a_run_witness :
  exists n w' r,
    n = Z.of_nat (length (deposits_of (trace (shared example_all_done))))
        - Z.of_nat (length (fetches_of (trace (shared example_all_done))))
    /\ 0 <= n <= buffer_size (vars example_world)
    /\ semaphores (shared example_all_done)
       = Some (sem_id (vars example_world),
               [n; buffer_size (vars example_world) - n; 1])
    /\ main_shutdown example_hdr example_env (shared example_all_done)
       = (NO_ERROR example_hdr, w')
    /\ trace w' = trace (shared example_all_done)
                  ++ [ESemctlRmid (sem_id (vars example_world)) r; EDeleteJobArray]
    /\ (env_rmid example_env = None -> r = 0 /\ semaphores w' = None).
Proof.
  apply (state_at_the_end_of_a_run example_hdr example_env example_argv
           example_world example_all_done).
  - simpl. lia.
  - reflexivity.
  - simpl. lia.
  - apply (example_reachable
             (schedule_to_job_id
              ++ [(0, go); (0, go); (0, go); (0, go); (0, go); (1, go); (1, go);
                  (1, go); (1, go); (1, go); (1, go); (1, go); (1, go);
                  (1, let_expire); (1, go); (1, go);
                  (0, go); (0, go); (0, go); (0, go); (0, go); (0, let_expire);
                  (0, go); (0, go); (0, go); (0, go)]%nat)).
    reflexivity.
  - repeat constructor.
Defined.

(** ** The ids of the jobs in the queue *)

(** What a statement does to the global variables. *)
Lemma thread_step_queue inp w th a w' th' :
  thread_step inp w th = Step (a, w', th') ->
  match a with
  | ADeposit j => deposit_item j (vars w) = Some (vars w')
  | AFetch j => fetch_item (vars w) = Some (j, vars w')
  | _ => vars w' = vars w
  end.
Proof.
  destruct th as [p|c]; intros H.
  - apply thread_step_producer in H as (p' & -> & H).
    unfold producer_step in H.
    destruct (p_pc p) eqn:Hpc; break_step H; try done;
      eauto using sem_wait_vars, sem_signal_vars.
    by eapply sem_timed_wait_vars.
  - apply thread_step_consumer in H as (c' & -> & H).
    unfold consumer_step in H.
    destruct (c_pc c) eqn:Hpc; break_step H; try done;
      eauto using sem_wait_vars, sem_signal_vars.
    by eapply sem_timed_wait_vars.
Qed.

Lemma step_preserves_slots C J id s tid a s' pending pending' :
  0 < C -> C <= INT_MAX ->
  system_ok C J id s -> holds_jobs C (vars (shared s)) pending ->
  slots_numbered C (vars (shared s)) pending ->
  step s tid a s' ->
  match a with
  | ADeposit j => Z.of_nat (length pending) < C /\ pending' = pending ++ [j]
  | AFetch j => pending = j :: pending'
  | _ => pending' = pending
  end ->
  slots_numbered C (vars (shared s')) pending'.
Proof.
  intros HC HC' [Hq _ _ _ Hjob] [_ Hn Ht _] Hslots Hstep Hrel.
  destruct Hstep as [tid th inp a w' th' Hth Hts].
  destruct s as [w ths]; simpl in *.
  pose proof (thread_step_queue _ _ _ _ _ _ Hts) as Hvars.
  destruct a;
    try (subst pending'; rewrite Hvars; exact Hslots).
  - (* deposit *)
    destruct Hrel as [Hlt ->].
    apply step_deposit in Hts as (p & -> & Hpc & -> & _).
    rewrite (deposit_item_ok C HC HC' _ _ Hq) in Hvars. injection Hvars as <-.
    simpl. intros k j0 Hk.
    destruct (decide (k = length pending)) as [-> | Hne].
    + rewrite list_lookup_middle in Hk by done. injection Hk as <-.
      rewrite (Hjob tid p Hth (or_intror Hpc)), Ht. done.
    + apply Hslots. rewrite lookup_app_l in Hk; [done|].
      apply lookup_lt_Some in Hk. rewrite length_app in Hk. simpl in Hk. lia.
  - (* fetch *)
    subst pending.
    destruct (fetch_item_ok C HC HC' _ Hq) as (j0 & _ & Hf).
    rewrite Hf in Hvars. injection Hvars as _ <-.
    simpl. intros k j1 Hk.
    rewrite (Hslots (S k) j1 Hk). simpl.
    rewrite Z.add_mod_idemp_l by lia. do 2 f_equal. lia.
Qed.

Lemma reachable_slots hdr env argv w0 s :
  NO_ERROR hdr <= 0 ->
  main_startup hdr env argv world_at_startup = (Running, w0) ->
  0 < buffer_size (vars w0) ->
  reachable (system_of_main w0) s ->
  exists pending,
    system_counts (buffer_size (vars w0)) (sem_id (vars w0)) s pending
    /\ slots_numbered (buffer_size (vars w0)) (vars (shared s)) pending.
Proof.
  intros Hno Hrun HC.
  induction 1 as [|s tid a s' Hreach IH Hstep].
  - exists []. split; [by eapply main_startup_counts|]. by intros k j [=].
  - destruct IH as (pending & Hcnt & Hslots).
    destruct (reachable_from_main hdr env argv w0 s Hno Hrun HC Hreach)
      as (HC' & Hok & _).
    destruct (step_preserves_counts _ _ _ _ _ _ _ _ HC HC' Hok Hcnt Hstep)
      as (pending' & Hcnt' & Hrel).
    exists pending'. split; [done|].
    eapply step_preserves_slots; eauto. by destruct Hcnt.
Qed.

(** X25: in the process started by [main] with a buffer of [C > 0] slots,
    the id of a job is the number of its slot plus one: the job that
    waits at position [k] of the queue has the id
    [(head + k) mod C + 1].  The jobs that wait in the queue at the same
    time therefore have different ids, while the ids of jobs that do not
    meet in the queue repeat. *)
Theorem queued_jobs_carry_their_slot
    (hdr : helper_h) (env : environment) (argv : list string)
    (w0 : world) (s : system) :
  NO_ERROR hdr <= 0 ->
  main_startup hdr env argv world_at_startup = (Running, w0) ->
  0 < buffer_size (vars w0) ->
  reachable (system_of_main w0) s ->
  exists pending,
    deposits_of (trace (shared s)) = fetches_of (trace (shared s)) ++ pending
    /\ holds_jobs (buffer_size (vars w0)) (vars (shared s)) pending
    /\ (forall (k : nat) j,
          pending !! k = Some j ->
          job_id j
          = (head (my_queue (vars (shared s))) + Z.of_nat k)
              mod buffer_size (vars w0) + 1)
    /\ NoDup (map job_id pending).
Proof.
  intros Hno Hrun HC Hreach.
  destruct (reachable_slots hdr env argv w0 s Hno Hrun HC Hreach)
    as (pending & [Hh _ Hfifo] & Hslots).
  exists pending. split; [done|]. split; [done|]. split; [done|].
  destruct Hh as [[_ _ Hhead _] Hn _ _].
  apply NoDup_alt. intros k1 k2 x H1 H2.
  change (map job_id pending) with (job_id <$> pending) in H1, H2.
  rewrite list_lookup_fmap in H1, H2.
  apply fmap_Some in H1 as (j1 & Hj1 & ->).
  apply fmap_Some in H2 as (j2 & Hj2 & Heq).
  pose proof (lookup_lt_Some _ _ _ Hj1). pose proof (lookup_lt_Some _ _ _ Hj2).
  rewrite (Hslots _ _ Hj1), (Hslots _ _ Hj2) in Heq.
  assert (Hmod : (head (my_queue (vars (shared s))) + Z.of_nat k1)
                   mod buffer_size (vars w0)
                 = (head (my_queue (vars (shared s))) + Z.of_nat k2)
                   mod buffer_size (vars w0)) by lia.
  clear Heq. revert Hmod.
  set (C := buffer_size (vars w0)) in *.
  set (h := head (my_queue (vars (shared s)))) in *.
  intros Hmod. mod_solve C.
Qed.

Lemma queued_jobs_carry_their_slot_witness :
  exists pending,
    deposits_of (trace (shared example_at_fetch))
    = fetches_of (trace (shared example_at_fetch)) ++ pending
    /\ holds_jobs (buffer_size (vars example_world))
                  (vars (shared example_at_fetch)) pending
    /\ (forall (k : nat) j,
          pending !! k = Some j ->
          job_id j
          = (head (my_queue (vars (shared example_at_fetch))) + Z.of_nat k)
              mod buffer_size (vars example_world) + 1)
    /\ NoDup (map job_id pending).
Proof.
  apply (queued_jobs_carry_their_slot example_hdr example_env example_argv
           example_world example_at_fetch).
  - simpl. lia.
  - reflexivity.
  - simpl. lia.
  - apply (example_reachable
             (schedule_to_job_id
              ++ [(0, go); (0, go); (0, go); (0, go); (0, go); (1, go); (1, go)]%nat)).
    reflexivity.
Defined.

(** ** Who is who *)

Lemma thread_step_identity inp w th a w' th' :
  thread_step inp w th = Step (a, w', th') ->
  identity th' = identity th
  /\ forall m, a = APrintf m -> message_from m = identity th.
Proof.
  destruct th as [p|c]; intros H.
  - apply thread_step_producer in H as (p' & -> & H).
    unfold producer_step in H.
    destruct (p_pc p) eqn:Hpc; break_step H; simpl;
      (split; [done|]); by intros m [= <-].
  - apply thread_step_consumer in H as (c' & -> & H).
    unfold consumer_step in H.
    destruct (c_pc c) eqn:Hpc; break_step H; simpl;
      try (split; [done|]; by intros m [= <-]).
    split; [by destruct (_ =? 0) | done].
Qed.

Lemma identity_threads_of_main g :
  map identity (threads_of_main g)
  = map (fun k => (true, Z.of_nat k + 1)) (seq 0 (Z.to_nat (number_of_producers g)))
    ++ map (fun k => (false, Z.of_nat k + 1))
           (seq 0 (Z.to_nat (number_of_consumers g))).
Proof. unfold threads_of_main. by rewrite map_app, !map_map. Qed.

Lemma reachable_identity s0 s :
  (forall tid a, ~ In (EThread tid a) (trace (shared s0))) ->
  reachable s0 s ->
  map identity (threads s) = map identity (threads s0)
  /\ forall tid m,
       In (EThread tid (APrintf m)) (trace (shared s)) ->
       map identity (threads s0) !! tid = Some (message_from m).
Proof.
  intros Hnone. induction 1 as [|s tid a s' Hreach [IHi IHm] Hstep].
  - split; [done|]. intros tid m Hin. by destruct (Hnone _ _ Hin).
  - destruct Hstep as [tid th inp a w' th' Hth Hts]. simpl.
    destruct (thread_step_identity _ _ _ _ _ _ Hts) as [Hid Hmsg].
    assert (Hl : map identity (threads s) !! tid = Some (identity th)).
    { change (map identity (threads s)) with (identity <$> threads s).
      by rewrite list_lookup_fmap, Hth. }
    split.
    + rewrite <- IHi.
      change (map identity ?l) with (identity <$> l).
      rewrite list_fmap_insert, Hid. by apply list_insert_id.
    + intros tid0 m Hin. rewrite (thread_step_trace _ _ _ _ _ _ Hts) in Hin.
      apply in_app_iff in Hin as [Hin | [[= -> ->] | []]]; [by apply IHm|].
      by rewrite <- IHi, Hl, (Hmsg m eq_refl).
Qed.

(** X26: the process started by [main] consists, at every moment, of the
    producers with the ids [1 .. number_of_producers] followed by the
    consumers with the ids [1 .. number_of_consumers]: no thread changes
    its role or its id.  Every line a thread prints names the role and
    the id of the thread that prints it. *)
Theorem threads_keep_their_identity
    (hdr : helper_h) (env : environment) (argv : list string)
    (w0 : world) (s : system) :
  NO_ERROR hdr <= 0 ->
  main_startup hdr env argv world_at_startup = (Running, w0) ->
  reachable (system_of_main w0) s ->
  map identity (threads s)
  = map (fun k => (true, Z.of_nat k + 1))
        (seq 0 (Z.to_nat (number_of_producers (vars w0))))
    ++ map (fun k => (false, Z.of_nat k + 1))
           (seq 0 (Z.to_nat (number_of_consumers (vars w0))))
  /\ forall tid m,
       In (EThread tid (APrintf m)) (trace (shared s)) ->
       map identity (threads s) !! tid = Some (message_from m).
Proof.
  intros Hno Hrun Hreach.
  destruct (main_startup_running hdr env argv w0 Hno Hrun)
    as (id & d & Hnew & Hvars & Hsems & Htrace).
  destruct (reachable_identity (system_of_main w0) s) as [Hi Hm]; [|done|].
  { intros tid a Hin. rewrite Forall_forall in Htrace.
    apply list_elem_of_In in Hin. by apply (Htrace _ Hin tid a). }
  split.
  - rewrite Hi. apply identity_threads_of_main.
  - intros tid m Hin. rewrite Hi. by apply Hm.
Qed.

Lemma threads_keep_their_identity_witness :
  map identity (threads example_all_done)
  = map (fun k => (true, Z.of_nat k + 1))
        (seq 0 (Z.to_nat (number_of_producers (vars example_world))))
    ++ map (fun k => (false, Z.of_nat k + 1))
           (seq 0 (Z.to_nat (number_of_consumers (vars example_world))))
  /\ forall tid m,
       In (EThread tid (APrintf m)) (trace (shared example_all_done)) ->
       map identity (threads example_all_done) !! tid = Some (message_from m).
Proof.
  apply (threads_keep_their_identity example_hdr example_env example_argv
           example_world example_all_done).
  - simpl. lia.
  - reflexivity.
  - apply (example_reachable
             (schedule_to_job_id
              ++ [(0, go); (0, go); (0, go); (0, go); (0, go); (1, go); (1, go);
                  (1, go); (1, go); (1, go); (1, go); (1, go); (1, go);
                  (1, let_expire); (1, go); (1, go);
                  (0, go); (0, go); (0, go); (0, go); (0, go); (0, let_expire);
                  (0, go); (0, go); (0, go); (0, go)]%nat)).
    reflexivity.
Defined.
